(** * Range proofs over a stack-built Merkle tree

    A shallow embedding of [range.go] (package [merkletree]): the two
    [SubtreeHasher] implementations, the two [LeafHasher] implementations,
    [BuildRangeProof] and [VerifyRangeProof], together with the
    [precalcSubtreeHasher] decorator of the package's test file.

    Conventions.
    - A Go [int] is a [Z]; the only places where 64-bit wrap-around can
      occur ([1 << uint64(i)] and [len(leaf) * n]) go through [wrap64].
    - A [[]byte] is a [list byte]; the nil slice is the empty list, except
      for the result of [Tree.Root], whose nil-ness the code tests and which
      is therefore an [option].
    - An [io.Reader] is an in-memory byte stream (what [bytes.NewReader]
      gives): the list of the bytes that are still unread.
    - A Go [panic] is the [Abort] outcome. *)

From Stdlib.Strings Require Import String Byte.
From Stdlib Require Import ZArith List Lia Bool.
Import ListNotations.
Open Scope Z_scope.

Set Implicit Arguments.

(** ** Integers *)

Definition wrap64 (z : Z) : Z := (z + 2 ^ 63) mod 2 ^ 64 - 2 ^ 63.

Definition maxInt : Z := 2 ^ 63 - 1.

(** [1 << uint64(i)] at type [int]. *)
Definition shl1 (i : Z) : Z := wrap64 (Z.shiftl 1 i).

(** The loop counters of the two bit-scanning loops. *)
Definition bitsUp : list Z := map Z.of_nat (seq 0 64).
Definition bitsDown : list Z := rev bitsUp.

(** ** Errors, panics, outcomes *)

Definition bytes := list byte.

(** [hash.Hash], used only as [Reset; Write ...; Sum(nil)]. *)
Definition Hash := bytes -> bytes.

Inductive error :=
| EOF
| ErrUnexpectedEOF
| ErrHeight (pushed top : Z).

Inductive panic :=
| IllegalRange (msg : string)
| PanicError (e : error)
| SliceBounds
| DivideByZero.

Inductive outcome (A : Type) :=
| Done (a : A)
| Abort (p : panic).
Arguments Abort {A} p.

Definition is_eof (e : error) : bool :=
  match e with EOF => true | _ => false end.

(** ** TreeBuilder *)

Record subTree := mkSubTree { height : Z; sum : bytes }.

(** The pending stack, most recently pushed entry first. *)
Definition Tree := list subTree.

Section TreeBuilder.
Variable h : Hash.

(** Modelled from the spec: [leafSum] and [nodeSum] are defined in the
    package's tree file; section 6 gives them as [Hash(0x00 || leaf)] and
    [Hash(0x01 || left || right)]. *)
Definition leafSum (data : bytes) : bytes := h (x00 :: data).
Definition nodeSum (a b : bytes) : bytes := h (x01 :: a ++ b).

(** Modelled from the spec: the [Tree] type with [New], [Push],
    [PushSubTree] and [Root] lives in the package's tree file; section 4.1
    describes it.  [joinSubTrees a b] combines the earlier entry [a] with
    the later entry [b]. *)
Definition New : Tree := [].

Definition joinSubTrees (a b : subTree) : subTree :=
  {| height := height a + 1; sum := nodeSum (sum a) (sum b) |}.

(** After an insertion: while the top two entries share a height, pop both
    and push the combined entry. [top] is the entry just inserted. *)
Fixpoint joinAllSubTrees (top : subTree) (rest : Tree) : Tree :=
  match rest with
  | [] => [top]
  | nxt :: rest' =>
      if height top =? height nxt
      then joinAllSubTrees (joinSubTrees nxt top) rest'
      else top :: rest
  end.

Definition Push (data : bytes) (t : Tree) : Tree :=
  joinAllSubTrees {| height := 0; sum := leafSum data |} t.

(** Fails with a height error when [ht] exceeds the height of the topmost
    entry; the tree is then left as it was. *)
Definition PushSubTree (ht : Z) (s : bytes) (t : Tree) : Tree * option error :=
  match t with
  | [] => ([ {| height := ht; sum := s |} ], None)
  | top :: _ =>
      if ht >? height top
      then (t, Some (ErrHeight ht (height top)))
      else (joinAllSubTrees {| height := ht; sum := s |} t, None)
  end.

(** Start from the topmost hash and fold in every older entry as the left
    operand. [None] is the nil root of an empty tree. *)
Definition Root (t : Tree) : option bytes :=
  match t with
  | [] => None
  | top :: rest =>
      Some (fold_left (fun acc e => nodeSum (sum e) acc) rest (sum top))
  end.
End TreeBuilder.

(** A [[]byte] result built from [Tree.Root]: nil is the empty slice. *)
Definition orNil (o : option bytes) : bytes :=
  match o with Some b => b | None => [] end.

(** [bytes.Equal]. *)
Definition bytes_eqb (a b : bytes) : bool :=
  if list_eq_dec Byte.byte_eq_dec a b then true else false.

(** ** Byte streams *)

(** [io.ReadFull(r, buf)] with [len(buf) = n] on an in-memory stream:
    the bytes read, the error, and the rest of the stream. *)
Definition ReadFull (r : bytes) (n : nat) : bytes * option error * bytes :=
  let got := firstn n r in
  let rest := skipn n r in
  if Nat.eqb (length got) n then (got, None, rest)
  else match got with
       | [] => (got, Some EOF, rest)
       | _ => (got, Some ErrUnexpectedEOF, rest)
       end.

(** [io.CopyN(ioutil.Discard, r, n)]: the count written, the error, and
    the rest of the stream.  A negative [n] copies nothing and reports no
    error. *)
Definition CopyN (r : bytes) (n : Z) : Z * option error * bytes :=
  if n <? 0 then (0, None, r)
  else
    let k := Z.to_nat n in
    let written := Z.of_nat (length (firstn k r)) in
    if written =? n then (n, None, skipn k r)
    else (written, Some EOF, skipn k r).

(** ** SubtreeHasher *)

Class SubtreeHasher (S : Type) := {
  NextSubtreeRoot : Z -> S -> outcome (bytes * option error * S);
  Skip : Z -> S -> outcome (option error * S)
}.

(** *** ReaderSubtreeHasher *)

Record ReaderSubtreeHasher := mkRSH {
  rsh_r : bytes;
  rsh_h : Hash;
  rsh_leaf : nat   (* len(rsh.leaf) *)
}.

Definition NewReaderSubtreeHasher (r : bytes) (leafSize : nat) (h : Hash)
  : ReaderSubtreeHasher :=
  {| rsh_r := r; rsh_h := h; rsh_leaf := leafSize |}.

(** The loop of [ReaderSubtreeHasher.NextSubtreeRoot].  Every iteration
    that does not break consumes [leafSize] bytes, so [S (length r)] rounds
    are enough when [leafSize > 0]; when [leafSize = 0] no iteration changes
    anything. *)
Fixpoint rsh_loop (fuel : nat) (h : Hash) (leafSize : nat)
    (i subtreeSize : Z) (r : bytes) (tree : Tree) : Tree * bytes :=
  match fuel with
  | O => (tree, r)
  | S fuel' =>
      if i <? subtreeSize then
        let '(got, err, r') := ReadFull r leafSize in
        let tree' := match got with [] => tree | _ => Push h got tree end in
        match err with
        | Some _ => (tree', r')
        | None => rsh_loop fuel' h leafSize (i + 1) subtreeSize r' tree'
        end
      else (tree, r)
  end.

Definition rsh_NextSubtreeRoot (subtreeSize : Z) (rsh : ReaderSubtreeHasher)
  : outcome (bytes * option error * ReaderSubtreeHasher) :=
  let '(tree, r') :=
    rsh_loop (S (length (rsh_r rsh))) (rsh_h rsh) (rsh_leaf rsh)
             0 subtreeSize (rsh_r rsh) (New) in
  let rsh' := {| rsh_r := r'; rsh_h := rsh_h rsh; rsh_leaf := rsh_leaf rsh |} in
  match Root (rsh_h rsh) tree with
  | None => Done ([], Some EOF, rsh')
  | Some root => Done (root, None, rsh')
  end.

Definition rsh_Skip (n : Z) (rsh : ReaderSubtreeHasher)
  : outcome (option error * ReaderSubtreeHasher) :=
  let skipSize := wrap64 (Z.of_nat (rsh_leaf rsh) * n) in
  let '(skipped, err, r') := CopyN (rsh_r rsh) skipSize in
  let rsh' := {| rsh_r := r'; rsh_h := rsh_h rsh; rsh_leaf := rsh_leaf rsh |} in
  match err with
  | Some EOF | Some ErrUnexpectedEOF =>
      if skipped =? skipSize then Done (None, rsh')
      else Done (Some ErrUnexpectedEOF, rsh')
  | _ => Done (err, rsh')
  end.

#[export] Instance ReaderSubtreeHasher_SubtreeHasher
  : SubtreeHasher ReaderSubtreeHasher :=
  {| NextSubtreeRoot := rsh_NextSubtreeRoot; Skip := rsh_Skip |}.

(** *** CachedSubtreeHasher *)

Record CachedSubtreeHasher := mkCSH {
  csh_leafHashes : list bytes;
  csh_h : Hash
}.

Definition NewCachedSubtreeHasher (leafHashes : list bytes) (h : Hash)
  : CachedSubtreeHasher :=
  {| csh_leafHashes := leafHashes; csh_h := h |}.

(** The loop of [CachedSubtreeHasher.NextSubtreeRoot]: the tree, the error
    of a failed [PushSubTree], and the hashes left. *)
Fixpoint csh_loop (h : Hash) (i subtreeSize : Z) (leafHashes : list bytes)
    (tree : Tree) : Tree * option error * list bytes :=
  match leafHashes with
  | [] => (tree, None, [])
  | lh :: rest =>
      if i <? subtreeSize then
        match PushSubTree h 0 lh tree with
        | (_, Some err) => (tree, Some err, leafHashes)
        | (tree', None) => csh_loop h (i + 1) subtreeSize rest tree'
        end
      else (tree, None, leafHashes)
  end.

Definition csh_NextSubtreeRoot (subtreeSize : Z) (csh : CachedSubtreeHasher)
  : outcome (bytes * option error * CachedSubtreeHasher) :=
  match csh_leafHashes csh with
  | [] => Done ([], Some EOF, csh)
  | _ =>
      let '(tree, err, rest) :=
        csh_loop (csh_h csh) 0 subtreeSize (csh_leafHashes csh) New in
      let csh' := {| csh_leafHashes := rest; csh_h := csh_h csh |} in
      match err with
      | Some e => Done ([], Some e, csh')
      | None => Done (orNil (Root (csh_h csh) tree), None, csh')
      end
  end.

Definition csh_Skip (n : Z) (csh : CachedSubtreeHasher)
  : outcome (option error * CachedSubtreeHasher) :=
  if n >? Z.of_nat (length (csh_leafHashes csh)) then
    Done (Some ErrUnexpectedEOF, csh)
  else if n <? 0 then Abort SliceBounds
  else Done (None, {| csh_leafHashes := skipn (Z.to_nat n) (csh_leafHashes csh);
                      csh_h := csh_h csh |}).

#[export] Instance CachedSubtreeHasher_SubtreeHasher
  : SubtreeHasher CachedSubtreeHasher :=
  {| NextSubtreeRoot := csh_NextSubtreeRoot; Skip := csh_Skip |}.

(** *** precalcSubtreeHasher (the decorator of the test file) *)

Record precalcSubtreeHasher (S : Type) := mkPrecalc {
  p_precalc : list bytes;
  p_subtreeSize : Z;
  p_h : Hash;
  p_sh : S
}.

Definition newPrecalcSubtreeHasher {S : Type} (precalc : list bytes)
    (subtreeSize : Z) (h : Hash) (sh : S) : precalcSubtreeHasher S :=
  {| p_precalc := precalc; p_subtreeSize := subtreeSize; p_h := h; p_sh := sh |}.

(** [for _, root := range roots { tree.PushSubTree(0, root) }], the error
    of [PushSubTree] being dropped as in the source. *)
Definition pushRoots (h : Hash) (roots : list bytes) (tree : Tree) : Tree :=
  fold_left (fun t root => fst (PushSubTree h 0 root t)) roots tree.

Definition precalc_NextSubtreeRoot {S : Type} `{SubtreeHasher S} (n : Z)
    (p : precalcSubtreeHasher S)
  : outcome (bytes * option error * precalcSubtreeHasher S) :=
  if p_subtreeSize p =? 0 then Abort DivideByZero
  else if (Z.rem n (p_subtreeSize p) =? 0)
          && (Z.of_nat (length (p_precalc p))
                >=? wrap64 (Z.quot n (p_subtreeSize p)))
  then
    let np := wrap64 (Z.quot n (p_subtreeSize p)) in
    if np <? 0 then Abort SliceBounds
    else
      let tree := pushRoots (p_h p) (firstn (Z.to_nat np) (p_precalc p)) New in
      let rest := skipn (Z.to_nat np) (p_precalc p) in
      match Skip n (p_sh p) with
      | Abort q => Abort q
      | Done (err, sh') =>
          Done (orNil (Root (p_h p) tree), err,
                {| p_precalc := rest; p_subtreeSize := p_subtreeSize p;
                   p_h := p_h p; p_sh := sh' |})
      end
  else
    match NextSubtreeRoot n (p_sh p) with
    | Abort q => Abort q
    | Done (root, err, sh') =>
        Done (root, err,
              {| p_precalc := p_precalc p; p_subtreeSize := p_subtreeSize p;
                 p_h := p_h p; p_sh := sh' |})
    end.

Definition precalc_Skip {S : Type} `{SubtreeHasher S} (n : Z)
    (p : precalcSubtreeHasher S)
  : outcome (option error * precalcSubtreeHasher S) :=
  if p_subtreeSize p =? 0 then Abort DivideByZero
  else
    let q := wrap64 (Z.quot n (p_subtreeSize p)) in
    let skippedHashes :=
      if Z.rem n (p_subtreeSize p) =? 0 then q else wrap64 (q + 1) in
    if (skippedHashes <? 0)
       || (skippedHashes >? Z.of_nat (length (p_precalc p)))
    then Abort SliceBounds
    else
      let rest := skipn (Z.to_nat skippedHashes) (p_precalc p) in
      match Skip n (p_sh p) with
      | Abort q => Abort q
      | Done (err, sh') =>
          Done (err, {| p_precalc := rest; p_subtreeSize := p_subtreeSize p;
                        p_h := p_h p; p_sh := sh' |})
      end.

#[export] Instance precalc_SubtreeHasher {S : Type} `{SubtreeHasher S}
  : SubtreeHasher (precalcSubtreeHasher S) :=
  {| NextSubtreeRoot := precalc_NextSubtreeRoot; Skip := precalc_Skip |}.

(** ** BuildRangeProof *)

Definition illegalRange (proofStart proofEnd : Z) : bool :=
  (proofStart <? 0) || (proofStart >? proofEnd) || (proofStart =? proofEnd).

Section Build.
Context {S : Type} `{SubtreeHasher S}.

(** The first loop, [i] running over [bits]: hashes of the leaves
    [0, proofStart).  An error of the cursor ends the whole function with
    [(nil, err)]. *)
Fixpoint buildPrefix (bits : list Z) (proofStart : Z) (sh : S)
    (proof : list bytes) : outcome (list bytes * option error * S) :=
  match bits with
  | [] => Done (proof, None, sh)
  | i :: bits' =>
      let subtreeSize := shl1 i in
      if Z.land proofStart subtreeSize =? 0
      then buildPrefix bits' proofStart sh proof
      else
        match NextSubtreeRoot subtreeSize sh with
        | Abort p => Abort p
        | Done (_, Some err, sh') => Done ([], Some err, sh')
        | Done (root, None, sh') =>
            buildPrefix bits' proofStart sh' (proof ++ [root])
        end
  end.

(** The second loop: hashes from [proofEnd] onward, until [io.EOF]. *)
Fixpoint buildSuffix (bits : list Z) (endMask : Z) (sh : S)
    (proof : list bytes) : outcome (list bytes * option error * S) :=
  match bits with
  | [] => Done (proof, None, sh)
  | i :: bits' =>
      let subtreeSize := shl1 i in
      if Z.land endMask subtreeSize =? 0
      then
        match NextSubtreeRoot subtreeSize sh with
        | Abort p => Abort p
        | Done (_, Some EOF, sh') => Done (proof, None, sh')
        | Done (_, Some err, sh') => Done ([], Some err, sh')
        | Done (root, None, sh') =>
            buildSuffix bits' endMask sh' (proof ++ [root])
        end
      else buildSuffix bits' endMask sh proof
  end.

(** The proof, the error, and the cursor as the call leaves it.  For a
    legal range [proofEnd - proofStart] and [proofEnd - 1] cannot overflow. *)
Definition BuildRangeProof (proofStart proofEnd : Z) (sh : S)
  : outcome (list bytes * option error * S) :=
  if illegalRange proofStart proofEnd
  then Abort (IllegalRange "BuildRangeProof: illegal proof range")
  else
    match buildPrefix bitsDown proofStart sh [] with
    | Abort p => Abort p
    | Done (_, Some err, sh1) => Done ([], Some err, sh1)
    | Done (proof, None, sh1) =>
        match Skip (proofEnd - proofStart) sh1 with
        | Abort p => Abort p
        | Done (Some err, sh2) => Done ([], Some err, sh2)
        | Done (None, sh2) => buildSuffix bitsUp (proofEnd - 1) sh2 proof
        end
    end.
End Build.

(** ** LeafHasher *)

Class LeafHasher (L : Type) := {
  NextLeafHash : L -> bytes * option error * L
}.

Record ReaderLeafHasher := mkRLH {
  rlh_r : bytes;
  rlh_h : Hash;
  rlh_leaf : nat
}.

Definition NewReaderLeafHasher (r : bytes) (h : Hash) (leafSize : nat)
  : ReaderLeafHasher :=
  {| rlh_r := r; rlh_h := h; rlh_leaf := leafSize |}.

Definition rlh_NextLeafHash (rlh : ReaderLeafHasher)
  : bytes * option error * ReaderLeafHasher :=
  let '(got, err, r') := ReadFull (rlh_r rlh) (rlh_leaf rlh) in
  let rlh' := {| rlh_r := r'; rlh_h := rlh_h rlh; rlh_leaf := rlh_leaf rlh |} in
  match err with
  | Some (ErrHeight a b) => ([], Some (ErrHeight a b), rlh')
  | _ =>
      match got with
      | [] => ([], Some EOF, rlh')
      | _ => (leafSum (rlh_h rlh) got, None, rlh')
      end
  end.

#[export] Instance ReaderLeafHasher_LeafHasher : LeafHasher ReaderLeafHasher :=
  {| NextLeafHash := rlh_NextLeafHash |}.

Record CachedLeafHasher := mkCLH { clh_leafHashes : list bytes }.

Definition NewCachedLeafHasher (leafHashes : list bytes) : CachedLeafHasher :=
  {| clh_leafHashes := leafHashes |}.

Definition clh_NextLeafHash (clh : CachedLeafHasher)
  : bytes * option error * CachedLeafHasher :=
  match clh_leafHashes clh with
  | [] => ([], Some EOF, clh)
  | h :: rest => (h, None, {| clh_leafHashes := rest |})
  end.

#[export] Instance CachedLeafHasher_LeafHasher : LeafHasher CachedLeafHasher :=
  {| NextLeafHash := clh_NextLeafHash |}.

(** ** VerifyRangeProof *)

Section Verify.
Context {L : Type} `{LeafHasher L}.
Variable h : Hash.

(** [for i := 63; i >= 0 && len(proof) > 0; i--]: the tree and the proof
    entries not yet used.  A failing [PushSubTree] panics. *)
Fixpoint verifyPrefix (bits : list Z) (proofStart : Z) (proof : list bytes)
    (tree : Tree) : outcome (Tree * list bytes) :=
  match bits, proof with
  | [], _ | _, [] => Done (tree, proof)
  | i :: bits', p0 :: ps =>
      if Z.land proofStart (shl1 i) =? 0
      then verifyPrefix bits' proofStart proof tree
      else
        match PushSubTree h i p0 tree with
        | (_, Some err) => Abort (PanicError err)
        | (tree', None) => verifyPrefix bits' proofStart ps tree'
        end
  end.

(** [for { ... }] over the leaf hashes; [fuel] bounds the number of rounds
    and [None] means it ran out.  The error, when there is one, is what
    [VerifyRangeProof] returns next to [false]. *)
Fixpoint verifyLeaves (fuel : nat) (lh : L) (tree : Tree)
  : option (outcome (Tree * option error)) :=
  match fuel with
  | O => None
  | Datatypes.S fuel' =>
      let '(leafHash, err, lh') := NextLeafHash lh in
      match err with
      | Some EOF => Some (Done (tree, None))
      | Some e => Some (Done (tree, Some e))
      | None =>
          match PushSubTree h 0 leafHash tree with
          | (_, Some e) => Some (Abort (PanicError e))
          | (tree', None) => verifyLeaves fuel' lh' tree'
          end
      end
  end.

(** [for i := 0; i < 64 && len(proof) > 0; i++]: a failing [PushSubTree]
    is returned as an error. *)
Fixpoint verifySuffix (bits : list Z) (endMask : Z) (proof : list bytes)
    (tree : Tree) : Tree * option error :=
  match bits, proof with
  | [], _ | _, [] => (tree, None)
  | i :: bits', p0 :: ps =>
      if Z.land endMask (shl1 i) =? 0
      then
        match PushSubTree h i p0 tree with
        | (_, Some err) => (tree, Some err)
        | (tree', None) => verifySuffix bits' endMask ps tree'
        end
      else verifySuffix bits' endMask proof tree
  end.

Definition VerifyRangeProof (fuel : nat) (lh : L) (proofStart proofEnd : Z)
    (proof : list bytes) (root : bytes) : option (outcome (bool * option error)) :=
  if illegalRange proofStart proofEnd
  then Some (Abort (IllegalRange "VerifyRangeProof: illegal proof range"))
  else
    match verifyPrefix bitsDown proofStart proof New with
    | Abort p => Some (Abort p)
    | Done (tree1, proof1) =>
        match verifyLeaves fuel lh tree1 with
        | None => None
        | Some (Abort p) => Some (Abort p)
        | Some (Done (_, Some err)) => Some (Done (false, Some err))
        | Some (Done (tree2, None)) =>
            match verifySuffix bitsUp (proofEnd - 1) proof1 tree2 with
            | (_, Some err) => Some (Done (false, Some err))
            | (tree3, None) =>
                Some (Done (bytes_eqb (orNil (Root h tree3)) root, None))
            end
        end
    end.
End Verify.

(** ** The root of a whole sequence of leaves *)

(** The leaves of a stream: chunks of [leafSize] bytes, the last one
    possibly shorter.  [fuel] bounds the number of chunks. *)
Fixpoint chunks (fuel : nat) (leafSize : nat) (r : bytes) : list bytes :=
  match fuel with
  | O => []
  | Datatypes.S fuel' =>
      match r with
      | [] => []
      | _ => firstn leafSize r :: chunks fuel' leafSize (skipn leafSize r)
      end
  end.

Definition leavesOf (leafSize : nat) (r : bytes) : list bytes :=
  match leafSize with
  | O => []
  | _ => chunks (length r) leafSize r
  end.

(** Modelled from the spec: [ReaderRoot] (behind the test file's
    [bytesRoot]) is in the package's tree file; by sections 4.1 and 3 the
    root of a sequence of leaves is what a fresh builder yields after every
    leaf has been pushed in order. *)
Definition pushLeafHashes (h : Hash) (leafHashes : list bytes) (tree : Tree)
  : Tree :=
  fold_left (fun t lh => joinAllSubTrees h {| height := 0; sum := lh |} t)
            leafHashes tree.

Definition merkleRoot (h : Hash) (leafHashes : list bytes) : option bytes :=
  Root h (pushLeafHashes h leafHashes New).

Definition bytesRoot (b : bytes) (h : Hash) (leafSize : nat) : bytes :=
  orNil (merkleRoot h (map (leafSum h) (leavesOf leafSize b))).

(** * Auxiliary notions for the proofs *)

Unset Implicit Arguments.

(** The loop counters as lists: [down k] is [k-1, ..., 0] and [up a n] is
    [a, ..., a+n-1]. *)
Definition down (k : nat) : list Z := rev (map Z.of_nat (seq 0 k)).
Definition up (a n : nat) : list Z := map Z.of_nat (seq a n).

(** The top of the stack is at least [j] high (or the stack is empty). *)
Definition top_ge (j : Z) (t : Tree) : Prop :=
  match t with
  | [] => True
  | top :: _ => j <= height top
  end.

(** [drains lh xs r]: [lh] hands out the leaf hashes [xs] and then stops,
    at [io.EOF] when [r = None], at the error [e] when [r = Some e]. *)
Inductive drains {L : Type} `{LeafHasher L} : L -> list bytes -> option error -> Prop :=
| drains_eof (lh lh' : L) (x : bytes) :
    NextLeafHash lh = (x, Some EOF, lh') -> drains lh [] None
| drains_err (lh lh' : L) (x : bytes) (e : error) :
    NextLeafHash lh = (x, Some e, lh') -> e <> EOF -> drains lh [] (Some e)
| drains_next (lh lh' : L) (x : bytes) (xs : list bytes) (r : option error) :
    NextLeafHash lh = (x, None, lh') -> drains lh' xs r -> drains lh (x :: xs) r.

(** ** The proof as a function of the leaf hashes *)

(** The entries of the first loop run over the bits [k-1 .. 0] of
    [proofStart], the cursor standing before the leaf hashes [R]. *)
Fixpoint prefixHashes (h : Hash) (k : nat) (proofStart : Z) (R : list bytes)
  : list bytes :=
  match k with
  | O => []
  | Datatypes.S k' =>
      if Z.testbit proofStart (Z.of_nat k')
      then orNil (merkleRoot h (firstn (2 ^ k') R))
             :: prefixHashes h k' proofStart (skipn (2 ^ k') R)
      else prefixHashes h k' proofStart R
  end.

(** The entries of the second loop run over the bits [a .. a+n-1] of
    [endMask]; the loop ends at the first call that finds no leaf left. *)
Fixpoint suffixHashes (h : Hash) (a n : nat) (endMask : Z) (R : list bytes)
  : list bytes :=
  match n with
  | O => []
  | Datatypes.S n' =>
      if Z.testbit endMask (Z.of_nat a)
      then suffixHashes h (Datatypes.S a) n' endMask R
      else
        match R with
        | [] => []
        | _ => orNil (merkleRoot h (firstn (2 ^ a) R))
                 :: suffixHashes h (Datatypes.S a) n' endMask (skipn (2 ^ a) R)
        end
  end.

Definition rangeProof (h : Hash) (leafHashes : list bytes)
    (proofStart proofEnd : Z) : list bytes :=
  prefixHashes h 64 proofStart leafHashes
  ++ suffixHashes h 0 64 (proofEnd - 1) (skipn (Z.to_nat proofEnd) leafHashes).

(** ** Cursors that stand for a sequence of leaf hashes *)

(** [repr s R] reads: the cursor [s] has the leaf hashes [R] still to come.
    A faithful cursor answers [NextSubtreeRoot] and [Skip] as the interface
    comments of [SubtreeHasher] say. *)
Record FaithfulHasher {S : Type} `{SubtreeHasher S} (h : Hash)
    (repr : S -> list bytes -> Prop) : Prop := {
  faithful_eof : forall (n : Z) (s : S),
    repr s [] ->
    exists s', NextSubtreeRoot n s = Done ([], Some EOF, s') /\ repr s' [];
  faithful_next : forall (n : Z) (s : S) (R : list bytes),
    repr s R -> R <> [] -> 0 < n ->
    exists s',
      NextSubtreeRoot n s
      = Done (orNil (merkleRoot h (firstn (Z.to_nat n) R)), None, s')
      /\ repr s' (skipn (Z.to_nat n) R);
  faithful_skip : forall (n : Z) (s : S) (R : list bytes),
    repr s R -> 0 <= n <= Z.of_nat (length R) ->
    exists s', Skip n s = Done (None, s') /\ repr s' (skipn (Z.to_nat n) R)
}.

Definition cached_repr (h : Hash) (s : CachedSubtreeHasher) (R : list bytes)
  : Prop :=
  s = {| csh_leafHashes := R; csh_h := h |}.

(** A stream of whole leaves of [leafSize > 0] bytes, short enough for its
    length to be an [int]. *)
Definition reader_repr (h : Hash) (leafSize : nat) (s : ReaderSubtreeHasher)
    (R : list bytes) : Prop :=
  exists leaves : list bytes,
    s = {| rsh_r := concat leaves; rsh_h := h; rsh_leaf := leafSize |}
    /\ Forall (fun l => length l = leafSize) leaves
    /\ R = map (leafSum h) leaves
    /\ (0 < leafSize)%nat
    /\ Z.of_nat (length (concat leaves)) <= maxInt.

(** The first leaf index that the cursor has not passed when the second
    loop reaches bit [a]. *)
Definition reach (endMask : Z) (a : nat) : Z :=
  (endMask / 2 ^ Z.of_nat a + 1) * 2 ^ Z.of_nat a.


(** ** Data for the closed examples *)

(** A stand-in hash for evaluating the code on concrete inputs: the
    digest of a message is the message itself. *)
Definition idHash : Hash := fun b => b.

(** Twelve two-byte leaves, [10 00], [10 01], ..., [10 0b]. *)
Definition leaves12 : list bytes :=
  [[x10; x00]; [x10; x01]; [x10; x02]; [x10; x03]; [x10; x04]; [x10; x05];
   [x10; x06]; [x10; x07]; [x10; x08]; [x10; x09]; [x10; x0a]; [x10; x0b]].

(** The closure [subtreeRoot] of the test: the root of the leaves
    [i, i+1, ..., j-1] of a stream, computed on its own by [bytesRoot]. *)
Definition subtreeRoot (leafData : bytes) (h : Hash) (leafSize : nat)
    (i j : nat) : bytes :=
  bytesRoot (firstn ((j - i) * leafSize) (skipn (i * leafSize) leafData))
            h leafSize.

(** ** Counting bits *)

(** The number of set, and of clear, bits of [x] among the bits
    [0 .. k-1]. *)
Definition setBitsBelow (k : nat) (x : Z) : nat :=
  length (filter (fun i => Z.testbit x (Z.of_nat i)) (seq 0 k)).

Definition clearBitsBelow (k : nat) (x : Z) : nat :=
  length (filter (fun i => negb (Z.testbit x (Z.of_nat i))) (seq 0 k)).

(** ** Watching the calls made on a cursor *)

Inductive call :=
| CallNextSubtreeRoot (n : Z)
| CallSkip (n : Z).

(** A cursor that passes every call on to the cursor it wraps and keeps
    the list of the calls made so far. *)
Record Recorder (S : Type) := mkRecorder {
  rec_calls : list call;
  rec_sh : S
}.
Arguments mkRecorder {S} rec_calls rec_sh.
Arguments rec_calls {S} r.
Arguments rec_sh {S} r.

Definition rec_NextSubtreeRoot {S : Type} `{SubtreeHasher S} (n : Z)
    (r : Recorder S) : outcome (bytes * option error * Recorder S) :=
  match NextSubtreeRoot n (rec_sh r) with
  | Abort p => Abort p
  | Done (root, err, sh') =>
      Done (root, err,
            {| rec_calls := rec_calls r ++ [CallNextSubtreeRoot n];
               rec_sh := sh' |})
  end.

Definition rec_Skip {S : Type} `{SubtreeHasher S} (n : Z) (r : Recorder S)
  : outcome (option error * Recorder S) :=
  match Skip n (rec_sh r) with
  | Abort p => Abort p
  | Done (err, sh') =>
      Done (err, {| rec_calls := rec_calls r ++ [CallSkip n]; rec_sh := sh' |})
  end.

#[export] Instance Recorder_SubtreeHasher {S : Type} `{SubtreeHasher S}
  : SubtreeHasher (Recorder S) :=
  {| NextSubtreeRoot := rec_NextSubtreeRoot; Skip := rec_Skip |}.

(** The calls of the two loops when no call fails and no [io.EOF] comes:
    one [NextSubtreeRoot(1 << i)] for every [i] that passes the loop's bit
    test, in the order of the loop. *)
Definition prefixCallsOver (bits : list Z) (proofStart : Z) : list call :=
  map (fun i => CallNextSubtreeRoot (shl1 i))
      (filter (fun i => negb (Z.land proofStart (shl1 i) =? 0)) bits).

Definition suffixCallsOver (bits : list Z) (endMask : Z) : list call :=
  map (fun i => CallNextSubtreeRoot (shl1 i))
      (filter (fun i => Z.land endMask (shl1 i) =? 0) bits).

Definition callPattern (proofStart proofEnd : Z) : list call :=
  prefixCallsOver bitsDown proofStart
  ++ CallSkip (proofEnd - proofStart)
  :: suffixCallsOver bitsUp (proofEnd - 1).

(** ** Comparing two runs of the verifier *)

(** Two byte strings of the same length, two stack entries of the same
    height whose hashes have the same length. *)
Definition sameLength (a b : bytes) : Prop := length a = length b.

Definition sameShape (x y : subTree) : Prop :=
  height x = height y /\ length (sum x) = length (sum y).

(** The idealisation under which a changed proof cannot be accepted:
    [nodeSum] has no collision between operand pairs whose left operands
    have the same length, and the length of its result depends only on the
    lengths of its operands. *)
Definition collisionFree (h : Hash) : Prop :=
  forall a a' b b' : bytes,
    length a = length a' -> nodeSum h a b = nodeSum h a' b' ->
    a = a' /\ b = b'.

Definition lengthRegular (h : Hash) : Prop :=
  forall a a' b b' : bytes,
    length a = length a' -> length b = length b' ->
    length (nodeSum h a b) = length (nodeSum h a' b').

(** ** Blocks of leaves and their roots *)

(** The precomputed roots the tests hand to [newPrecalcSubtreeHasher]: one
    Merkle root per block of leaf hashes. *)
Definition blockRoots (h : Hash) (blocks : list (list bytes)) : list bytes :=
  map (fun b => orNil (merkleRoot h b)) blocks.
(** * Properties *)

(** ** Bit tests *)

Lemma wrap64_small (z : Z) : - 2 ^ 63 <= z < 2 ^ 63 -> wrap64 z = z.
Proof.
  intros Hz. unfold wrap64.
  rewrite Z.mod_small by lia. lia.
Qed.

Lemma shl1_small (i : Z) : 0 <= i < 63 -> shl1 i = 2 ^ i.
Proof.
  intros Hi. unfold shl1. rewrite Z.shiftl_1_l.
  apply wrap64_small.
  assert (0 < 2 ^ i) by (apply Z.pow_pos_nonneg; lia).
  assert (2 ^ i < 2 ^ 63) by (apply Z.pow_lt_mono_r; lia).
  lia.
Qed.

Lemma shl1_63 : shl1 63 = - 2 ^ 63.
Proof. reflexivity. Qed.

Lemma land_pow2_testbit (m i : Z) :
  0 <= i -> (Z.land m (2 ^ i) =? 0) = negb (Z.testbit m i).
Proof.
  intros Hi.
  destruct (Z.testbit m i) eqn:Hb; simpl.
  - apply Z.eqb_neq. intros H0.
    assert (Z.testbit (Z.land m (2 ^ i)) i = true).
    { rewrite Z.land_spec, Hb, Z.pow2_bits_true by lia. reflexivity. }
    rewrite H0 in H. rewrite Z.bits_0 in H. discriminate.
  - apply Z.eqb_eq. apply Z.bits_inj'. intros n Hn.
    rewrite Z.land_spec, Z.bits_0.
    destruct (Z.eq_dec n i) as [->|Hne].
    + rewrite Hb. reflexivity.
    + rewrite Z.pow2_bits_false by lia. apply andb_false_r.
Qed.

Lemma testbit_high (m i : Z) : 0 <= m < 2 ^ i -> 0 <= i -> Z.testbit m i = false.
Proof.
  intros Hm Hi.
  destruct (Z.eq_dec m 0) as [->|Hne]; [apply Z.bits_0|].
  apply Z.bits_above_log2; [lia|].
  apply Z.log2_lt_pow2; lia.
Qed.

(** On a non-negative [int] the test [m & (1 << i) == 0] reads bit [i],
    also at [i = 63] where the mask is the sign bit. *)
Lemma land_shl1_testbit (m i : Z) :
  0 <= m < 2 ^ 63 -> 0 <= i < 64 ->
  (Z.land m (shl1 i) =? 0) = negb (Z.testbit m i).
Proof.
  intros Hm Hi.
  destruct (Z.eq_dec i 63) as [->|Hne].
  - rewrite (testbit_high m 63) by lia. simpl.
    apply Z.eqb_eq. apply Z.bits_inj'. intros n Hn.
    rewrite Z.land_spec, Z.bits_0.
    destruct (Z.ltb_spec n 63).
    + replace (shl1 63) with (- 2 ^ 63) by reflexivity.
      replace (- 2 ^ 63) with (Z.lnot (Z.ones 63)).
      2:{ reflexivity. }
      rewrite Z.lnot_spec, Z.ones_spec_low by lia. apply andb_false_r.
    + rewrite (Z.bits_above_log2 m n); [reflexivity|lia|].
      destruct (Z.eq_dec m 0) as [->|Hm0]; [simpl; lia|].
      assert (Z.log2 m < 63) by (apply Z.log2_lt_pow2; lia). lia.
  - rewrite shl1_small by lia. apply land_pow2_testbit. lia.
Qed.


Lemma down_S (k : nat) : down (S k) = Z.of_nat k :: down k.
Proof.
  unfold down. rewrite seq_S, map_app, rev_app_distr. reflexivity.
Qed.

Lemma bitsDown_down : bitsDown = down 64.
Proof. reflexivity. Qed.

Lemma bitsUp_up : bitsUp = up 0 64.
Proof. reflexivity. Qed.

(** ** The pending stack *)


Lemma top_ge_weaken (j j' : Z) (t : Tree) : j' <= j -> top_ge j t -> top_ge j' t.
Proof. destruct t; simpl; lia. Qed.

Section StackFacts.
Variable h : Hash.

Lemma top_ge_joinAll (rest : Tree) : forall (x : subTree) (j : Z),
  j <= height x -> top_ge j (joinAllSubTrees h x rest).
Proof.
  induction rest as [|nxt rest IH]; intros x j Hj; simpl; [exact Hj|].
  destruct (height x =? height nxt) eqn:E.
  - apply IH. simpl. apply Z.eqb_eq in E. lia.
  - simpl. exact Hj.
Qed.

Lemma joinAll_above (x : subTree) (t : Tree) :
  top_ge (height x + 1) t -> joinAllSubTrees h x t = x :: t.
Proof.
  destruct t as [|nxt rest]; simpl; [reflexivity|].
  intros Hlt. destruct (Z.eqb_spec (height x) (height nxt)); [lia|reflexivity].
Qed.

Lemma PushSubTree_ok (ht : Z) (s : bytes) (t : Tree) :
  top_ge ht t ->
  PushSubTree h ht s t = (joinAllSubTrees h {| height := ht; sum := s |} t, None).
Proof.
  destruct t as [|top rest]; simpl; [reflexivity|].
  intros Hge. destruct (Z.gtb_spec ht (height top)); [lia|reflexivity].
Qed.

Lemma Root_joinAll (rest : Tree) : forall x : subTree,
  Root h (joinAllSubTrees h x rest) = Root h (x :: rest).
Proof.
  induction rest as [|nxt rest IH]; intros x; simpl; [reflexivity|].
  destruct (height x =? height nxt); [|reflexivity].
  rewrite IH. reflexivity.
Qed.

Lemma Root_height_irrelevant (a b : Z) (s : bytes) (t : Tree) :
  Root h ({| height := a; sum := s |} :: t)
  = Root h ({| height := b; sum := s |} :: t).
Proof. reflexivity. Qed.

Lemma pushLeafHashes_app (A B : list bytes) (t : Tree) :
  pushLeafHashes h (A ++ B) t = pushLeafHashes h B (pushLeafHashes h A t).
Proof. unfold pushLeafHashes. apply fold_left_app. Qed.

End StackFacts.

(** ** Pushing a run of leaves at once *)

Section Chunks.
Variable h : Hash.

Local Abbreviation entry k r := {| height := Z.of_nat k; sum := r |}.

Lemma split_pow2 (k : nat) (B : list bytes) :
  (2 ^ k < length B <= 2 ^ S k)%nat ->
  exists B1 B2, B = B1 ++ B2 /\ length B1 = (2 ^ k)%nat
                /\ (0 < length B2 <= 2 ^ k)%nat.
Proof.
  intros HB. exists (firstn (2 ^ k) B), (skipn (2 ^ k) B).
  rewrite firstn_skipn, length_firstn, length_skipn.
  simpl in HB. repeat split; lia.
Qed.

(** A run of exactly [2^k] leaves pushed on a stack whose top is at least
    [k] high acts as a single insertion at height [k]. *)
Lemma push_complete_ex (k : nat) : forall B : list bytes,
  length B = (2 ^ k)%nat ->
  exists r, forall t, top_ge (Z.of_nat k) t ->
    pushLeafHashes h B t = joinAllSubTrees h (entry k r) t.
Proof.
  induction k as [|k IH]; intros B HB.
  - destruct B as [|b [|b' B]]; try discriminate.
    exists b. intros t _. reflexivity.
  - destruct (split_pow2 k B) as (B1 & B2 & -> & H1 & H2).
    { rewrite HB. split; [|lia]. simpl.
      assert (0 < 2 ^ k)%nat by (apply Nat.neq_0_lt_0, Nat.pow_nonzero; lia). lia. }
    assert (HB2 : length B2 = (2 ^ k)%nat).
    { rewrite length_app in HB. simpl in HB. lia. }
    destruct (IH B1 H1) as (r1 & Hr1). destruct (IH B2 HB2) as (r2 & Hr2).
    exists (nodeSum h r1 r2). intros t Ht.
    rewrite pushLeafHashes_app, Hr1 by (eapply top_ge_weaken; [|exact Ht]; lia).
    rewrite joinAll_above by (simpl; eapply top_ge_weaken; [|exact Ht]; lia).
    rewrite Hr2 by (simpl; lia).
    simpl. rewrite Z.eqb_refl. unfold joinSubTrees. simpl.
    replace (Z.of_nat k + 1) with (Z.pos (Pos.of_succ_nat k)) by lia.
    reflexivity.
Qed.

Lemma push_complete (k : nat) (B : list bytes) (t : Tree) :
  length B = (2 ^ k)%nat -> top_ge (Z.of_nat k) t ->
  pushLeafHashes h B t
  = joinAllSubTrees h (entry k (orNil (merkleRoot h B))) t.
Proof.
  intros HB Ht. destruct (push_complete_ex k B HB) as (r & Hr).
  unfold merkleRoot. rewrite (Hr New) by exact I. simpl.
  apply Hr, Ht.
Qed.

(** A non-empty run of at most [2^k] leaves contributes, to the final
    root, what a single entry holding its own root contributes. *)
Lemma push_partial_ex (k : nat) : forall B : list bytes,
  (0 < length B <= 2 ^ k)%nat ->
  exists r, forall t, top_ge (Z.of_nat k) t ->
    Root h (pushLeafHashes h B t) = Root h (entry k r :: t).
Proof.
  induction k as [|k IH]; intros B HB.
  - destruct B as [|b [|b' B]]; simpl in HB; try lia.
    exists b. intros t _. apply Root_joinAll.
  - destruct (le_lt_dec (length B) (2 ^ k)) as [Hle|Hgt].
    + destruct (IH B) as (r & Hr); [lia|].
      exists r. intros t Ht.
      rewrite Hr by (eapply top_ge_weaken; [|exact Ht]; lia). reflexivity.
    + destruct (split_pow2 k B) as (B1 & B2 & -> & H1 & H2); [lia|].
      destruct (push_complete_ex k B1 H1) as (r1 & Hr1).
      destruct (IH B2 H2) as (r2 & Hr2).
      exists (nodeSum h r1 r2). intros t Ht.
      rewrite pushLeafHashes_app, Hr1 by (eapply top_ge_weaken; [|exact Ht]; lia).
      rewrite joinAll_above by (simpl; eapply top_ge_weaken; [|exact Ht]; lia).
      rewrite Hr2 by (simpl; lia). reflexivity.
Qed.

Lemma push_partial (k : nat) (B : list bytes) (t : Tree) :
  (0 < length B <= 2 ^ k)%nat -> top_ge (Z.of_nat k) t ->
  Root h (pushLeafHashes h B t)
  = Root h (entry k (orNil (merkleRoot h B)) :: t).
Proof.
  intros HB Ht. destruct (push_partial_ex k B HB) as (r & Hr).
  unfold merkleRoot. rewrite (Hr New) by exact I. simpl.
  apply Hr, Ht.
Qed.

Lemma merkleRoot_nonempty (B : list bytes) :
  B <> [] -> exists r, merkleRoot h B = Some r.
Proof.
  intros HB.
  assert (Hlen : (0 < length B <= 2 ^ length B)%nat).
  { destruct B; [congruence|]. split; [simpl; lia|].
    apply Nat.lt_le_incl, Nat.pow_gt_lin_r. lia. }
  destruct (push_partial_ex (length B) B Hlen) as (r & Hr).
  unfold merkleRoot. rewrite (Hr New) by exact I. simpl. eauto.
Qed.

(** After any whole number of [2^k]-leaf runs the top of the stack is at
    least [k] high. *)
Lemma top_ge_multiple (k q : nat) : forall A : list bytes,
  length A = (q * 2 ^ k)%nat ->
  top_ge (Z.of_nat k) (pushLeafHashes h A New).
Proof.
  induction q as [|q IH]; intros A HA.
  - destruct A; [exact I|discriminate].
  - rewrite <- (firstn_skipn (q * 2 ^ k) A), pushLeafHashes_app.
    rewrite (push_complete k).
    + apply top_ge_joinAll. simpl. lia.
    + rewrite length_skipn. simpl in HA. lia.
    + apply IH. rewrite length_firstn. simpl in HA. lia.
Qed.

Lemma top_ge_0_push (A : list bytes) : top_ge 0 (pushLeafHashes h A New).
Proof.
  apply (top_ge_multiple 0 (length A)). simpl. lia.
Qed.

End Chunks.

(** ** Streams cut into leaves *)

Lemma ReadFull_empty (n : nat) :
  (0 < n)%nat -> ReadFull [] n = ([], Some EOF, []).
Proof.
  intros Hn. unfold ReadFull. rewrite firstn_nil, skipn_nil. simpl.
  destruct n; [lia|reflexivity].
Qed.

Lemma ReadFull_whole (r : bytes) (n : nat) :
  (n <= length r)%nat -> ReadFull r n = (firstn n r, None, skipn n r).
Proof.
  intros Hn. unfold ReadFull.
  rewrite length_firstn, Nat.min_l, Nat.eqb_refl by exact Hn. reflexivity.
Qed.

Lemma ReadFull_short (r : bytes) (n : nat) :
  (0 < length r < n)%nat -> ReadFull r n = (r, Some ErrUnexpectedEOF, []).
Proof.
  intros Hn. unfold ReadFull.
  rewrite firstn_all2, skipn_all2 by lia.
  destruct (Nat.eqb_spec (length r) n); [lia|].
  destruct r; [simpl in Hn; lia|reflexivity].
Qed.

Lemma chunks_fuel (ls : nat) : (0 < ls)%nat ->
  forall (f f' : nat) (r : bytes),
    (length r <= f)%nat -> (length r <= f')%nat ->
    chunks f ls r = chunks f' ls r.
Proof.
  intros Hls. induction f as [|f IH]; intros f' r Hf Hf'.
  - destruct r; [|simpl in Hf; lia]. destruct f'; reflexivity.
  - destruct r as [|b r]; [destruct f'; reflexivity|].
    destruct f' as [|f']; [simpl in Hf'; lia|].
    cbn [chunks]. f_equal.
    cbn [length] in Hf, Hf'.
    apply IH; rewrite length_skipn; cbn [length]; lia.
Qed.

Lemma leavesOf_nil (ls : nat) : leavesOf ls [] = [].
Proof. destruct ls; reflexivity. Qed.

Lemma leavesOf_cons (ls : nat) (r : bytes) :
  (0 < ls)%nat -> r <> [] ->
  leavesOf ls r = firstn ls r :: leavesOf ls (skipn ls r).
Proof.
  intros Hls Hr. unfold leavesOf.
  destruct ls as [|m]; [lia|].
  destruct r as [|b r]; [congruence|].
  cbn [length chunks]. f_equal.
  apply chunks_fuel; [lia| |lia].
  rewrite length_skipn. cbn [length]. lia.
Qed.

(** ** What a leaf hasher yields *)


Lemma cached_drains (hashes : list bytes) :
  drains (NewCachedLeafHasher hashes) hashes None.
Proof.
  induction hashes as [|x xs IH].
  - eapply drains_eof. reflexivity.
  - eapply drains_next; [reflexivity|exact IH].
Qed.

Lemma rlh_next_empty (hl : Hash) (ls : nat) :
  rlh_NextLeafHash (mkRLH [] hl ls) = ([], Some EOF, mkRLH [] hl ls).
Proof.
  unfold rlh_NextLeafHash, ReadFull. cbn [rlh_r rlh_leaf rlh_h].
  rewrite firstn_nil, skipn_nil. destruct ls; reflexivity.
Qed.

Lemma rlh_next_zero (hl : Hash) (r : bytes) :
  rlh_NextLeafHash (mkRLH r hl 0) = ([], Some EOF, mkRLH r hl 0).
Proof. reflexivity. Qed.

Lemma rlh_next_whole (hl : Hash) (ls : nat) (r : bytes) :
  (0 < ls <= length r)%nat ->
  rlh_NextLeafHash (mkRLH r hl ls)
  = (leafSum hl (firstn ls r), None, mkRLH (skipn ls r) hl ls).
Proof.
  intros Hls. unfold rlh_NextLeafHash. cbn [rlh_r rlh_leaf rlh_h].
  rewrite ReadFull_whole by lia.
  destruct r as [|b r]; [simpl in Hls; lia|].
  destruct ls as [|m]; [lia|]. reflexivity.
Qed.

Lemma rlh_next_short (hl : Hash) (ls : nat) (r : bytes) :
  (0 < length r < ls)%nat ->
  rlh_NextLeafHash (mkRLH r hl ls) = (leafSum hl r, None, mkRLH [] hl ls).
Proof.
  intros Hls. unfold rlh_NextLeafHash. cbn [rlh_r rlh_leaf rlh_h].
  rewrite ReadFull_short by lia.
  destruct r as [|b r]; [simpl in Hls; lia|]. reflexivity.
Qed.

Lemma reader_drains (hl : Hash) (ls : nat) (r : bytes) :
  drains (NewReaderLeafHasher r hl ls) (map (leafSum hl) (leavesOf ls r)) None.
Proof.
  unfold NewReaderLeafHasher.
  destruct ls as [|m].
  - eapply drains_eof. apply rlh_next_zero.
  - remember (length r) as n eqn:Hn.
    revert r Hn. induction n as [n IH] using lt_wf_ind. intros r Hn.
    destruct r as [|b r].
    + eapply drains_eof. apply rlh_next_empty.
    + rewrite leavesOf_cons by (lia || congruence).
      cbn [map].
      destruct (le_lt_dec (S m) (length (b :: r))) as [Hle|Hlt].
      * eapply drains_next; [apply rlh_next_whole; lia|].
        apply (IH (length (skipn (S m) (b :: r)))); [|reflexivity].
        rewrite length_skipn. cbn [length] in *. lia.
      * rewrite firstn_all2, skipn_all2, leavesOf_nil by lia.
        eapply drains_next; [apply rlh_next_short; cbn [length] in *; lia|].
        eapply drains_eof. apply rlh_next_empty.
Qed.

Lemma length_leavesOf (ls : nat) (r : bytes) :
  (length (leavesOf ls r) <= length r)%nat.
Proof.
  unfold leavesOf. destruct ls as [|m]; [simpl; lia|].
  generalize (length r) at 1 as f. intros f. revert r.
  induction f as [|f IH]; intros r; [simpl; lia|].
  destruct r as [|b r]; [simpl; lia|].
  cbn [chunks length].
  specialize (IH (skipn (S m) (b :: r))).
  rewrite length_skipn in IH. simpl in IH. simpl. lia.
Qed.

(** ** Verification never panics *)

Section VerifyTotal.
Context {L : Type} `{LeafHasher L}.
Variable h : Hash.

Lemma verifyPrefix_total (proofStart : Z) (k : nat) :
  forall (proof : list bytes) (tree : Tree),
    top_ge (Z.of_nat k) tree ->
    exists tree' proof',
      verifyPrefix h (down k) proofStart proof tree = Done (tree', proof')
      /\ top_ge 0 tree'.
Proof.
  induction k as [|k IH]; intros proof tree Ht.
  - exists tree, proof. split; [destruct proof; reflexivity|exact Ht].
  - rewrite down_S. destruct proof as [|p0 ps].
    + exists tree, []. split; [reflexivity|].
      eapply top_ge_weaken; [|exact Ht]. lia.
    + cbn [verifyPrefix].
      destruct (Z.land proofStart (shl1 (Z.of_nat k)) =? 0).
      * apply IH. eapply top_ge_weaken; [|exact Ht]. lia.
      * rewrite PushSubTree_ok by (eapply top_ge_weaken; [|exact Ht]; lia).
        rewrite joinAll_above
          by (simpl; eapply top_ge_weaken; [|exact Ht]; lia).
        apply IH. simpl. lia.
Qed.

Lemma verifyLeaves_drains (lh : L) (xs : list bytes) (r : option error) :
  drains lh xs r ->
  forall (fuel : nat) (tree : Tree),
    top_ge 0 tree -> (length xs < fuel)%nat ->
    verifyLeaves h fuel lh tree = Some (Done (pushLeafHashes h xs tree, r)).
Proof.
  induction 1 as [lh lh' x Hx|lh lh' x e Hx He|lh lh' x xs r Hx _ IH];
    intros fuel tree Ht Hfuel;
    (destruct fuel as [|fuel]; [simpl in Hfuel; lia|]);
    cbn [verifyLeaves]; rewrite Hx.
  - reflexivity.
  - destruct e; [congruence|reflexivity..].
  - rewrite PushSubTree_ok by exact Ht.
    rewrite IH; [reflexivity| |simpl in Hfuel; lia].
    apply top_ge_joinAll. simpl. lia.
Qed.

Lemma VerifyRangeProof_total (lh : L) (xs : list bytes) (r : option error)
    (fuel : nat) (proofStart proofEnd : Z) (proof : list bytes) (root : bytes) :
  drains lh xs r -> (length xs < fuel)%nat ->
  illegalRange proofStart proofEnd = false ->
  exists (b : bool) (err : option error),
    VerifyRangeProof h fuel lh proofStart proofEnd proof root
    = Some (Done (b, err))
    /\ (err <> None -> b = false).
Proof.
  intros Hd Hfuel Hr. unfold VerifyRangeProof. rewrite Hr.
  destruct (verifyPrefix_total proofStart 64 proof New I)
    as (tree1 & proof1 & Hp & Ht1).
  rewrite bitsDown_down, Hp.
  rewrite (verifyLeaves_drains _ _ _ Hd fuel _ Ht1 Hfuel).
  destruct r as [e|].
  - exists false, (Some e). split; [reflexivity|reflexivity].
  - destruct (verifySuffix h bitsUp (proofEnd - 1) proof1
                (pushLeafHashes h xs tree1)) as [tree3 [e|]].
    + exists false, (Some e). split; reflexivity.
    + eexists _, None. split; [reflexivity|congruence].
Qed.
End VerifyTotal.

Lemma illegalRange_false (s e : Z) : illegalRange s e = false <-> 0 <= s < e.
Proof. unfold illegalRange. lia. Qed.

Lemma illegalRange_true (s e : Z) : illegalRange s e = true <-> s < 0 \/ s >= e.
Proof. unfold illegalRange. lia. Qed.

(** ** The two cursors are faithful *)

Lemma skipn_skipn_add {A : Type} (x y : nat) (l : list A) :
  skipn x (skipn y l) = skipn (y + x) l.
Proof.
  revert l. induction y as [|y IH]; intros l; [reflexivity|].
  destruct l as [|a l]; [now rewrite !skipn_nil|]. simpl. apply IH.
Qed.

Lemma firstn_add {A : Type} (x y : nat) (l : list A) :
  firstn (x + y) l = firstn x l ++ firstn y (skipn x l).
Proof.
  revert l. induction x as [|x IH]; intros l; [reflexivity|].
  destruct l as [|a l]; [now rewrite !firstn_nil|]. simpl. f_equal. apply IH.
Qed.

Lemma pow2_nat (k : nat) : Z.of_nat (2 ^ k) = 2 ^ Z.of_nat k.
Proof.
  induction k as [|k IH]; [reflexivity|].
  rewrite Nat2Z.inj_succ, Z.pow_succ_r by lia.
  rewrite Nat.pow_succ_r', Nat2Z.inj_mul, IH. reflexivity.
Qed.

Lemma pow2_to_nat (k : nat) : Z.to_nat (2 ^ Z.of_nat k) = (2 ^ k)%nat.
Proof. rewrite <- pow2_nat. apply Nat2Z.id. Qed.

Section CachedFaithful.
Variable h : Hash.

Lemma csh_loop_spec (hashes : list bytes) : forall (i n : Z) (tree : Tree),
  top_ge 0 tree ->
  csh_loop h i n hashes tree
  = (pushLeafHashes h (firstn (Z.to_nat (n - i)) hashes) tree, None,
     skipn (Z.to_nat (n - i)) hashes).
Proof.
  induction hashes as [|x xs IH]; intros i n tree Ht.
  - simpl. rewrite firstn_nil, skipn_nil. reflexivity.
  - cbn [csh_loop]. destruct (Z.ltb_spec i n) as [Hlt|Hge].
    + rewrite PushSubTree_ok by exact Ht.
      rewrite IH by (apply top_ge_joinAll; simpl; lia).
      replace (Z.to_nat (n - i)) with (Datatypes.S (Z.to_nat (n - (i + 1)))) by lia.
      reflexivity.
    + replace (Z.to_nat (n - i)) with 0%nat by lia. reflexivity.
Qed.

Lemma cached_faithful : FaithfulHasher h (cached_repr h).
Proof.
  split.
  - intros n s ->. eexists. split; reflexivity.
  - intros n s R -> HR Hn.
    eexists. split; [|reflexivity].
    unfold NextSubtreeRoot; cbn [CachedSubtreeHasher_SubtreeHasher].
    unfold csh_NextSubtreeRoot. cbn [csh_leafHashes csh_h].
    destruct R as [|x xs]; [congruence|].
    rewrite csh_loop_spec by exact I. rewrite Z.sub_0_r. reflexivity.
  - intros n s R -> Hn.
    eexists. split; [|reflexivity].
    unfold Skip; cbn [CachedSubtreeHasher_SubtreeHasher].
    unfold csh_Skip. cbn [csh_leafHashes csh_h].
    destruct (Z.gtb_spec n (Z.of_nat (length R))); [lia|].
    destruct (Z.ltb_spec n 0); [lia|]. reflexivity.
Qed.
End CachedFaithful.

Section ReaderFaithful.
Variable h : Hash.
Variable ls : nat.
Hypothesis ls_pos : (0 < ls)%nat.

Lemma uniform_concat_length (leaves : list bytes) :
  Forall (fun l => length l = ls) leaves ->
  length (concat leaves) = (length leaves * ls)%nat.
Proof.
  induction 1 as [|l leaves Hl _ IH]; [reflexivity|].
  simpl. rewrite length_app, Hl, IH. reflexivity.
Qed.

Lemma uniform_firstn (leaves : list bytes) (n : nat) :
  Forall (fun l => length l = ls) leaves ->
  firstn (n * ls) (concat leaves) = concat (firstn n leaves).
Proof.
  intros Hall. revert n. induction Hall as [|l leaves Hl _ IH]; intros n.
  - rewrite !firstn_nil. reflexivity.
  - destruct n as [|n]; [reflexivity|].
    cbn [concat firstn]. simpl Nat.mul.
    rewrite firstn_app, Hl.
    rewrite firstn_all2 by lia.
    replace (ls + n * ls - ls)%nat with (n * ls)%nat by lia.
    rewrite IH. reflexivity.
Qed.

Lemma uniform_skipn (leaves : list bytes) (n : nat) :
  Forall (fun l => length l = ls) leaves ->
  skipn (n * ls) (concat leaves) = concat (skipn n leaves).
Proof.
  intros Hall. revert n. induction Hall as [|l leaves Hl _ IH]; intros n.
  - rewrite !skipn_nil. reflexivity.
  - destruct n as [|n]; [reflexivity|].
    cbn [concat skipn]. simpl Nat.mul.
    rewrite skipn_app, Hl.
    rewrite skipn_all2 by lia.
    replace (ls + n * ls - ls)%nat with (n * ls)%nat by lia.
    rewrite IH. reflexivity.
Qed.

Lemma Forall_skipn' (leaves : list bytes) (n : nat) :
  Forall (fun l => length l = ls) leaves ->
  Forall (fun l => length l = ls) (skipn n leaves).
Proof.
  intros Hall. revert n. induction Hall; intros [|n]; simpl; auto.
Qed.

Lemma Forall_firstn' (leaves : list bytes) (n : nat) :
  Forall (fun l => length l = ls) leaves ->
  Forall (fun l => length l = ls) (firstn n leaves).
Proof.
  intros Hall. revert n. induction Hall; intros [|n]; simpl; auto.
Qed.

Lemma leavesOf_concat (leaves : list bytes) :
  Forall (fun l => length l = ls) leaves ->
  leavesOf ls (concat leaves) = leaves.
Proof.
  induction 1 as [|l leaves Hl Hall IH]; [apply leavesOf_nil|].
  cbn [concat].
  rewrite leavesOf_cons; [|exact ls_pos|].
  - rewrite firstn_app, Hl, Nat.sub_diag, firstn_all2, app_nil_r by lia.
    rewrite skipn_app, Hl, Nat.sub_diag, skipn_all2 by lia.
    simpl. rewrite IH. reflexivity.
  - destruct l; [simpl in Hl; lia|discriminate].
Qed.

Lemma rsh_loop_spec (leaves : list bytes) :
  Forall (fun l => length l = ls) leaves ->
  forall (fuel : nat) (i n : Z) (tree : Tree),
    (length leaves < fuel)%nat ->
    rsh_loop fuel h ls i n (concat leaves) tree
    = (pushLeafHashes h (map (leafSum h) (firstn (Z.to_nat (n - i)) leaves)) tree,
       concat (skipn (Z.to_nat (n - i)) leaves)).
Proof.
  induction 1 as [|l leaves Hl Hall IH]; intros fuel i n tree Hfuel;
    (destruct fuel as [|fuel]; [simpl in Hfuel; lia|]); cbn [rsh_loop].
  - rewrite firstn_nil, skipn_nil. cbn [concat].
    rewrite ReadFull_empty by exact ls_pos.
    destruct (i <? n); reflexivity.
  - destruct (Z.ltb_spec i n) as [Hlt|Hge].
    + cbn [concat]. rewrite ReadFull_whole by (rewrite length_app; lia).
      rewrite firstn_app, Hl, Nat.sub_diag, firstn_all2, app_nil_r by lia.
      rewrite skipn_app, Hl, Nat.sub_diag, skipn_all2 by lia.
      cbn [skipn app].
      rewrite IH by (simpl in Hfuel; lia).
      replace (Z.to_nat (n - i)) with (Datatypes.S (Z.to_nat (n - (i + 1)))) by lia.
      destruct l as [|b l]; [simpl in Hl; lia|]. reflexivity.
    + replace (Z.to_nat (n - i)) with 0%nat by lia. reflexivity.
Qed.

Lemma uniform_length_le (leaves : list bytes) :
  Forall (fun l => length l = ls) leaves ->
  (length leaves <= length (concat leaves))%nat.
Proof.
  intros Hall. rewrite uniform_concat_length by exact Hall. nia.
Qed.

Lemma uniform_skipn_bound (leaves : list bytes) (n : nat) :
  Forall (fun l => length l = ls) leaves ->
  (length (concat (skipn n leaves)) <= length (concat leaves))%nat.
Proof.
  intros Hall.
  rewrite !uniform_concat_length by auto using Forall_skipn'.
  rewrite length_skipn. apply Nat.mul_le_mono_r. lia.
Qed.

Lemma reader_faithful : FaithfulHasher h (reader_repr h ls).
Proof.
  split.
  - intros n s (leaves & -> & Hall & HR & _ & Hmax).
    destruct leaves; [|discriminate].
    unfold NextSubtreeRoot; cbn [ReaderSubtreeHasher_SubtreeHasher].
    unfold rsh_NextSubtreeRoot. cbn [rsh_r rsh_h rsh_leaf].
    rewrite (rsh_loop_spec _ Hall) by (simpl; lia).
    rewrite firstn_nil, skipn_nil. simpl.
    eexists. split; [reflexivity|].
    exists []. repeat split; auto.
  - intros n s R (leaves & -> & Hall & -> & _ & Hmax) HR Hn.
    unfold NextSubtreeRoot; cbn [ReaderSubtreeHasher_SubtreeHasher].
    unfold rsh_NextSubtreeRoot. cbn [rsh_r rsh_h rsh_leaf].
    rewrite (rsh_loop_spec _ Hall)
      by (pose proof (uniform_length_le _ Hall); lia).
    rewrite Z.sub_0_r.
    destruct (merkleRoot_nonempty h (firstn (Z.to_nat n) (map (leafSum h) leaves)))
      as (r & Hr).
    { destruct leaves; [simpl in HR; congruence|].
      replace (Z.to_nat n) with (Datatypes.S (Z.to_nat (n - 1))) by lia.
      discriminate. }
    rewrite <- firstn_map. unfold merkleRoot in Hr |- *.
    exists {| rsh_r := concat (skipn (Z.to_nat n) leaves);
              rsh_h := h; rsh_leaf := ls |}.
    split; [rewrite Hr; reflexivity|].
    exists (skipn (Z.to_nat n) leaves).
    repeat split; auto using Forall_skipn'.
    + rewrite skipn_map. reflexivity.
    + pose proof (uniform_skipn_bound _ (Z.to_nat n) Hall). lia.
  - intros n s R (leaves & -> & Hall & -> & _ & Hmax) Hn.
    rewrite length_map in Hn.
    unfold Skip; cbn [ReaderSubtreeHasher_SubtreeHasher].
    unfold rsh_Skip. cbn [rsh_r rsh_h rsh_leaf].
    pose proof (uniform_concat_length _ Hall) as Hlen.
    unfold maxInt in Hmax.
    assert (Hfit : 0 <= Z.of_nat ls * n <= Z.of_nat (length (concat leaves))).
    { rewrite Hlen. nia. }
    rewrite wrap64_small by lia.
    unfold CopyN. destruct (Z.ltb_spec (Z.of_nat ls * n) 0); [lia|].
    replace (Z.to_nat (Z.of_nat ls * n)) with (Z.to_nat n * ls)%nat by nia.
    rewrite length_firstn, Nat.min_l by nia.
    destruct (Z.eqb_spec (Z.of_nat (Z.to_nat n * ls)) (Z.of_nat ls * n)); [|nia].
    rewrite uniform_skipn by exact Hall.
    eexists. split; [reflexivity|].
    exists (skipn (Z.to_nat n) leaves).
    repeat split; auto using Forall_skipn'.
    + rewrite skipn_map. reflexivity.
    + pose proof (uniform_skipn_bound _ (Z.to_nat n) Hall). unfold maxInt. lia.
Qed.
End ReaderFaithful.

(** ** What [BuildRangeProof] returns over a faithful cursor *)

Lemma mod_pow2_succ (s : Z) (k : nat) :
  s mod 2 ^ Z.of_nat (Datatypes.S k)
  = (if Z.testbit s (Z.of_nat k) then 2 ^ Z.of_nat k else 0)
    + s mod 2 ^ Z.of_nat k.
Proof.
  rewrite Nat2Z.inj_succ, Z.pow_succ_r by lia.
  assert (Hp : 0 < 2 ^ Z.of_nat k) by (apply Z.pow_pos_nonneg; lia).
  rewrite (Z.mul_comm 2), Z.rem_mul_r by lia.
  rewrite <- Z.testbit_spec' by lia.
  destruct (Z.testbit s (Z.of_nat k)); simpl Z.b2z; lia.
Qed.

Lemma mod_pow2_bounds (s : Z) (k : nat) : 0 <= s mod 2 ^ Z.of_nat k < 2 ^ Z.of_nat k.
Proof. apply Z.mod_pos_bound, Z.pow_pos_nonneg; lia. Qed.

Lemma testbit_true_lt_63 (m : Z) (k : nat) :
  0 <= m < 2 ^ 63 -> Z.testbit m (Z.of_nat k) = true -> (k < 63)%nat.
Proof.
  intros Hm Hb. destruct (le_lt_dec 63 k) as [Hle|]; [|assumption].
  rewrite testbit_high in Hb; [discriminate| |lia].
  split; [lia|]. apply Z.lt_le_trans with (2 ^ 63); [lia|].
  apply Z.pow_le_mono_r; lia.
Qed.

Lemma prefixHashes_nil (h : Hash) (s : Z) (k : nat) : forall R : list bytes,
  prefixHashes h k s R = [] -> s mod 2 ^ Z.of_nat k = 0.
Proof.
  induction k as [|k IH]; intros R HR.
  - simpl. apply Z.mod_1_r.
  - rewrite mod_pow2_succ. cbn [prefixHashes] in HR.
    destruct (Z.testbit s (Z.of_nat k)); [discriminate|].
    rewrite (IH R HR). reflexivity.
Qed.

Lemma suffixHashes_nil (h : Hash) (m : Z) (n : nat) : forall a : nat,
  suffixHashes h a n m [] = [].
Proof.
  induction n as [|n IH]; intros a; [reflexivity|].
  cbn [suffixHashes]. destruct (Z.testbit m (Z.of_nat a)); [apply IH|reflexivity].
Qed.

Lemma reach_0 (m : Z) : reach m 0 = m + 1.
Proof. unfold reach. simpl. rewrite Z.div_1_r. lia. Qed.

Lemma reach_succ (m : Z) (a : nat) :
  reach m (Datatypes.S a)
  = reach m a + (if Z.testbit m (Z.of_nat a) then 0 else 2 ^ Z.of_nat a).
Proof.
  unfold reach.
  rewrite Nat2Z.inj_succ, Z.pow_succ_r by lia.
  assert (Hp : 0 < 2 ^ Z.of_nat a) by (apply Z.pow_pos_nonneg; lia).
  rewrite (Z.mul_comm 2), <- Z.div_div by lia.
  pose proof (Z.testbit_spec' m (Z.of_nat a) ltac:(lia)) as Hb.
  pose proof (Z.div_mod (m / 2 ^ Z.of_nat a) 2 ltac:(lia)) as Hd.
  destruct (Z.testbit m (Z.of_nat a)); simpl Z.b2z in Hb; nia.
Qed.

Lemma reach_ge (m : Z) (a : nat) : 0 <= m -> 2 ^ Z.of_nat a <= reach m a.
Proof.
  intros Hm. unfold reach.
  assert (Hp : 0 < 2 ^ Z.of_nat a) by (apply Z.pow_pos_nonneg; lia).
  assert (0 <= m / 2 ^ Z.of_nat a) by (apply Z.div_pos; lia). nia.
Qed.

Section BuildSpec.
Context {S : Type} `{SubtreeHasher S}.
Variable h : Hash.
Variable repr : S -> list bytes -> Prop.
Hypothesis faithful : FaithfulHasher h repr.

Lemma buildPrefix_spec (s : Z) (Hs : 0 <= s < 2 ^ 63) (k : nat) :
  (k <= 64)%nat ->
  forall (st : S) (R acc : list bytes),
    repr st R ->
    s mod 2 ^ Z.of_nat k <= Z.of_nat (length R) ->
    exists st',
      buildPrefix (down k) s st acc
      = Done (acc ++ prefixHashes h k s R, None, st')
      /\ repr st' (skipn (Z.to_nat (s mod 2 ^ Z.of_nat k)) R).
Proof.
  induction k as [|k IH]; intros Hk st R acc Hrepr Hlen.
  - exists st. simpl. rewrite app_nil_r, Z.mod_1_r. split; [reflexivity|exact Hrepr].
  - rewrite down_S. cbn [buildPrefix prefixHashes].
    rewrite land_shl1_testbit by lia.
    rewrite mod_pow2_succ in Hlen |- *.
    pose proof (mod_pow2_bounds s k) as Hb.
    destruct (Z.testbit s (Z.of_nat k)) eqn:Hbit; cbn [negb].
    + pose proof (testbit_true_lt_63 s k Hs Hbit) as Hk63.
      rewrite shl1_small by lia.
      assert (Hp : 0 < 2 ^ Z.of_nat k) by (apply Z.pow_pos_nonneg; lia).
      destruct (faithful_next h repr faithful (2 ^ Z.of_nat k) st R Hrepr)
        as (st1 & Hnext & Hrepr1).
      { destruct R; [simpl in Hlen; lia|discriminate]. }
      { exact Hp. }
      rewrite Hnext. rewrite pow2_to_nat in *.
      destruct (IH ltac:(lia) st1 (skipn (2 ^ k) R)
                  (acc ++ [orNil (merkleRoot h (firstn (2 ^ k) R))]) Hrepr1)
        as (st' & Hbuild & Hrepr').
      { rewrite length_skipn, Nat2Z.inj_sub, pow2_nat; [lia|].
        apply Nat2Z.inj_le. rewrite pow2_nat. lia. }
      exists st'. rewrite Hbuild, <- app_assoc. split; [reflexivity|].
      rewrite skipn_skipn_add in Hrepr'.
      replace (Z.to_nat (2 ^ Z.of_nat k + s mod 2 ^ Z.of_nat k))
        with (2 ^ k + Z.to_nat (s mod 2 ^ Z.of_nat k))%nat
        by (rewrite Z2Nat.inj_add, pow2_to_nat; lia).
      exact Hrepr'.
    + rewrite Z.add_0_l in *. apply IH; [lia|exact Hrepr|exact Hlen].
Qed.

Lemma buildSuffix_spec (m : Z) (Hm : 0 <= m < 2 ^ 63) (n : nat) :
  forall (a : nat) (st : S) (R acc : list bytes),
    (a + n <= 64)%nat ->
    repr st R ->
    (R = [] \/ reach m a + Z.of_nat (length R) < 2 ^ 63) ->
    exists st',
      buildSuffix (up a n) m st acc
      = Done (acc ++ suffixHashes h a n m R, None, st').
Proof.
  induction n as [|n IH]; intros a st R acc Han Hrepr Hinv.
  - exists st. simpl. rewrite app_nil_r. reflexivity.
  - unfold up. cbn [seq map buildSuffix suffixHashes]. fold (up (Datatypes.S a) n).
    rewrite land_shl1_testbit by lia.
    destruct (Z.testbit m (Z.of_nat a)) eqn:Hbit; cbn [negb].
    + apply IH; [lia|exact Hrepr|].
      rewrite reach_succ, Hbit, Z.add_0_r. exact Hinv.
    + destruct R as [|x R'].
      * destruct (faithful_eof h repr faithful (shl1 (Z.of_nat a)) st Hrepr)
          as (st1 & Hnext & _).
        rewrite Hnext. exists st1. rewrite app_nil_r. reflexivity.
      * destruct Hinv as [Hnil|Hinv]; [discriminate|].
        pose proof (reach_ge m a (proj1 Hm)) as Hge.
        assert (Ha63 : (a < 63)%nat).
        { destruct (le_lt_dec 63 a) as [Hle|]; [|assumption].
          assert (2 ^ 63 <= 2 ^ Z.of_nat a) by (apply Z.pow_le_mono_r; lia).
          lia. }
        rewrite shl1_small by lia.
        assert (Hp : 0 < 2 ^ Z.of_nat a) by (apply Z.pow_pos_nonneg; lia).
        destruct (faithful_next h repr faithful (2 ^ Z.of_nat a) st (x :: R') Hrepr)
          as (st1 & Hnext & Hrepr1); [discriminate|exact Hp|].
        rewrite Hnext. rewrite pow2_to_nat in *.
        destruct (IH (Datatypes.S a) st1 (skipn (2 ^ a) (x :: R'))
                    (acc ++ [orNil (merkleRoot h (firstn (2 ^ a) (x :: R')))])
                    ltac:(lia) Hrepr1)
          as (st' & Hbuild).
        { destruct (skipn (2 ^ a) (x :: R')) eqn:Hsk; [left; reflexivity|right].
          rewrite <- Hsk, reach_succ, Hbit.
          assert ((2 ^ a < length (x :: R'))%nat).
          { destruct (le_lt_dec (length (x :: R')) (2 ^ a)) as [Hle|]; [|assumption].
            rewrite skipn_all2 in Hsk by exact Hle. discriminate. }
          rewrite length_skipn, Nat2Z.inj_sub, pow2_nat by lia. lia. }
        exists st'. rewrite Hbuild, <- app_assoc. reflexivity.
Qed.

(** Over a faithful cursor standing before the [N < 2^63] leaf hashes
    [leafHashes], a range inside the tree yields [rangeProof] and no error. *)
Lemma BuildRangeProof_spec (st : S) (leafHashes : list bytes) (s e : Z) :
  repr st leafHashes ->
  Z.of_nat (length leafHashes) < 2 ^ 63 ->
  0 <= s < e -> e <= Z.of_nat (length leafHashes) ->
  exists st',
    BuildRangeProof s e st = Done (rangeProof h leafHashes s e, None, st').
Proof.
  intros Hrepr HN Hse HeN.
  unfold BuildRangeProof.
  rewrite (proj2 (illegalRange_false s e)) by exact Hse.
  rewrite bitsDown_down, bitsUp_up.
  assert (Hs : 0 <= s < 2 ^ 63) by lia.
  assert (Hmod : s mod 2 ^ Z.of_nat 64 = s) by (apply Z.mod_small; simpl; lia).
  destruct (buildPrefix_spec s Hs 64 ltac:(lia) st leafHashes [] Hrepr)
    as (st1 & Hpre & Hrepr1); [lia|].
  rewrite Hpre. cbn [app]. rewrite Hmod in Hrepr1.
  destruct (faithful_skip h repr faithful (e - s) st1 _ Hrepr1) as (st2 & Hskip & Hrepr2).
  { rewrite length_skipn. lia. }
  rewrite Hskip.
  rewrite skipn_skipn_add in Hrepr2.
  replace (Z.to_nat s + Z.to_nat (e - s))%nat with (Z.to_nat e) in Hrepr2 by lia.
  destruct (buildSuffix_spec (e - 1) ltac:(lia) 64 0 st2 _
              (prefixHashes h 64 s leafHashes) ltac:(lia) Hrepr2)
    as (st3 & Hsuf).
  { right. rewrite reach_0, length_skipn. lia. }
  exists st3. rewrite Hsuf. unfold rangeProof. reflexivity.
Qed.
End BuildSpec.

(** ** What [VerifyRangeProof] rebuilds from [rangeProof] *)

Lemma bytes_eqb_refl (a : bytes) : bytes_eqb a a = true.
Proof. unfold bytes_eqb. destruct (list_eq_dec byte_eq_dec a a); congruence. Qed.

Lemma bytes_eqb_eq (a b : bytes) : bytes_eqb a b = true <-> a = b.
Proof.
  unfold bytes_eqb. destruct (list_eq_dec byte_eq_dec a b); split; congruence.
Qed.

Section VerifySpec.
Variable h : Hash.

Lemma verifyPrefix_nil (bits : list Z) (s : Z) (tree : Tree) :
  verifyPrefix h bits s [] tree = Done (tree, []).
Proof. destruct bits; reflexivity. Qed.

Lemma verifyPrefix_skip (i : Z) (bits : list Z) (s : Z) (proof : list bytes)
    (tree : Tree) :
  (Z.land s (shl1 i) =? 0) = true ->
  verifyPrefix h (i :: bits) s proof tree = verifyPrefix h bits s proof tree.
Proof.
  intros Hz. destruct proof as [|p0 ps].
  - rewrite !verifyPrefix_nil. reflexivity.
  - cbn [verifyPrefix]. rewrite Hz. reflexivity.
Qed.

Lemma verifySuffix_nil (bits : list Z) (m : Z) (tree : Tree) :
  verifySuffix h bits m [] tree = (tree, None).
Proof. destruct bits; reflexivity. Qed.

Lemma verifySuffix_skip (i : Z) (bits : list Z) (m : Z) (proof : list bytes)
    (tree : Tree) :
  (Z.land m (shl1 i) =? 0) = false ->
  verifySuffix h (i :: bits) m proof tree = verifySuffix h bits m proof tree.
Proof.
  intros Hz. destruct proof as [|p0 ps].
  - rewrite !verifySuffix_nil. reflexivity.
  - cbn [verifySuffix]. rewrite Hz. reflexivity.
Qed.

Lemma verifyPrefix_spec (s : Z) (Hs : 0 <= s < 2 ^ 63) (k : nat) :
  (k <= 64)%nat ->
  forall (A R rest : list bytes) (q : nat),
    length A = (q * 2 ^ k)%nat ->
    s mod 2 ^ Z.of_nat k <= Z.of_nat (length R) ->
    verifyPrefix h (down k) s (prefixHashes h k s R ++ rest)
                 (pushLeafHashes h A New)
    = Done (pushLeafHashes h
              (A ++ firstn (Z.to_nat (s mod 2 ^ Z.of_nat k)) R) New, rest).
Proof.
  induction k as [|k IH]; intros Hk A R rest q HA Hlen.
  - simpl. rewrite Z.mod_1_r. simpl. rewrite app_nil_r.
    destruct rest; reflexivity.
  - rewrite down_S. cbn [prefixHashes].
    rewrite mod_pow2_succ in Hlen |- *.
    pose proof (mod_pow2_bounds s k) as Hb.
    assert (HA2 : length A = (2 * q * 2 ^ k)%nat).
    { rewrite HA, Nat.pow_succ_r'. lia. }
    destruct (Z.testbit s (Z.of_nat k)) eqn:Hbit.
    + pose proof (testbit_true_lt_63 s k Hs Hbit) as Hk63.
      assert (Hp : 0 < 2 ^ Z.of_nat k) by (apply Z.pow_pos_nonneg; lia).
      assert (HR : (2 ^ k <= length R)%nat).
      { apply Nat2Z.inj_le. rewrite pow2_nat. lia. }
      cbn [app verifyPrefix].
      rewrite land_shl1_testbit, Hbit by lia. cbn [negb].
      pose proof (top_ge_multiple h k (2 * q) A HA2) as Htop.
      rewrite PushSubTree_ok by exact Htop.
      rewrite <- (push_complete h k)
        by (try exact Htop; rewrite length_firstn; lia).
      rewrite <- pushLeafHashes_app.
      rewrite (IH ltac:(lia) (A ++ firstn (2 ^ k) R) (skipn (2 ^ k) R) rest
                 (2 * q + 1)%nat).
      * rewrite <- app_assoc, <- firstn_add.
        replace (Z.to_nat (2 ^ Z.of_nat k + s mod 2 ^ Z.of_nat k))
          with (2 ^ k + Z.to_nat (s mod 2 ^ Z.of_nat k))%nat
          by (rewrite Z2Nat.inj_add, pow2_to_nat; lia).
        reflexivity.
      * rewrite length_app, length_firstn, HA2. lia.
      * rewrite length_skipn, Nat2Z.inj_sub, pow2_nat by lia. lia.
    + rewrite verifyPrefix_skip
        by (rewrite land_shl1_testbit, Hbit by lia; reflexivity).
      rewrite Z.add_0_l in *.
      apply (IH ltac:(lia) A R rest (2 * q)%nat HA2 Hlen).
Qed.

Lemma reach_multiple (m : Z) (a : nat) (A : list bytes) :
  0 <= m -> Z.of_nat (length A) = reach m a ->
  exists q : nat, length A = (q * 2 ^ a)%nat.
Proof.
  intros Hm HA. exists (Z.to_nat (m / 2 ^ Z.of_nat a + 1)).
  assert (Hp : 0 < 2 ^ Z.of_nat a) by (apply Z.pow_pos_nonneg; lia).
  assert (0 <= m / 2 ^ Z.of_nat a) by (apply Z.div_pos; lia).
  apply Nat2Z.inj. rewrite HA, Nat2Z.inj_mul, pow2_nat, Z2Nat.id by lia.
  reflexivity.
Qed.

Lemma verifySuffix_spec (m : Z) (Hm : 0 <= m < 2 ^ 63) (n : nat) :
  forall (a : nat) (A R : list bytes),
    (a + n <= 64)%nat ->
    Z.of_nat (length A) = reach m a ->
    Z.of_nat (length A + length R) <= reach m (a + n) ->
    exists t',
      verifySuffix h (up a n) m (suffixHashes h a n m R)
                   (pushLeafHashes h A New) = (t', None)
      /\ Root h t' = merkleRoot h (A ++ R).
Proof.
  induction n as [|n IH]; intros a A R Han HA Hreach.
  - rewrite Nat.add_0_r in Hreach.
    assert (R = []) as -> by (destruct R; [reflexivity|simpl in Hreach; lia]).
    exists (pushLeafHashes h A New). rewrite app_nil_r. split; reflexivity.
  - unfold up. cbn [seq map suffixHashes]. fold (up (Datatypes.S a) n).
    replace (a + Datatypes.S n)%nat with (Datatypes.S a + n)%nat in Hreach by lia.
    destruct (Z.testbit m (Z.of_nat a)) eqn:Hbit.
    + rewrite verifySuffix_skip
        by (rewrite land_shl1_testbit, Hbit by lia; reflexivity).
      apply IH; [lia| |exact Hreach].
      rewrite reach_succ, Hbit, Z.add_0_r. exact HA.
    + destruct R as [|x R'].
      * rewrite verifySuffix_nil. exists (pushLeafHashes h A New).
        rewrite app_nil_r. split; reflexivity.
      * cbn [verifySuffix].
        rewrite land_shl1_testbit, Hbit by lia. cbn [negb].
        destruct (reach_multiple m a A (proj1 Hm) HA) as (q & Hq).
        pose proof (top_ge_multiple h a q A Hq) as Htop.
        rewrite PushSubTree_ok by exact Htop.
        destruct (le_lt_dec (2 ^ a) (length (x :: R'))) as [Hfull|Hpart].
        -- rewrite <- (push_complete h a)
             by (try exact Htop; rewrite length_firstn; lia).
           rewrite <- pushLeafHashes_app.
           destruct (IH (Datatypes.S a) (A ++ firstn (2 ^ a) (x :: R'))
                       (skipn (2 ^ a) (x :: R')) ltac:(lia))
             as (t' & Hv & Hroot).
           ++ rewrite length_app, length_firstn, Nat.min_l by exact Hfull.
              rewrite reach_succ, Hbit, Nat2Z.inj_add, pow2_nat. lia.
           ++ rewrite length_app, length_firstn, length_skipn.
              rewrite Nat.min_l by exact Hfull.
              replace (length A + 2 ^ a + (length (x :: R') - 2 ^ a))%nat
                with (length A + length (x :: R'))%nat by lia.
              exact Hreach.
           ++ exists t'. split; [exact Hv|].
              rewrite Hroot, <- app_assoc, firstn_skipn. reflexivity.
        -- rewrite firstn_all2, skipn_all2 by lia.
           rewrite suffixHashes_nil, verifySuffix_nil.
           eexists. split; [reflexivity|].
           rewrite Root_joinAll.
           rewrite <- (push_partial h a)
             by (try exact Htop; cbn [length] in *; lia).
           unfold merkleRoot. rewrite pushLeafHashes_app. reflexivity.
Qed.

Lemma reach_64 (m : Z) : 0 <= m < 2 ^ 63 -> reach m 64 = 2 ^ 64.
Proof.
  intros Hm. unfold reach.
  rewrite Z.div_small by (simpl; lia). reflexivity.
Qed.

(** With the leaf hashes of the range and the root of the whole sequence,
    the proof that [rangeProof] describes verifies. *)
Lemma VerifyRangeProof_spec {L : Type} `{LeafHasher L} (lh : L) (fuel : nat)
    (leafHashes : list bytes) (s e : Z) :
  drains lh (firstn (Z.to_nat (e - s)) (skipn (Z.to_nat s) leafHashes)) None ->
  (Z.to_nat (e - s) < fuel)%nat ->
  Z.of_nat (length leafHashes) < 2 ^ 63 ->
  0 <= s < e -> e <= Z.of_nat (length leafHashes) ->
  VerifyRangeProof h fuel lh s e (rangeProof h leafHashes s e)
                   (orNil (merkleRoot h leafHashes))
  = Some (Done (true, None)).
Proof.
  intros Hd Hfuel HN Hse HeN.
  unfold VerifyRangeProof, rangeProof.
  rewrite (proj2 (illegalRange_false s e)) by exact Hse.
  rewrite bitsDown_down, bitsUp_up.
  assert (Hs : 0 <= s < 2 ^ 63) by lia.
  assert (Hmod : s mod 2 ^ Z.of_nat 64 = s) by (apply Z.mod_small; simpl; lia).
  change New with (pushLeafHashes h [] New) at 1.
  rewrite (verifyPrefix_spec s Hs 64 ltac:(lia) [] leafHashes _ 0%nat)
    by (try reflexivity; lia).
  rewrite Hmod. cbn [app].
  rewrite (verifyLeaves_drains h lh _ None Hd fuel)
    by (try apply top_ge_0_push; rewrite length_firstn; lia).
  rewrite <- pushLeafHashes_app, <- firstn_add.
  replace (Z.to_nat s + Z.to_nat (e - s))%nat with (Z.to_nat e) by lia.
  destruct (verifySuffix_spec (e - 1) ltac:(lia) 64 0
              (firstn (Z.to_nat e) leafHashes) (skipn (Z.to_nat e) leafHashes)
              ltac:(lia))
    as (t' & Hv & Hroot).
  - rewrite reach_0, length_firstn. lia.
  - rewrite <- length_app, firstn_skipn.
    change (0 + 64)%nat with 64%nat. rewrite reach_64 by lia. lia.
  - rewrite Hv, Hroot, firstn_skipn. rewrite bytes_eqb_refl. reflexivity.
Qed.
End VerifySpec.

(** ** Round trip *)



(** ** Neither function panics on a legal range *)

Section BuildTotal.
Context {S : Type} `{SubtreeHasher S}.
Hypothesis next_total :
  forall (n : Z) (st : S), exists r, NextSubtreeRoot n st = Done r.

Lemma buildPrefix_total (s : Z) (bits : list Z) :
  forall (st : S) (acc : list bytes),
    exists r, buildPrefix bits s st acc = Done r.
Proof.
  induction bits as [|i bits IH]; intros st acc; cbn [buildPrefix]; eauto.
  destruct (Z.land s (shl1 i) =? 0); [apply IH|].
  destruct (next_total (shl1 i) st) as ([[root [err|]] st'] & ->); eauto.
Qed.

Lemma buildSuffix_total (m : Z) (bits : list Z) :
  forall (st : S) (acc : list bytes),
    exists r, buildSuffix bits m st acc = Done r.
Proof.
  induction bits as [|i bits IH]; intros st acc; cbn [buildSuffix]; eauto.
  destruct (Z.land m (shl1 i) =? 0); [|apply IH].
  destruct (next_total (shl1 i) st) as ([[root [[| |a b]|]] st'] & ->); eauto.
Qed.

Lemma BuildRangeProof_total (s e : Z) (st : S) :
  (forall (n : Z) (st' : S), 0 <= n -> exists r, Skip n st' = Done r) ->
  illegalRange s e = false ->
  exists r, BuildRangeProof s e st = Done r.
Proof.
  intros Hskip Hr. unfold BuildRangeProof. rewrite Hr.
  destruct (buildPrefix_total s bitsDown st []) as ([[proof [err|]] st1] & ->);
    eauto.
  apply illegalRange_false in Hr.
  destruct (Hskip (e - s) st1 ltac:(lia)) as ([[err|] st2] & ->); eauto.
  apply buildSuffix_total.
Qed.
End BuildTotal.

Lemma csh_next_total (n : Z) (st : CachedSubtreeHasher) :
  exists r, NextSubtreeRoot n st = Done r.
Proof.
  unfold NextSubtreeRoot; cbn [CachedSubtreeHasher_SubtreeHasher].
  unfold csh_NextSubtreeRoot.
  destruct (csh_leafHashes st) as [|x xs] eqn:E; eauto.
  destruct (csh_loop (csh_h st) 0 n (x :: xs) New) as [[tree [err|]] rest]; eauto.
Qed.

Lemma csh_skip_total (n : Z) (st : CachedSubtreeHasher) :
  0 <= n -> exists r, Skip n st = Done r.
Proof.
  intros Hn. unfold Skip; cbn [CachedSubtreeHasher_SubtreeHasher].
  unfold csh_Skip.
  destruct (n >? Z.of_nat (length (csh_leafHashes st))); eauto.
  destruct (Z.ltb_spec n 0); [lia|eauto].
Qed.

Lemma rsh_next_total (n : Z) (st : ReaderSubtreeHasher) :
  exists r, NextSubtreeRoot n st = Done r.
Proof.
  unfold NextSubtreeRoot; cbn [ReaderSubtreeHasher_SubtreeHasher].
  unfold rsh_NextSubtreeRoot.
  destruct (rsh_loop _ _ _ _ _ _ _) as [tree r'].
  destruct (Root (rsh_h st) tree); eauto.
Qed.

Lemma rsh_skip_total (n : Z) (st : ReaderSubtreeHasher) :
  exists r, Skip n st = Done r.
Proof.
  unfold Skip; cbn [ReaderSubtreeHasher_SubtreeHasher].
  unfold rsh_Skip.
  destruct (CopyN _ _) as [[skipped err] r'].
  destruct err as [[| |a b]|]; eauto;
    destruct (skipped =? _); eauto.
Qed.

(** C8. Precondition enforcement: when [s < 0] or [s >= e] both functions
    panic with their illegal-range message, whatever the cursor; when
    [0 <= s < e] neither panics: over the package's cursors they return. *)
Theorem range_precondition (s e : Z) :
  (s < 0 \/ s >= e ->
     (forall (S : Type) (H : SubtreeHasher S) (sh : S),
        BuildRangeProof s e sh
        = Abort (IllegalRange "BuildRangeProof: illegal proof range"))
     /\ (forall (L : Type) (H : LeafHasher L) (h : Hash) (fuel : nat) (lh : L)
                (proof : list bytes) (root : bytes),
           VerifyRangeProof h fuel lh s e proof root
           = Some (Abort (IllegalRange "VerifyRangeProof: illegal proof range"))))
  /\ (0 <= s < e ->
        (forall (r : bytes) (leafSize : nat) (h : Hash),
           exists res,
             BuildRangeProof s e (NewReaderSubtreeHasher r leafSize h) = Done res)
        /\ (forall (leafHashes : list bytes) (h : Hash),
              exists res,
                BuildRangeProof s e (NewCachedSubtreeHasher leafHashes h)
                = Done res)
        /\ (forall (h hl : Hash) (r : bytes) (leafSize : nat)
                   (proof : list bytes) (root : bytes) (fuel : nat),
              (length r < fuel)%nat ->
              exists res,
                VerifyRangeProof h fuel (NewReaderLeafHasher r hl leafSize)
                                 s e proof root = Some (Done res))
        /\ (forall (h : Hash) (leafHashes proof : list bytes) (root : bytes)
                   (fuel : nat),
              (length leafHashes < fuel)%nat ->
              exists res,
                VerifyRangeProof h fuel (NewCachedLeafHasher leafHashes)
                                 s e proof root = Some (Done res))).
Proof.
  split.
  - intros Hbad. apply illegalRange_true in Hbad. split.
    + intros S H sh. unfold BuildRangeProof. rewrite Hbad. reflexivity.
    + intros L H h fuel lh proof root. unfold VerifyRangeProof.
      rewrite Hbad. reflexivity.
  - intros Hok. apply illegalRange_false in Hok. repeat split.
    + intros r leafSize h. apply BuildRangeProof_total; auto.
      * apply rsh_next_total.
      * intros n st' _. apply rsh_skip_total.
    + intros leafHashes h. apply BuildRangeProof_total; auto.
      * apply csh_next_total.
      * apply csh_skip_total.
    + intros h hl r leafSize proof root fuel Hfuel.
      destruct (VerifyRangeProof_total h _ _ None fuel s e proof root
                  (reader_drains hl leafSize r)) as (b & err & Hv & _); auto.
      * pose proof (length_leavesOf leafSize r). rewrite length_map. lia.
      * eauto.
    + intros h leafHashes proof root fuel Hfuel.
      destruct (VerifyRangeProof_total h _ _ None fuel s e proof root
                  (cached_drains leafHashes)) as (b & err & Hv & _); eauto.
Qed.

Lemma range_precondition_witness :
  (BuildRangeProof 5 3 (NewCachedSubtreeHasher [] idHash)
   = Abort (IllegalRange "BuildRangeProof: illegal proof range"))
  /\ (exists res,
        BuildRangeProof 3 5
          (NewCachedSubtreeHasher (map (leafSum idHash) leaves12) idHash)
        = Done res).
Proof.
  split.
  - apply (proj1 (range_precondition 5 3)). right. lia.
  - apply (proj2 (range_precondition 3 5)). lia.
Defined.



(** * Further properties of the cursors and of the two functions *)

(** ** The shape of the proof *)

Lemma prefixHashes_zero (h : Hash) (k : nat) : forall R : list bytes,
  prefixHashes h k 0 R = [].
Proof.
  induction k as [|k IH]; intros R; [reflexivity|].
  cbn [prefixHashes]. rewrite Z.bits_0. apply IH.
Qed.

Lemma rangeProof_whole (h : Hash) (leafHashes : list bytes) :
  rangeProof h leafHashes 0 (Z.of_nat (length leafHashes)) = [].
Proof.
  unfold rangeProof. rewrite prefixHashes_zero, Nat2Z.id, skipn_all.
  apply suffixHashes_nil.
Qed.

(** Whole-tree proof: over either cursor, [BuildRangeProof(0, N, sh)] on a
    tree of [N >= 1] leaves succeeds with a proof of no entries. *)
Theorem whole_tree_proof_empty (h : Hash) :
  (forall leafHashes : list bytes,
     leafHashes <> [] -> Z.of_nat (length leafHashes) < 2 ^ 63 ->
     exists st,
       BuildRangeProof 0 (Z.of_nat (length leafHashes))
                       (NewCachedSubtreeHasher leafHashes h)
       = Done ([], None, st))
  /\ (forall (leafSize : nat) (leaves : list bytes),
        (0 < leafSize)%nat ->
        Forall (fun l => length l = leafSize) leaves ->
        leaves <> [] ->
        Z.of_nat (length (concat leaves)) <= maxInt ->
        exists st,
          BuildRangeProof 0 (Z.of_nat (length leaves))
                          (NewReaderSubtreeHasher (concat leaves) leafSize h)
          = Done ([], None, st)).
Proof.
  split.
  - intros leafHashes Hne HN.
    destruct (BuildRangeProof_spec h (cached_repr h) (cached_faithful h)
                (NewCachedSubtreeHasher leafHashes h) leafHashes
                0 (Z.of_nat (length leafHashes))) as (st & Hb);
      try reflexivity; try lia.
    { destruct leafHashes; [congruence|simpl length; lia]. }
    exists st. rewrite Hb, rangeProof_whole. reflexivity.
  - intros leafSize leaves Hls Hall Hne Hmax.
    pose proof (uniform_length_le leafSize Hls leaves Hall) as HNle.
    unfold maxInt in Hmax.
    destruct (BuildRangeProof_spec h (reader_repr h leafSize)
                (reader_faithful h leafSize Hls)
                (NewReaderSubtreeHasher (concat leaves) leafSize h)
                (map (leafSum h) leaves)
                0 (Z.of_nat (length leaves))) as (st & Hb).
    + exists leaves. repeat split; assumption.
    + rewrite length_map. lia.
    + destruct leaves; [congruence|simpl length; lia].
    + rewrite length_map. lia.
    + exists st. rewrite Hb.
      rewrite <- (length_map (leafSum h) leaves), rangeProof_whole.
      reflexivity.
Qed.

Lemma whole_tree_proof_empty_witness :
  exists st,
    BuildRangeProof 0 (Z.of_nat (length leaves12))
                    (NewReaderSubtreeHasher (concat leaves12) 2 idHash)
    = Done ([], None, st).
Proof.
  apply (proj2 (whole_tree_proof_empty idHash) 2%nat leaves12).
  - lia.
  - repeat constructor.
  - discriminate.
  - vm_compute. discriminate.
Defined.

Lemma subtreeRoot_segment (h : Hash) (leafSize : nat) (leaves : list bytes)
    (i j : nat) :
  (0 < leafSize)%nat ->
  Forall (fun l => length l = leafSize) leaves ->
  subtreeRoot (concat leaves) h leafSize i j
  = orNil (merkleRoot h (map (leafSum h) (firstn (j - i) (skipn i leaves)))).
Proof.
  intros Hls Hall. unfold subtreeRoot, bytesRoot.
  rewrite (uniform_skipn leafSize Hls leaves i Hall).
  rewrite (uniform_firstn leafSize Hls _ (j - i))
    by (apply Forall_skipn'; exact Hall).
  rewrite (leavesOf_concat leafSize Hls)
    by (apply Forall_firstn', Forall_skipn'; exact Hall).
  reflexivity.
Qed.

(** The manual proof of the test: on any twelve leaves, over either cursor,
    the proof of the range [3, 5) is the list of the roots, each computed
    on its own, of the leaf segments [0,2), [2,3), [5,6), [6,8), [8,12). *)
Theorem worked_example_3_5_of_12 (h : Hash) (leafSize : nat)
    (leaves : list bytes) :
  (0 < leafSize)%nat ->
  Forall (fun l => length l = leafSize) leaves ->
  length leaves = 12%nat ->
  Z.of_nat (length (concat leaves)) <= maxInt ->
  exists (stR : ReaderSubtreeHasher) (stC : CachedSubtreeHasher),
    BuildRangeProof 3 5 (NewReaderSubtreeHasher (concat leaves) leafSize h)
    = Done ([subtreeRoot (concat leaves) h leafSize 0 2;
             subtreeRoot (concat leaves) h leafSize 2 3;
             subtreeRoot (concat leaves) h leafSize 5 6;
             subtreeRoot (concat leaves) h leafSize 6 8;
             subtreeRoot (concat leaves) h leafSize 8 12], None, stR)
    /\ BuildRangeProof 3 5 (NewCachedSubtreeHasher (map (leafSum h) leaves) h)
       = Done ([subtreeRoot (concat leaves) h leafSize 0 2;
                subtreeRoot (concat leaves) h leafSize 2 3;
                subtreeRoot (concat leaves) h leafSize 5 6;
                subtreeRoot (concat leaves) h leafSize 6 8;
                subtreeRoot (concat leaves) h leafSize 8 12], None, stC).
Proof.
  intros Hls Hall Hlen Hmax.
  pose proof (uniform_length_le leafSize Hls leaves Hall) as HNle.
  unfold maxInt in Hmax.
  destruct (BuildRangeProof_spec h (reader_repr h leafSize)
              (reader_faithful h leafSize Hls)
              (NewReaderSubtreeHasher (concat leaves) leafSize h)
              (map (leafSum h) leaves) 3 5) as (stR & HbR);
    rewrite ?length_map; try lia.
  { exists leaves. repeat split; assumption. }
  destruct (BuildRangeProof_spec h (cached_repr h) (cached_faithful h)
              (NewCachedSubtreeHasher (map (leafSum h) leaves) h)
              (map (leafSum h) leaves) 3 5) as (stC & HbC);
    rewrite ?length_map; try reflexivity; try lia.
  exists stR, stC. rewrite HbR, HbC.
  remember (rangeProof h (map (leafSum h) leaves) 3 5) as proof eqn:Hp.
  rewrite !(subtreeRoot_segment h leafSize leaves) by assumption.
  rewrite Hp. clear - Hlen.
  do 13 (destruct leaves as [|? leaves]; try discriminate).
  split; reflexivity.
Qed.

Lemma worked_example_3_5_of_12_witness :
  exists (stR : ReaderSubtreeHasher) (stC : CachedSubtreeHasher),
    BuildRangeProof 3 5 (NewReaderSubtreeHasher (concat leaves12) 2 idHash)
    = Done ([subtreeRoot (concat leaves12) idHash 2 0 2;
             subtreeRoot (concat leaves12) idHash 2 2 3;
             subtreeRoot (concat leaves12) idHash 2 5 6;
             subtreeRoot (concat leaves12) idHash 2 6 8;
             subtreeRoot (concat leaves12) idHash 2 8 12], None, stR)
    /\ BuildRangeProof 3 5
         (NewCachedSubtreeHasher (map (leafSum idHash) leaves12) idHash)
       = Done ([subtreeRoot (concat leaves12) idHash 2 0 2;
                subtreeRoot (concat leaves12) idHash 2 2 3;
                subtreeRoot (concat leaves12) idHash 2 5 6;
                subtreeRoot (concat leaves12) idHash 2 6 8;
                subtreeRoot (concat leaves12) idHash 2 8 12], None, stC).
Proof.
  apply (worked_example_3_5_of_12 idHash 2 leaves12).
  - lia.
  - repeat constructor.
  - reflexivity.
  - vm_compute. discriminate.
Defined.

(** ** The expected root decides *)

Lemma VerifyRangeProof_spec_root (h : Hash) {L : Type} `{LeafHasher L}
    (lh : L) (fuel : nat) (leafHashes : list bytes) (s e : Z) (root : bytes) :
  drains lh (firstn (Z.to_nat (e - s)) (skipn (Z.to_nat s) leafHashes)) None ->
  (Z.to_nat (e - s) < fuel)%nat ->
  Z.of_nat (length leafHashes) < 2 ^ 63 ->
  0 <= s < e -> e <= Z.of_nat (length leafHashes) ->
  VerifyRangeProof h fuel lh s e (rangeProof h leafHashes s e) root
  = Some (Done (bytes_eqb (orNil (merkleRoot h leafHashes)) root, None)).
Proof.
  intros Hd Hfuel HN Hse HeN.
  unfold VerifyRangeProof, rangeProof.
  rewrite (proj2 (illegalRange_false s e)) by exact Hse.
  rewrite bitsDown_down, bitsUp_up.
  assert (Hs : 0 <= s < 2 ^ 63) by lia.
  assert (Hmod : s mod 2 ^ Z.of_nat 64 = s) by (apply Z.mod_small; simpl; lia).
  change New with (pushLeafHashes h [] New) at 1.
  rewrite (verifyPrefix_spec h s Hs 64 ltac:(lia) [] leafHashes _ 0%nat)
    by (try reflexivity; lia).
  rewrite Hmod. cbn [app].
  rewrite (verifyLeaves_drains h lh _ None Hd fuel)
    by (try apply top_ge_0_push; rewrite length_firstn; lia).
  rewrite <- pushLeafHashes_app, <- firstn_add.
  replace (Z.to_nat s + Z.to_nat (e - s))%nat with (Z.to_nat e) by lia.
  destruct (verifySuffix_spec h (e - 1) ltac:(lia) 64 0
              (firstn (Z.to_nat e) leafHashes) (skipn (Z.to_nat e) leafHashes)
              ltac:(lia))
    as (t' & Hv & Hroot).
  - rewrite reach_0, length_firstn. lia.
  - rewrite <- length_app, firstn_skipn.
    change (0 + 64)%nat with 64%nat. rewrite reach_64 by lia. lia.
  - rewrite Hv, Hroot, firstn_skipn. reflexivity.
Qed.



(** ** The leaves inside the range are not looked at *)

Lemma firstn_firstn_min {A : Type} (a b : nat) (l : list A) :
  firstn a (firstn b l) = firstn (Nat.min a b) l.
Proof. apply firstn_firstn. Qed.

Lemma skipn_firstn_add {A : Type} (a b : nat) (l : list A) :
  skipn a (firstn (a + b) l) = firstn b (skipn a l).
Proof.
  revert l. induction a as [|a IH]; intros l; [reflexivity|].
  destruct l as [|x l]; [simpl; now rewrite firstn_nil|]. simpl. apply IH.
Qed.

Lemma prefixHashes_firstn (h : Hash) (s : Z) (k : nat) : forall R : list bytes,
  prefixHashes h k s R
  = prefixHashes h k s (firstn (Z.to_nat (s mod 2 ^ Z.of_nat k)) R).
Proof.
  induction k as [|k IH]; intros R; [reflexivity|].
  cbn [prefixHashes]. rewrite mod_pow2_succ.
  pose proof (mod_pow2_bounds s k) as Hb.
  assert (Hp : 0 < 2 ^ Z.of_nat k) by (apply Z.pow_pos_nonneg; lia).
  destruct (Z.testbit s (Z.of_nat k)).
  - replace (Z.to_nat (2 ^ Z.of_nat k + s mod 2 ^ Z.of_nat k))
      with (2 ^ k + Z.to_nat (s mod 2 ^ Z.of_nat k))%nat
      by (rewrite Z2Nat.inj_add, pow2_to_nat; lia).
    rewrite firstn_firstn_min, Nat.min_l by lia.
    rewrite skipn_firstn_add. f_equal.
    rewrite (IH (skipn (2 ^ k) R)).
    rewrite (IH (firstn _ (skipn (2 ^ k) R))).
    rewrite firstn_firstn_min, Nat.min_id. reflexivity.
  - rewrite Z.add_0_l. rewrite (IH R) at 1.
    rewrite (IH (firstn _ R)).
    rewrite firstn_firstn_min, Nat.min_id. reflexivity.
Qed.

(** Two sequences of leaf hashes that agree before [s] and from [e] on
    get the same proof for the range [s, e): the hashes inside the range
    play no part in it. *)
Theorem proof_ignores_range_leaves (h : Hash) (A M M' B : list bytes) :
  M <> [] -> length M = length M' ->
  Z.of_nat (length (A ++ M ++ B)) < 2 ^ 63 ->
  exists (proof : list bytes) (st st' : CachedSubtreeHasher),
    BuildRangeProof (Z.of_nat (length A)) (Z.of_nat (length (A ++ M)))
                    (NewCachedSubtreeHasher (A ++ M ++ B) h)
    = Done (proof, None, st)
    /\ BuildRangeProof (Z.of_nat (length A)) (Z.of_nat (length (A ++ M)))
                       (NewCachedSubtreeHasher (A ++ M' ++ B) h)
       = Done (proof, None, st').
Proof.
  intros HM Hlen HN.
  assert (HM0 : (0 < length M)%nat) by (destruct M; [congruence|simpl; lia]).
  pose proof (length_app A M) as HAM.
  assert (HL : length (A ++ M ++ B) = (length A + length M + length B)%nat)
    by (rewrite !length_app; lia).
  assert (HL' : length (A ++ M' ++ B) = (length A + length M + length B)%nat)
    by (rewrite !length_app; lia).
  destruct (BuildRangeProof_spec h (cached_repr h) (cached_faithful h)
              (NewCachedSubtreeHasher (A ++ M ++ B) h) (A ++ M ++ B)
              (Z.of_nat (length A)) (Z.of_nat (length (A ++ M))))
    as (st & Hb); try reflexivity; try lia.
  destruct (BuildRangeProof_spec h (cached_repr h) (cached_faithful h)
              (NewCachedSubtreeHasher (A ++ M' ++ B) h) (A ++ M' ++ B)
              (Z.of_nat (length A)) (Z.of_nat (length (A ++ M))))
    as (st' & Hb'); try reflexivity; try lia.
  exists (rangeProof h (A ++ M ++ B) (Z.of_nat (length A))
                     (Z.of_nat (length (A ++ M)))), st, st'.
  split; [exact Hb|]. rewrite Hb'.
  assert (Heq : rangeProof h (A ++ M' ++ B) (Z.of_nat (length A))
                           (Z.of_nat (length (A ++ M)))
                = rangeProof h (A ++ M ++ B) (Z.of_nat (length A))
                             (Z.of_nat (length (A ++ M)))).
  { unfold rangeProof.
    assert (Hmod : Z.of_nat (length A) mod 2 ^ Z.of_nat 64
                   = Z.of_nat (length A))
      by (apply Z.mod_small; simpl; lia).
    rewrite (prefixHashes_firstn h _ 64 (A ++ M' ++ B)).
    rewrite (prefixHashes_firstn h _ 64 (A ++ M ++ B)).
    rewrite Hmod, Nat2Z.id.
    rewrite !firstn_app, !Nat.sub_diag, !firstn_O, !firstn_all, !app_nil_r.
    apply f_equal.
    rewrite Nat2Z.id, !app_assoc.
    rewrite (skipn_app (length (A ++ M)) (A ++ M') B).
    rewrite (skipn_app (length (A ++ M)) (A ++ M) B).
    rewrite (skipn_all2 (A ++ M')) by (rewrite !length_app; lia).
    rewrite (skipn_all2 (A ++ M)) by lia.
    rewrite !length_app, <- Hlen. reflexivity. }
  rewrite Heq. reflexivity.
Qed.

Lemma proof_ignores_range_leaves_witness :
  exists (proof : list bytes) (st st' : CachedSubtreeHasher),
    BuildRangeProof (Z.of_nat (length [[x01]]))
                    (Z.of_nat (length ([[x01]] ++ [[x02]; [x03]])))
                    (NewCachedSubtreeHasher
                       ([[x01]] ++ [[x02]; [x03]] ++ [[x04]]) idHash)
    = Done (proof, None, st)
    /\ BuildRangeProof (Z.of_nat (length [[x01]]))
                       (Z.of_nat (length ([[x01]] ++ [[x02]; [x03]])))
                       (NewCachedSubtreeHasher
                          ([[x01]] ++ [[xaa]; [xbb]] ++ [[x04]]) idHash)
       = Done (proof, None, st').
Proof.
  apply (proof_ignores_range_leaves idHash [[x01]] [[x02]; [x03]]
           [[xaa]; [xbb]] [[x04]]).
  - discriminate.
  - reflexivity.
  - vm_compute. reflexivity.
Defined.

(** ** The stream-backed cursor on any stream *)

Section ReaderStream.
Variable h : Hash.
Variable ls : nat.
Hypothesis ls_pos : (0 < ls)%nat.

Lemma leavesOf_short (r : bytes) :
  (0 < length r <= ls)%nat -> leavesOf ls r = [r].
Proof.
  intros Hr. rewrite leavesOf_cons; [|exact ls_pos|].
  - rewrite firstn_all2, skipn_all2, leavesOf_nil by lia. reflexivity.
  - destruct r; [simpl in Hr; lia|discriminate].
Qed.

Lemma leavesOf_skipn (k : nat) : forall r : bytes,
  leavesOf ls (skipn (k * ls) r) = skipn k (leavesOf ls r).
Proof.
  induction k as [|k IH]; intros r; [reflexivity|].
  destruct r as [|b r].
  - rewrite skipn_nil, leavesOf_nil, skipn_nil. reflexivity.
  - rewrite (leavesOf_cons ls (b :: r)) by (exact ls_pos || discriminate).
    cbn [skipn]. rewrite <- IH, skipn_skipn_add. reflexivity.
Qed.

Lemma rsh_loop_stream (fuel : nat) :
  forall (r : bytes) (i n : Z) (tree : Tree),
    (length r < fuel)%nat ->
    rsh_loop fuel h ls i n r tree
    = (pushLeafHashes h
         (map (leafSum h) (firstn (Z.to_nat (n - i)) (leavesOf ls r))) tree,
       skipn (Z.to_nat (n - i) * ls) r).
Proof.
  induction fuel as [|fuel IH]; intros r i n tree Hfuel; [lia|].
  cbn [rsh_loop]. destruct (Z.ltb_spec i n) as [Hlt|Hge].
  - replace (Z.to_nat (n - i)) with (Datatypes.S (Z.to_nat (n - (i + 1)))) by lia.
    destruct r as [|b r].
    + rewrite ReadFull_empty by exact ls_pos.
      rewrite leavesOf_nil, skipn_nil. reflexivity.
    + destruct (le_lt_dec ls (length (b :: r))) as [Hfull|Hpart].
      * rewrite ReadFull_whole by exact Hfull.
        rewrite (leavesOf_cons ls (b :: r)) by (exact ls_pos || discriminate).
        rewrite IH by (rewrite length_skipn; cbn [length] in *; lia).
        cbn [firstn map]. rewrite skipn_skipn_add.
        destruct ls as [|m]; [lia|]. reflexivity.
      * rewrite ReadFull_short by (cbn [length] in *; lia).
        rewrite leavesOf_short by (cbn [length] in *; lia).
        cbn [firstn map]. rewrite firstn_nil.
        rewrite skipn_all2 by (cbn [length] in *; nia).
        reflexivity.
  - replace (Z.to_nat (n - i)) with 0%nat by lia. reflexivity.
Qed.

Lemma reader_next_stream (r : bytes) (n : Z) :
  NextSubtreeRoot n (NewReaderSubtreeHasher r ls h)
  = match merkleRoot h (map (leafSum h) (firstn (Z.to_nat n) (leavesOf ls r))) with
    | Some root =>
        Done (root, None,
              NewReaderSubtreeHasher (skipn (Z.to_nat n * ls) r) ls h)
    | None =>
        Done ([], Some EOF,
              NewReaderSubtreeHasher (skipn (Z.to_nat n * ls) r) ls h)
    end.
Proof.
  unfold NextSubtreeRoot; cbn [ReaderSubtreeHasher_SubtreeHasher].
  unfold rsh_NextSubtreeRoot, NewReaderSubtreeHasher.
  cbn [rsh_r rsh_h rsh_leaf].
  rewrite rsh_loop_stream by lia. rewrite Z.sub_0_r. reflexivity.
Qed.

Lemma cached_next_hashes (hashes : list bytes) (n : Z) :
  hashes <> [] ->
  NextSubtreeRoot n (NewCachedSubtreeHasher hashes h)
  = Done (orNil (merkleRoot h (firstn (Z.to_nat n) hashes)), None,
          NewCachedSubtreeHasher (skipn (Z.to_nat n) hashes) h).
Proof.
  intros Hne.
  unfold NextSubtreeRoot; cbn [CachedSubtreeHasher_SubtreeHasher].
  unfold csh_NextSubtreeRoot, NewCachedSubtreeHasher.
  cbn [csh_leafHashes csh_h].
  destruct hashes as [|x xs]; [congruence|].
  rewrite csh_loop_spec by exact I. rewrite Z.sub_0_r. reflexivity.
Qed.
End ReaderStream.

(** On any stream, whole leaves or not, and for every [n >= 1], the
    stream-backed cursor answers [NextSubtreeRoot(n)] as the cache-backed
    cursor does over the leaf hashes of that stream: the same root or the
    same [io.EOF], and the streams left behind hold the same leaves. *)
Theorem reader_next_agrees_with_cached (h : Hash) (leafSize : nat)
    (r : bytes) (n : Z) :
  (0 < leafSize)%nat -> 0 < n ->
  exists (root : bytes) (err : option error) (r' : bytes),
    NextSubtreeRoot n (NewReaderSubtreeHasher r leafSize h)
    = Done (root, err, NewReaderSubtreeHasher r' leafSize h)
    /\ NextSubtreeRoot n
         (NewCachedSubtreeHasher (map (leafSum h) (leavesOf leafSize r)) h)
       = Done (root, err,
               NewCachedSubtreeHasher (map (leafSum h) (leavesOf leafSize r')) h).
Proof.
  intros Hls Hn. rewrite (reader_next_stream h leafSize Hls).
  destruct (leavesOf leafSize r) as [|l leaves] eqn:Hleaves.
  - rewrite firstn_nil. cbn [map merkleRoot pushLeafHashes fold_left New Root].
    exists [], (Some EOF), (skipn (Z.to_nat n * leafSize) r).
    split; [reflexivity|].
    rewrite (leavesOf_skipn leafSize Hls), Hleaves, skipn_nil. reflexivity.
  - rewrite cached_next_hashes by discriminate.
    rewrite <- Hleaves, firstn_map.
    destruct (merkleRoot_nonempty h
                (map (leafSum h) (firstn (Z.to_nat n) (leavesOf leafSize r))))
      as (root & Hroot).
    { rewrite Hleaves.
      replace (Z.to_nat n) with (Datatypes.S (Z.to_nat (n - 1))) by lia.
      discriminate. }
    rewrite Hroot.
    exists root, None, (skipn (Z.to_nat n * leafSize) r).
    split; [reflexivity|].
    rewrite (leavesOf_skipn leafSize Hls), skipn_map. reflexivity.
Qed.

Lemma reader_next_agrees_with_cached_witness :
  exists (root : bytes) (err : option error) (r' : bytes),
    NextSubtreeRoot 2 (NewReaderSubtreeHasher [x01; x02; x03] 2 idHash)
    = Done (root, err, NewReaderSubtreeHasher r' 2 idHash)
    /\ NextSubtreeRoot 2
         (NewCachedSubtreeHasher
            (map (leafSum idHash) (leavesOf 2 [x01; x02; x03])) idHash)
       = Done (root, err,
               NewCachedSubtreeHasher
                 (map (leafSum idHash) (leavesOf 2 r')) idHash).
Proof.
  apply (reader_next_agrees_with_cached idHash 2 [x01; x02; x03] 2); lia.
Defined.

(** For [n <= 0] the two cursors part ways: the stream-backed one reports
    [io.EOF] whatever is left in the stream, the cache-backed one, while it
    has hashes left, returns a nil root and no error.  Neither moves. *)
Theorem next_of_nonpositive_count (h : Hash) (n : Z) :
  n <= 0 ->
  (forall (r : bytes) (leafSize : nat),
     NextSubtreeRoot n (NewReaderSubtreeHasher r leafSize h)
     = Done ([], Some EOF, NewReaderSubtreeHasher r leafSize h))
  /\ (forall leafHashes : list bytes,
        leafHashes <> [] ->
        NextSubtreeRoot n (NewCachedSubtreeHasher leafHashes h)
        = Done ([], None, NewCachedSubtreeHasher leafHashes h)).
Proof.
  intros Hn. split.
  - intros r leafSize.
    unfold NextSubtreeRoot; cbn [ReaderSubtreeHasher_SubtreeHasher].
    unfold rsh_NextSubtreeRoot, NewReaderSubtreeHasher.
    cbn [rsh_r rsh_h rsh_leaf rsh_loop].
    destruct (Z.ltb_spec 0 n); [lia|]. reflexivity.
  - intros leafHashes Hne. rewrite cached_next_hashes by exact Hne.
    replace (Z.to_nat n) with 0%nat by lia. reflexivity.
Qed.

Lemma next_of_nonpositive_count_witness :
  NextSubtreeRoot (shl1 63) (NewCachedSubtreeHasher [[x01]] idHash)
  = Done ([], None, NewCachedSubtreeHasher [[x01]] idHash).
Proof.
  apply (proj2 (next_of_nonpositive_count idHash (shl1 63) ltac:(vm_compute; discriminate))).
  discriminate.
Defined.

(** ** Skip *)

Lemma rsh_Skip_bytes (h : Hash) (leafSize : nat) (r : bytes) (n : Z) :
  0 <= Z.of_nat leafSize * n <= maxInt ->
  Skip n (NewReaderSubtreeHasher r leafSize h)
  = if Z.of_nat leafSize * n <=? Z.of_nat (length r)
    then Done (None,
               NewReaderSubtreeHasher
                 (skipn (Z.to_nat (Z.of_nat leafSize * n)) r) leafSize h)
    else Done (Some ErrUnexpectedEOF, NewReaderSubtreeHasher [] leafSize h).
Proof.
  intros Hfit. unfold maxInt in Hfit.
  unfold Skip; cbn [ReaderSubtreeHasher_SubtreeHasher].
  unfold rsh_Skip, NewReaderSubtreeHasher. cbn [rsh_r rsh_h rsh_leaf].
  rewrite wrap64_small by lia.
  unfold CopyN. destruct (Z.ltb_spec (Z.of_nat leafSize * n) 0); [lia|].
  rewrite length_firstn.
  destruct (Z.leb_spec (Z.of_nat leafSize * n) (Z.of_nat (length r))) as [Hle|Hgt].
  - rewrite Nat.min_l by lia. rewrite Z2Nat.id by lia.
    rewrite Z.eqb_refl. reflexivity.
  - rewrite Nat.min_r by lia.
    destruct (Z.eqb_spec (Z.of_nat (length r)) (Z.of_nat leafSize * n)); [lia|].
    rewrite skipn_all2 by lia.
    destruct (Z.eqb_spec (Z.of_nat (length r)) (Z.of_nat leafSize * n)); [lia|].
    reflexivity.
Qed.

(** As long as the byte count [leafSize * n] is a non-negative [int], the
    stream-backed [Skip(n)] succeeds exactly when the stream still holds
    that many bytes, and then drops them; otherwise it reports
    [io.ErrUnexpectedEOF] and the stream is left drained. *)
Theorem reader_skip_counts_bytes (h : Hash) (leafSize : nat) (r : bytes)
    (n : Z) :
  0 <= Z.of_nat leafSize * n <= maxInt ->
  Skip n (NewReaderSubtreeHasher r leafSize h)
  = if Z.of_nat leafSize * n <=? Z.of_nat (length r)
    then Done (None,
               NewReaderSubtreeHasher
                 (skipn (Z.to_nat (Z.of_nat leafSize * n)) r) leafSize h)
    else Done (Some ErrUnexpectedEOF, NewReaderSubtreeHasher [] leafSize h).
Proof. apply rsh_Skip_bytes. Qed.

Lemma reader_skip_counts_bytes_witness :
  Skip 2 (NewReaderSubtreeHasher [x01; x02; x03; x04; x05] 2 idHash)
  = if Z.of_nat 2 * 2 <=? Z.of_nat (length [x01; x02; x03; x04; x05])
    then Done (None,
               NewReaderSubtreeHasher
                 (skipn (Z.to_nat (Z.of_nat 2 * 2)) [x01; x02; x03; x04; x05])
                 2 idHash)
    else Done (Some ErrUnexpectedEOF, NewReaderSubtreeHasher [] 2 idHash).
Proof.
  apply (reader_skip_counts_bytes idHash 2 [x01; x02; x03; x04; x05] 2).
  vm_compute. split; discriminate.
Defined.

Lemma length_le_leaves (ls : nat) (Hls : (0 < ls)%nat) (r : bytes) :
  (length r <= length (leavesOf ls r) * ls)%nat.
Proof.
  remember (length r) as m eqn:Hm. revert r Hm.
  induction m as [m IH] using lt_wf_ind. intros r Hm.
  destruct r as [|b r]; [simpl in Hm; lia|].
  rewrite leavesOf_cons by (exact Hls || discriminate).
  cbn [length].
  assert (Hsk : (length (skipn ls (b :: r)) < m)%nat)
    by (rewrite length_skipn; cbn [length] in *; lia).
  specialize (IH _ Hsk _ eq_refl).
  rewrite length_skipn in IH. cbn [length] in *. lia.
Qed.

(** A stream whose last leaf is short holds, for [NextSubtreeRoot], as
    many leaves as any other; [Skip] over exactly that many leaves
    nevertheless reports [io.ErrUnexpectedEOF], while [NextSubtreeRoot]
    over the same count returns their root. *)
Theorem skip_over_partial_final_leaf (h : Hash) (leafSize : nat) (r : bytes)
    (n : Z) :
  (0 < leafSize)%nat ->
  n = Z.of_nat (length (leavesOf leafSize r)) ->
  (length r mod leafSize <> 0)%nat ->
  Z.of_nat leafSize * n <= maxInt ->
  Skip n (NewReaderSubtreeHasher r leafSize h)
  = Done (Some ErrUnexpectedEOF, NewReaderSubtreeHasher [] leafSize h)
  /\ exists root,
       merkleRoot h (map (leafSum h) (leavesOf leafSize r)) = Some root
       /\ NextSubtreeRoot n (NewReaderSubtreeHasher r leafSize h)
          = Done (root, None, NewReaderSubtreeHasher [] leafSize h).
Proof.
  intros Hls Hn Hmod Hmax.
  pose proof (length_le_leaves leafSize Hls r) as Hle.
  assert (Hlt : (length r < length (leavesOf leafSize r) * leafSize)%nat).
  { destruct (Nat.eq_dec (length r) (length (leavesOf leafSize r) * leafSize))
      as [Heq|Hne]; [|lia].
    rewrite Heq, Nat.Div0.mod_mul in Hmod. congruence. }
  split.
  - rewrite rsh_Skip_bytes by nia.
    destruct (Z.leb_spec (Z.of_nat leafSize * n) (Z.of_nat (length r)));
      [nia|reflexivity].
  - assert (Hne : leavesOf leafSize r <> []).
    { destruct (leavesOf leafSize r); [simpl in Hlt; lia|discriminate]. }
    destruct (merkleRoot_nonempty h (map (leafSum h) (leavesOf leafSize r)))
      as (root & Hroot).
    { destruct (leavesOf leafSize r); [congruence|discriminate]. }
    exists root. split; [exact Hroot|].
    rewrite (reader_next_stream h leafSize Hls), Hn, Nat2Z.id, firstn_all, Hroot.
    rewrite skipn_all2 by lia. reflexivity.
Qed.

Lemma skip_over_partial_final_leaf_witness :
  Skip 2 (NewReaderSubtreeHasher [x01; x02; x03] 2 idHash)
  = Done (Some ErrUnexpectedEOF, NewReaderSubtreeHasher [] 2 idHash)
  /\ exists root,
       merkleRoot idHash (map (leafSum idHash) (leavesOf 2 [x01; x02; x03]))
       = Some root
       /\ NextSubtreeRoot 2 (NewReaderSubtreeHasher [x01; x02; x03] 2 idHash)
          = Done (root, None, NewReaderSubtreeHasher [] 2 idHash).
Proof.
  apply (skip_over_partial_final_leaf idHash 2 [x01; x02; x03] 2).
  - lia.
  - reflexivity.
  - vm_compute. discriminate.
  - vm_compute. discriminate.
Defined.

(** When the byte count [leafSize * n], computed as a 64-bit [int], comes
    out zero or negative, the stream-backed [Skip(n)] reports success and
    does not move: so it is for [n = 0], and so it is for a large [n]
    whose product wraps around. *)
Theorem reader_skip_wrapped_count (h : Hash) (leafSize : nat) (r : bytes)
    (n : Z) :
  wrap64 (Z.of_nat leafSize * n) <= 0 ->
  Skip n (NewReaderSubtreeHasher r leafSize h)
  = Done (None, NewReaderSubtreeHasher r leafSize h).
Proof.
  intros Hw.
  unfold Skip; cbn [ReaderSubtreeHasher_SubtreeHasher].
  unfold rsh_Skip, NewReaderSubtreeHasher. cbn [rsh_r rsh_h rsh_leaf].
  unfold CopyN.
  destruct (Z.ltb_spec (wrap64 (Z.of_nat leafSize * n)) 0) as [Hneg|Hge].
  - reflexivity.
  - assert (H0 : wrap64 (Z.of_nat leafSize * n) = 0) by lia.
    rewrite H0. reflexivity.
Qed.

Lemma reader_skip_wrapped_count_witness :
  Skip (2 ^ 62) (NewReaderSubtreeHasher [x01] 4 idHash)
  = Done (None, NewReaderSubtreeHasher [x01] 4 idHash).
Proof.
  apply (reader_skip_wrapped_count idHash 4 [x01] (2 ^ 62)).
  vm_compute. discriminate.
Defined.

Lemma csh_skip_short (h : Hash) (n : Z) (leafHashes : list bytes) :
  Z.of_nat (length leafHashes) < n ->
  Skip n (NewCachedSubtreeHasher leafHashes h)
  = Done (Some ErrUnexpectedEOF, NewCachedSubtreeHasher leafHashes h).
Proof.
  intros Hlt.
  unfold Skip; cbn [CachedSubtreeHasher_SubtreeHasher].
  unfold csh_Skip, NewCachedSubtreeHasher. cbn [csh_leafHashes csh_h].
  destruct (Z.gtb_spec n (Z.of_nat (length leafHashes))); [reflexivity|lia].
Qed.

Lemma rsh_skip_short (h : Hash) (n : Z) (leafSize : nat) (r : bytes) :
  Z.of_nat (length r) < Z.of_nat leafSize * n <= maxInt ->
  Skip n (NewReaderSubtreeHasher r leafSize h)
  = Done (Some ErrUnexpectedEOF, NewReaderSubtreeHasher [] leafSize h).
Proof.
  intros Hlt. rewrite rsh_Skip_bytes by lia.
  destruct (Z.leb_spec (Z.of_nat leafSize * n) (Z.of_nat (length r)));
    [lia|reflexivity].
Qed.

(** A [Skip] that asks for more than is left fails on both cursors with
    [io.ErrUnexpectedEOF], but not to the same effect: the cache-backed
    cursor keeps all its hashes, the stream-backed one has read its stream
    to the end. *)
Theorem failed_skip_cursor_state (h : Hash) (n : Z) :
  (forall leafHashes : list bytes,
     Z.of_nat (length leafHashes) < n ->
     Skip n (NewCachedSubtreeHasher leafHashes h)
     = Done (Some ErrUnexpectedEOF, NewCachedSubtreeHasher leafHashes h))
  /\ (forall (leafSize : nat) (r : bytes),
        Z.of_nat (length r) < Z.of_nat leafSize * n <= maxInt ->
        Skip n (NewReaderSubtreeHasher r leafSize h)
        = Done (Some ErrUnexpectedEOF, NewReaderSubtreeHasher [] leafSize h)).
Proof.
  split.
  - intros leafHashes Hlt. apply csh_skip_short. exact Hlt.
  - intros leafSize r Hlt. apply rsh_skip_short. exact Hlt.
Qed.

Lemma failed_skip_cursor_state_witness :
  Skip 3 (NewCachedSubtreeHasher [[x01]; [x02]] idHash)
  = Done (Some ErrUnexpectedEOF, NewCachedSubtreeHasher [[x01]; [x02]] idHash).
Proof.
  apply (proj1 (failed_skip_cursor_state idHash 3) [[x01]; [x02]]).
  vm_compute. reflexivity.
Defined.

(** Where at least [n >= 1] leaves are left, [NextSubtreeRoot(n)] moves
    either cursor exactly as far as [Skip(n)] does. *)
Theorem next_moves_like_skip (h : Hash) (n : Z) :
  0 < n ->
  (forall leafHashes : list bytes,
     n <= Z.of_nat (length leafHashes) ->
     exists (root : bytes) (st : CachedSubtreeHasher),
       NextSubtreeRoot n (NewCachedSubtreeHasher leafHashes h)
       = Done (root, None, st)
       /\ Skip n (NewCachedSubtreeHasher leafHashes h) = Done (None, st))
  /\ (forall (leafSize : nat) (r : bytes),
        (0 < leafSize)%nat ->
        Z.of_nat leafSize * n <= Z.of_nat (length r) ->
        Z.of_nat (length r) <= maxInt ->
        exists (root : bytes) (st : ReaderSubtreeHasher),
          NextSubtreeRoot n (NewReaderSubtreeHasher r leafSize h)
          = Done (root, None, st)
          /\ Skip n (NewReaderSubtreeHasher r leafSize h) = Done (None, st)).
Proof.
  intros Hn. split.
  - intros leafHashes Hle.
    rewrite cached_next_hashes
      by (destruct leafHashes; [simpl in Hle; lia|discriminate]).
    eexists _, _. split; [reflexivity|].
    unfold Skip; cbn [CachedSubtreeHasher_SubtreeHasher].
    unfold csh_Skip, NewCachedSubtreeHasher. cbn [csh_leafHashes csh_h].
    destruct (Z.gtb_spec n (Z.of_nat (length leafHashes))); [lia|].
    destruct (Z.ltb_spec n 0); [lia|]. reflexivity.
  - intros leafSize r Hls Hle Hmax.
    rewrite (reader_next_stream h leafSize Hls).
    rewrite rsh_Skip_bytes by (unfold maxInt in *; nia).
    destruct (Z.leb_spec (Z.of_nat leafSize * n) (Z.of_nat (length r)));
      [|lia].
    destruct (merkleRoot_nonempty h
                (map (leafSum h) (firstn (Z.to_nat n) (leavesOf leafSize r))))
      as (root & Hroot).
    { destruct r as [|b r]; [simpl in Hle; nia|].
      rewrite leavesOf_cons by (exact Hls || discriminate).
      replace (Z.to_nat n) with (Datatypes.S (Z.to_nat (n - 1))) by lia.
      discriminate. }
    rewrite Hroot. eexists _, _. split; [reflexivity|].
    replace (Z.to_nat (Z.of_nat leafSize * n)) with (Z.to_nat n * leafSize)%nat
      by nia.
    reflexivity.
Qed.

Lemma next_moves_like_skip_witness :
  exists (root : bytes) (st : CachedSubtreeHasher),
    NextSubtreeRoot 2 (NewCachedSubtreeHasher [[x01]; [x02]; [x03]] idHash)
    = Done (root, None, st)
    /\ Skip 2 (NewCachedSubtreeHasher [[x01]; [x02]; [x03]] idHash)
       = Done (None, st).
Proof.
  apply (proj1 (next_moves_like_skip idHash 2 ltac:(lia)) [[x01]; [x02]; [x03]]).
  vm_compute. discriminate.
Defined.

(** ** Leaf hashers are interchangeable *)

Lemma VerifyRangeProof_by_drain (h : Hash) {L1 L2 : Type}
    `{LeafHasher L1} `{LeafHasher L2} (lh1 : L1) (lh2 : L2)
    (xs : list bytes) (r : option error) (fuel : nat) (s e : Z)
    (proof : list bytes) (root : bytes) :
  drains lh1 xs r -> drains lh2 xs r -> (length xs < fuel)%nat ->
  VerifyRangeProof h fuel lh1 s e proof root
  = VerifyRangeProof h fuel lh2 s e proof root.
Proof.
  intros Hd1 Hd2 Hfuel. unfold VerifyRangeProof.
  destruct (illegalRange s e); [reflexivity|].
  destruct (verifyPrefix_total h s 64 proof New I)
    as (tree1 & proof1 & Hp & Ht1).
  rewrite bitsDown_down, Hp.
  rewrite (verifyLeaves_drains h lh1 xs r Hd1 fuel tree1 Ht1 Hfuel).
  rewrite (verifyLeaves_drains h lh2 xs r Hd2 fuel tree1 Ht1 Hfuel).
  reflexivity.
Qed.

(** Whatever the range, the proof and the expected root,
    [VerifyRangeProof] gives the same result over a stream-backed leaf
    hasher as over a cache-backed one holding the leaf hashes of that
    stream, a short final leaf included. *)
Theorem verify_reader_as_cached (h hl : Hash) (leafSize : nat) (r : bytes)
    (s e : Z) (proof : list bytes) (root : bytes) (fuel : nat) :
  (length r < fuel)%nat ->
  VerifyRangeProof h fuel (NewReaderLeafHasher r hl leafSize) s e proof root
  = VerifyRangeProof h fuel
      (NewCachedLeafHasher (map (leafSum hl) (leavesOf leafSize r)))
      s e proof root.
Proof.
  intros Hfuel.
  apply (VerifyRangeProof_by_drain h _ _
           (map (leafSum hl) (leavesOf leafSize r)) None).
  - apply reader_drains.
  - apply cached_drains.
  - pose proof (length_leavesOf leafSize r). rewrite length_map. lia.
Qed.

Lemma verify_reader_as_cached_witness :
  VerifyRangeProof idHash 4 (NewReaderLeafHasher [x01; x02; x03] idHash 2)
                   0 2 [[x05]] [x00]
  = VerifyRangeProof idHash 4
      (NewCachedLeafHasher (map (leafSum idHash) (leavesOf 2 [x01; x02; x03])))
      0 2 [[x05]] [x00].
Proof.
  apply (verify_reader_as_cached idHash idHash 2 [x01; x02; x03] 0 2
           [[x05]] [x00] 4).
  simpl. lia.
Defined.

(** ** A range that runs past the data *)

Lemma BuildRangeProof_skip_fails {S : Type} `{SubtreeHasher S} (h : Hash)
    (repr : S -> list bytes -> Prop) (faithful : FaithfulHasher h repr)
    (st : S) (leafHashes : list bytes) (s e : Z) :
  repr st leafHashes ->
  Z.of_nat (length leafHashes) < 2 ^ 63 ->
  0 <= s <= Z.of_nat (length leafHashes) -> s < e ->
  (forall st1, repr st1 (skipn (Z.to_nat s) leafHashes) ->
     exists st2, Skip (e - s) st1 = Done (Some ErrUnexpectedEOF, st2)) ->
  exists st', BuildRangeProof s e st = Done ([], Some ErrUnexpectedEOF, st').
Proof.
  intros Hrepr HN Hs Hse Hskip.
  unfold BuildRangeProof.
  rewrite (proj2 (illegalRange_false s e)) by lia.
  rewrite bitsDown_down.
  assert (Hs63 : 0 <= s < 2 ^ 63) by lia.
  assert (Hmod : s mod 2 ^ Z.of_nat 64 = s) by (apply Z.mod_small; simpl; lia).
  destruct (buildPrefix_spec h repr faithful s Hs63 64 ltac:(lia) st
              leafHashes [] Hrepr) as (st1 & Hpre & Hrepr1); [lia|].
  rewrite Hpre. rewrite Hmod in Hrepr1.
  destruct (Hskip st1 Hrepr1) as (st2 & ->).
  exists st2. reflexivity.
Qed.

(** A range that starts inside the data and ends past it gets no proof:
    over either cursor [BuildRangeProof] returns [io.ErrUnexpectedEOF]
    (for the stream-backed cursor, as long as the byte size of the range
    is an [int]). *)
Theorem range_past_the_data (h : Hash) (s e : Z) :
  (forall leafHashes : list bytes,
     Z.of_nat (length leafHashes) < 2 ^ 63 ->
     0 <= s <= Z.of_nat (length leafHashes) ->
     Z.of_nat (length leafHashes) < e ->
     exists st,
       BuildRangeProof s e (NewCachedSubtreeHasher leafHashes h)
       = Done ([], Some ErrUnexpectedEOF, st))
  /\ (forall (leafSize : nat) (leaves : list bytes),
        (0 < leafSize)%nat ->
        Forall (fun l => length l = leafSize) leaves ->
        Z.of_nat (length (concat leaves)) <= maxInt ->
        0 <= s <= Z.of_nat (length leaves) ->
        Z.of_nat (length leaves) < e ->
        Z.of_nat leafSize * (e - s) <= maxInt ->
        exists st,
          BuildRangeProof s e
            (NewReaderSubtreeHasher (concat leaves) leafSize h)
          = Done ([], Some ErrUnexpectedEOF, st)).
Proof.
  split.
  - intros leafHashes HN Hs He.
    apply (BuildRangeProof_skip_fails h (cached_repr h) (cached_faithful h)
             _ leafHashes); try reflexivity; try assumption; try lia.
    intros st1 ->. eexists.
    apply csh_skip_short.
    rewrite length_skipn. lia.
  - intros leafSize leaves Hls Hall Hmax Hs He Hfit.
    pose proof (uniform_length_le leafSize Hls leaves Hall) as HNle.
    apply (BuildRangeProof_skip_fails h (reader_repr h leafSize)
             (reader_faithful h leafSize Hls) _ (map (leafSum h) leaves));
      rewrite ?length_map; try lia.
    + exists leaves. repeat split; assumption.
    + unfold maxInt in Hmax. lia.
    + intros st1 (leaves' & -> & Hall' & Hmap & _ & _). eexists.
      apply rsh_skip_short.
      assert (Hlen' : length leaves' = (length leaves - Z.to_nat s)%nat).
      { rewrite <- (length_map (leafSum h) leaves'), <- Hmap.
        rewrite length_skipn, length_map. reflexivity. }
      rewrite (uniform_concat_length leafSize leaves' Hall'), Hlen'.
      split; [|exact Hfit]. nia.
Qed.

Lemma range_past_the_data_witness :
  exists st,
    BuildRangeProof 5 7
      (NewReaderSubtreeHasher
         (concat [[x10; x00]; [x10; x01]; [x10; x02]; [x10; x03];
                  [x10; x04]; [x10; x05]]) 2 idHash)
    = Done ([], Some ErrUnexpectedEOF, st).
Proof.
  apply (proj2 (range_past_the_data idHash 5 7) 2%nat
           [[x10; x00]; [x10; x01]; [x10; x02]; [x10; x03];
            [x10; x04]; [x10; x05]]).
  - lia.
  - repeat constructor.
  - vm_compute. discriminate.
  - vm_compute. split; discriminate.
  - vm_compute. reflexivity.
  - vm_compute. discriminate.
Defined.

(** ** A proof or an error, never both *)

Section ProofOrError.
Context {S : Type} `{SubtreeHasher S}.

Lemma buildPrefix_error (s : Z) (bits : list Z) :
  forall (st st' : S) (acc proof : list bytes) (err : error),
    buildPrefix bits s st acc = Done (proof, Some err, st') -> proof = [].
Proof.
  induction bits as [|i bits IH]; intros st st' acc proof err;
    cbn [buildPrefix]; [discriminate|].
  destruct (Z.land s (shl1 i) =? 0); [apply IH|].
  destruct (NextSubtreeRoot (shl1 i) st) as [[[root [e1|]] st1]|p];
    try discriminate.
  - intros Heq. injection Heq as <- _ _. reflexivity.
  - apply IH.
Qed.

Lemma buildSuffix_error (m : Z) (bits : list Z) :
  forall (st st' : S) (acc proof : list bytes) (err : error),
    buildSuffix bits m st acc = Done (proof, Some err, st') -> proof = [].
Proof.
  induction bits as [|i bits IH]; intros st st' acc proof err;
    cbn [buildSuffix]; [discriminate|].
  destruct (Z.land m (shl1 i) =? 0); [|apply IH].
  destruct (NextSubtreeRoot (shl1 i) st) as [[[root [[| |a b]|]] st1]|p];
    try discriminate.
  - intros Heq. injection Heq as <- _ _. reflexivity.
  - intros Heq. injection Heq as <- _ _. reflexivity.
  - apply IH.
Qed.

(** Whatever the cursor does, also one that hands back a root together
    with an error, [BuildRangeProof] never returns proof entries next to an
    error. *)
Theorem no_proof_beside_an_error (s e : Z) (sh st : S)
    (proof : list bytes) (err : error) :
  BuildRangeProof s e sh = Done (proof, Some err, st) -> proof = [].
Proof.
  unfold BuildRangeProof. destruct (illegalRange s e); [discriminate|].
  destruct (buildPrefix bitsDown s sh []) as [[[p1 [e1|]] st1]|p] eqn:Hpre;
    try discriminate.
  - intros Heq. injection Heq as <- _ _. reflexivity.
  - destruct (Skip (e - s) st1) as [[[e2|] st2]|p]; try discriminate.
    + intros Heq. injection Heq as <- _ _. reflexivity.
    + apply buildSuffix_error.
Qed.
End ProofOrError.

Lemma no_proof_beside_an_error_witness :
  BuildRangeProof 1 2 (NewCachedSubtreeHasher [] idHash)
  = Done ([], Some EOF, NewCachedSubtreeHasher [] idHash)
  /\ @nil bytes = [].
Proof.
  split; [reflexivity|].
  apply (no_proof_beside_an_error 1 2 (NewCachedSubtreeHasher [] idHash)
           (NewCachedSubtreeHasher [] idHash) [] EOF).
  reflexivity.
Defined.

(** ** Single-leaf proofs checked by hand *)

Section ByHand.
Variable h : Hash.

Lemma verifyPrefix_zero (bits : list Z) (proof : list bytes) (tree : Tree) :
  verifyPrefix h bits 0 proof tree = Done (tree, proof).
Proof.
  induction bits as [|i bits IH]; [destruct proof; reflexivity|].
  rewrite verifyPrefix_skip by (rewrite Z.land_0_l; reflexivity). exact IH.
Qed.

Lemma length_suffixHashes (m : Z) (n : nat) : forall (a : nat) (R : list bytes),
  (length (suffixHashes h a n m R) <= n)%nat.
Proof.
  induction n as [|n IH]; intros a R; [simpl; lia|].
  cbn [suffixHashes]. destruct (Z.testbit m (Z.of_nat a)).
  - specialize (IH (Datatypes.S a) R). lia.
  - destruct R as [|x R']; [simpl; lia|].
    cbn [length]. specialize (IH (Datatypes.S a) (skipn (2 ^ a) (x :: R'))). lia.
Qed.

(** With no bit set in the mask every entry is merged, one level up each
    time, into the single pending subtree. *)
Lemma verifySuffix_zero (n : nat) :
  forall (a : nat) (proof : list bytes) (acc : bytes),
    (length proof <= n)%nat ->
    exists ht,
      verifySuffix h (up a n) 0 proof [ {| height := Z.of_nat a; sum := acc |} ]
      = ([ {| height := ht;
              sum := fold_left (fun c p => nodeSum h c p) proof acc |} ], None).
Proof.
  induction n as [|n IH]; intros a proof acc Hlen.
  - destruct proof; [|simpl in Hlen; lia]. eexists. reflexivity.
  - destruct proof as [|p0 ps].
    + rewrite verifySuffix_nil. eexists. reflexivity.
    + unfold up. cbn [seq map verifySuffix]. fold (up (Datatypes.S a) n).
      rewrite Z.land_0_l. cbn [Z.eqb PushSubTree height].
      destruct (Z.gtb_spec (Z.of_nat a) (Z.of_nat a)); [lia|].
      cbn [joinAllSubTrees height]. rewrite Z.eqb_refl.
      unfold joinSubTrees. cbn [height sum fold_left].
      replace (Z.of_nat a + 1) with (Z.of_nat (Datatypes.S a)) by lia.
      apply IH. simpl in Hlen. lia.
Qed.

Lemma verifyPrefix_stack (s : Z) (Hs : 0 <= s < 2 ^ 63) (k : nat) :
  (k <= 64)%nat ->
  forall (R rest : list bytes) (tree : Tree),
    top_ge (Z.of_nat k) tree ->
    exists stk,
      verifyPrefix h (down k) s (prefixHashes h k s R ++ rest) tree
      = Done (stk ++ tree, rest)
      /\ map sum stk = rev (prefixHashes h k s R).
Proof.
  induction k as [|k IH]; intros Hk R rest tree Ht.
  - exists []. split; [destruct rest; reflexivity|reflexivity].
  - rewrite down_S. cbn [prefixHashes].
    destruct (Z.testbit s (Z.of_nat k)) eqn:Hbit.
    + cbn [app verifyPrefix].
      rewrite land_shl1_testbit, Hbit by lia. cbn [negb].
      rewrite PushSubTree_ok by (eapply top_ge_weaken; [|exact Ht]; lia).
      rewrite joinAll_above
        by (simpl; eapply top_ge_weaken; [|exact Ht]; lia).
      destruct (IH ltac:(lia) (skipn (2 ^ k) R) rest
                  ({| height := Z.of_nat k;
                      sum := orNil (merkleRoot h (firstn (2 ^ k) R)) |} :: tree))
        as (stk & Hv & Hsum); [simpl; lia|].
      exists (stk ++ [ {| height := Z.of_nat k;
                          sum := orNil (merkleRoot h (firstn (2 ^ k) R)) |} ]).
      rewrite Hv, <- app_assoc. split; [reflexivity|].
      rewrite map_app, Hsum. reflexivity.
    + rewrite verifyPrefix_skip
        by (rewrite land_shl1_testbit, Hbit by lia; reflexivity).
      apply IH; [lia|]. eapply top_ge_weaken; [|exact Ht]. lia.
Qed.

Lemma Root_cons_fold (x : bytes) (ht : Z) (stk : Tree) :
  Root h ({| height := ht; sum := x |} :: stk)
  = Some (fold_right (fun p c => nodeSum h p c) x (rev (map sum stk))).
Proof.
  cbn [Root sum]. f_equal.
  rewrite <- fold_left_rev_right, <- map_rev.
  generalize (rev stk) as l. intros l.
  induction l as [|e l IH]; [reflexivity|]. cbn [map fold_right]. rewrite IH.
  reflexivity.
Qed.
Lemma verify_first_leaf (leaf0 : bytes) (proof : list bytes) (root : bytes) :
  (length proof <= 64)%nat ->
  VerifyRangeProof h 2 (NewCachedLeafHasher [leaf0]) 0 1 proof root
  = Some (Done (bytes_eqb (fold_left (fun c p => nodeSum h c p) proof leaf0)
                          root, None)).
Proof.
  intros Hlen.
  unfold VerifyRangeProof.
  rewrite (proj2 (illegalRange_false 0 1)) by lia.
  rewrite verifyPrefix_zero.
  cbn [verifyLeaves NextLeafHash CachedLeafHasher_LeafHasher clh_NextLeafHash
       clh_leafHashes NewCachedLeafHasher PushSubTree New].
  rewrite bitsUp_up.
  destruct (verifySuffix_zero 64 0 proof leaf0 Hlen) as (ht & Hs).
  change (1 - 1) with 0. change (Z.of_nat 0) with 0 in Hs.
  rewrite Hs. reflexivity.
Qed.

Lemma verify_last_leaf (s e : Z) (leafN : bytes) (proof : list bytes)
    (stk : Tree) (root : bytes) :
  0 <= s < e ->
  verifyPrefix h (down 64) s proof New = Done (stk, []) ->
  VerifyRangeProof h 2 (NewCachedLeafHasher [leafN]) s e proof root
  = Some (Done (bytes_eqb
                  (fold_right (fun p c => nodeSum h p c) leafN
                              (rev (map sum stk))) root, None)).
Proof.
  intros Hse Hp.
  unfold VerifyRangeProof.
  rewrite (proj2 (illegalRange_false s e)) by exact Hse.
  rewrite bitsDown_down, Hp.
  assert (Htop : top_ge 0 stk).
  { destruct (verifyPrefix_total h s 64 proof New I) as (t1 & p1 & Hp1 & Ht1).
    congruence. }
  cbn [verifyLeaves NextLeafHash CachedLeafHasher_LeafHasher clh_NextLeafHash
       clh_leafHashes NewCachedLeafHasher].
  rewrite PushSubTree_ok by exact Htop.
  rewrite verifySuffix_nil, Root_joinAll, Root_cons_fold. reflexivity.
Qed.
End ByHand.

Lemma verified_true (b : bool) (err : option error) :
  Some (Done (b, err)) = Some (Done (true, @None error)) -> b = true.
Proof. intros Heq. congruence. Qed.

(** The check of the test on the proof of the first leaf: starting from
    the hash of leaf 0 and folding in the proof entries one after the
    other as right-hand siblings gives the root of the whole sequence. *)
Theorem first_leaf_proof_by_hand (h : Hash) (leaf0 : bytes)
    (others : list bytes) :
  Z.of_nat (length (leaf0 :: others)) < 2 ^ 63 ->
  exists (proof : list bytes) (st : CachedSubtreeHasher),
    BuildRangeProof 0 1 (NewCachedSubtreeHasher (leaf0 :: others) h)
    = Done (proof, None, st)
    /\ fold_left (fun checkRoot p => nodeSum h checkRoot p) proof leaf0
       = orNil (merkleRoot h (leaf0 :: others)).
Proof.
  intros HN.
  assert (HN1 : 1 <= Z.of_nat (length (leaf0 :: others)))
    by (cbn [length]; lia).
  destruct (BuildRangeProof_spec h (cached_repr h) (cached_faithful h)
              (NewCachedSubtreeHasher (leaf0 :: others) h) (leaf0 :: others)
              0 1) as (st & Hb); try reflexivity; try lia.
  exists (rangeProof h (leaf0 :: others) 0 1), st. split; [exact Hb|].
  pose proof (VerifyRangeProof_spec h
                (NewCachedLeafHasher [leaf0]) 2 (leaf0 :: others) 0 1
                (cached_drains [leaf0]) ltac:(simpl; lia) HN ltac:(lia) HN1)
    as Hv.
  assert (Hlen : (length (rangeProof h (leaf0 :: others) 0 1) <= 64)%nat).
  { unfold rangeProof. rewrite prefixHashes_zero. cbn [app].
    apply length_suffixHashes. }
  rewrite (verify_first_leaf h leaf0 _ _ Hlen) in Hv.
  apply verified_true in Hv. apply bytes_eqb_eq in Hv. exact Hv.
Qed.

Lemma first_leaf_proof_by_hand_witness :
  exists (proof : list bytes) (st : CachedSubtreeHasher),
    BuildRangeProof 0 1 (NewCachedSubtreeHasher ([x0a] :: [[x0b]; [x0c]]) idHash)
    = Done (proof, None, st)
    /\ fold_left (fun checkRoot p => nodeSum idHash checkRoot p) proof [x0a]
       = orNil (merkleRoot idHash ([x0a] :: [[x0b]; [x0c]])).
Proof.
  apply (first_leaf_proof_by_hand idHash [x0a] [[x0b]; [x0c]]).
  vm_compute. reflexivity.
Defined.

(** The check of the test on the proof of the last leaf: starting from
    the hash of the last leaf and folding in the proof entries from the
    last to the first as left-hand siblings gives the root of the whole
    sequence. *)
Theorem last_leaf_proof_by_hand (h : Hash) (others : list bytes)
    (leafN : bytes) :
  Z.of_nat (length (others ++ [leafN])) < 2 ^ 63 ->
  exists (proof : list bytes) (st : CachedSubtreeHasher),
    BuildRangeProof (Z.of_nat (length others))
                    (Z.of_nat (length (others ++ [leafN])))
                    (NewCachedSubtreeHasher (others ++ [leafN]) h)
    = Done (proof, None, st)
    /\ fold_right (fun p checkRoot => nodeSum h p checkRoot) leafN proof
       = orNil (merkleRoot h (others ++ [leafN])).
Proof.
  intros HN.
  assert (HL : length (others ++ [leafN]) = Datatypes.S (length others))
    by (rewrite length_app; simpl; lia).
  set (s := Z.of_nat (length others)) in *.
  set (e := Z.of_nat (length (others ++ [leafN]))) in *.
  assert (Hse : 0 <= s < e) by (unfold s, e; lia).
  assert (Hes : Z.to_nat (e - s) = 1%nat) by (unfold s, e; lia).
  destruct (BuildRangeProof_spec h (cached_repr h) (cached_faithful h)
              (NewCachedSubtreeHasher (others ++ [leafN]) h) (others ++ [leafN])
              s e) as (st & Hb); try reflexivity; try (unfold e; lia).
  assert (Hsuf : rangeProof h (others ++ [leafN]) s e
                 = prefixHashes h 64 s (others ++ [leafN])).
  { unfold rangeProof. rewrite <- (app_nil_r (prefixHashes _ _ _ _)) at 2.
    apply f_equal. unfold e.
    rewrite Nat2Z.id, skipn_all. apply suffixHashes_nil. }
  assert (Hrange : firstn (Z.to_nat (e - s))
                     (skipn (Z.to_nat s) (others ++ [leafN])) = [leafN]).
  { rewrite Hes. unfold s. rewrite Nat2Z.id, skipn_app, Nat.sub_diag.
    rewrite skipn_all2 by lia. reflexivity. }
  pose proof (VerifyRangeProof_spec h
                (NewCachedLeafHasher [leafN]) 2 (others ++ [leafN]) s e) as Hv.
  rewrite Hrange in Hv.
  specialize (Hv (cached_drains [leafN]) ltac:(lia) HN Hse ltac:(unfold e; lia)).
  destruct (verifyPrefix_stack h s ltac:(unfold s, e in *; lia) 64 ltac:(lia)
              (others ++ [leafN]) [] New I) as (stk & Hp & Hsum).
  rewrite !app_nil_r in Hp.
  rewrite Hsuf in Hv.
  exists (prefixHashes h 64 s (others ++ [leafN])), st.
  split; [rewrite <- Hsuf; exact Hb|].
  rewrite (verify_last_leaf h s e leafN _ stk _ Hse Hp) in Hv.
  rewrite Hsum, rev_involutive in Hv.
  apply verified_true in Hv. apply bytes_eqb_eq in Hv. exact Hv.
Qed.

Lemma last_leaf_proof_by_hand_witness :
  exists (proof : list bytes) (st : CachedSubtreeHasher),
    BuildRangeProof (Z.of_nat (length [[x0a]; [x0b]]))
                    (Z.of_nat (length ([[x0a]; [x0b]] ++ [[x0c]])))
                    (NewCachedSubtreeHasher ([[x0a]; [x0b]] ++ [[x0c]]) idHash)
    = Done (proof, None, st)
    /\ fold_right (fun p checkRoot => nodeSum idHash p checkRoot) [x0c] proof
       = orNil (merkleRoot idHash ([[x0a]; [x0b]] ++ [[x0c]])).
Proof.
  apply (last_leaf_proof_by_hand idHash [[x0a]; [x0b]] [x0c]).
  vm_compute. reflexivity.
Defined.

(** ** The length of the proof *)

Lemma filter_none {A : Type} (f : A -> bool) (l : list A) :
  (forall x, In x l -> f x = false) -> filter f l = [].
Proof.
  induction l as [|a l IH]; intros Hf; [reflexivity|].
  simpl. rewrite (Hf a) by (left; reflexivity).
  apply IH. intros x Hx. apply Hf. right. exact Hx.
Qed.

Lemma filter_length_le {A : Type} (f g : A -> bool) (l : list A) :
  (forall x, In x l -> f x = true -> g x = true) ->
  (length (filter f l) <= length (filter g l))%nat.
Proof.
  induction l as [|a l IH]; intros Hfg; [simpl; lia|].
  assert (IH' := IH (fun x Hx => Hfg x (or_intror Hx))).
  simpl. destruct (f a) eqn:Hfa.
  - rewrite (Hfg a (or_introl eq_refl) Hfa). simpl. lia.
  - destruct (g a); simpl; lia.
Qed.

Lemma length_prefixHashes (h : Hash) (s : Z) (k : nat) : forall R : list bytes,
  length (prefixHashes h k s R) = setBitsBelow k s.
Proof.
  unfold setBitsBelow.
  induction k as [|k IH]; intros R; [reflexivity|].
  rewrite seq_S, filter_app, length_app. cbn [prefixHashes plus filter].
  destruct (Z.testbit s (Z.of_nat k)); cbn [length]; rewrite IH; lia.
Qed.

Lemma reach_mono (m : Z) (a : nat) : reach m a <= reach m (Datatypes.S a).
Proof.
  rewrite reach_succ.
  assert (0 < 2 ^ Z.of_nat a) by (apply Z.pow_pos_nonneg; lia).
  destruct (Z.testbit m (Z.of_nat a)); lia.
Qed.

(** The second loop adds an entry at bit [i] exactly when the bit is clear
    in [endMask] and a leaf is left at index [reach endMask i]. *)
Lemma length_suffixHashes_exact (h : Hash) (m N : Z) (n : nat) :
  forall (a : nat) (R : list bytes),
    Z.of_nat (length R) = Z.max 0 (N - reach m a) ->
    length (suffixHashes h a n m R)
    = length (filter (fun i => negb (Z.testbit m (Z.of_nat i))
                               && (reach m i <? N)) (seq a n)).
Proof.
  induction n as [|n IH]; intros a R HR; [reflexivity|].
  cbn [suffixHashes seq filter].
  pose proof (reach_succ m a) as Hsucc. pose proof (reach_mono m a) as Hmono.
  assert (Hp : 0 < 2 ^ Z.of_nat a) by (apply Z.pow_pos_nonneg; lia).
  destruct (Z.testbit m (Z.of_nat a)) eqn:Hbit; cbn [negb andb].
  - apply IH. lia.
  - destruct R as [|x R'].
    + cbn [length] in HR |- *.
      destruct (Z.ltb_spec (reach m a) N); [lia|].
      rewrite <- (IH (Datatypes.S a) []) by (cbn [length]; lia).
      rewrite suffixHashes_nil. reflexivity.
    + destruct (Z.ltb_spec (reach m a) N); [|cbn [length] in HR; lia].
      cbn [length]. f_equal. apply IH.
      rewrite length_skipn, Nat2Z.inj_sub_max, pow2_nat. lia.
Qed.

Lemma length_rangeProof (h : Hash) (leafHashes : list bytes) (s e : Z) :
  0 < e <= Z.of_nat (length leafHashes) ->
  length (rangeProof h leafHashes s e)
  = (setBitsBelow 64 s
     + length (filter (fun i => negb (Z.testbit (e - 1)%Z (Z.of_nat i))
                                && (reach (e - 1) i
                                    <? Z.of_nat (length leafHashes))%Z)
                      (seq 0 64)))%nat.
Proof.
  intros He. unfold rangeProof.
  rewrite length_app, length_prefixHashes. f_equal.
  apply length_suffixHashes_exact.
  rewrite reach_0, length_skipn. lia.
Qed.

Lemma reach_below_pow2 (m : Z) (w i : nat) :
  0 <= m < 2 ^ Z.of_nat w -> (i < w)%nat ->
  Z.testbit m (Z.of_nat i) = false ->
  reach m i < 2 ^ Z.of_nat w.
Proof.
  intros Hm Hi Hbit. unfold reach.
  assert (Hp : 0 < 2 ^ Z.of_nat i) by (apply Z.pow_pos_nonneg; lia).
  pose proof (Z.testbit_spec' m (Z.of_nat i) ltac:(lia)) as Hb.
  rewrite Hbit in Hb. simpl Z.b2z in Hb.
  replace (Z.of_nat w) with (Z.of_nat i + (Z.of_nat (w - i - 1) + 1)) in * by lia.
  rewrite Z.pow_add_r, Z.pow_add_r, Z.pow_1_r in * by lia.
  set (P := 2 ^ Z.of_nat (w - i - 1)) in *.
  assert (HP : 0 < P) by (apply Z.pow_pos_nonneg; lia).
  set (q := m / 2 ^ Z.of_nat i) in *.
  assert (Hq : 0 <= q < P * 2).
  { split; [apply Z.div_pos; lia|].
    apply Z.div_lt_upper_bound; lia. }
  pose proof (Z.div_mod q 2 ltac:(lia)) as Hd.
  nia.
Qed.

Lemma proof_length_counts (h : Hash) (leafHashes : list bytes) (s e : Z) (w : nat) :
  Z.of_nat (length leafHashes) < 2 ^ 63 ->
  0 <= s < e -> e <= Z.of_nat (length leafHashes) ->
  Z.of_nat (length leafHashes) <= 2 ^ Z.of_nat w -> (w <= 64)%nat ->
  exists (proof : list bytes) (st : CachedSubtreeHasher),
    BuildRangeProof s e (NewCachedSubtreeHasher leafHashes h)
    = Done (proof, None, st)
    /\ (length proof <= setBitsBelow 64 s + clearBitsBelow w (e - 1))%nat
    /\ (Z.of_nat (length leafHashes) = 2 ^ Z.of_nat w ->
        length proof = (setBitsBelow 64 s + clearBitsBelow w (e - 1))%nat).
Proof.
  intros HN Hse HeN Hw Hw64.
  destruct (BuildRangeProof_spec h (cached_repr h) (cached_faithful h)
              (NewCachedSubtreeHasher leafHashes h) leafHashes s e)
    as (st & Hb); try reflexivity; try assumption.
  exists (rangeProof h leafHashes s e), st. split; [exact Hb|].
  rewrite length_rangeProof by lia.
  set (N := Z.of_nat (length leafHashes)) in *.
  set (f := fun i : nat => negb (Z.testbit (e - 1) (Z.of_nat i))
                           && (reach (e - 1) i <? N)).
  assert (Hsplit : seq 0 64 = seq 0 w ++ seq w (64 - w)).
  { rewrite <- seq_app. f_equal. lia. }
  assert (Hhigh : filter f (seq w (64 - w)) = []).
  { apply filter_none. intros i Hi. apply in_seq in Hi. unfold f.
    pose proof (reach_ge (e - 1) i ltac:(lia)) as Hge.
    assert (2 ^ Z.of_nat w <= 2 ^ Z.of_nat i) by (apply Z.pow_le_mono_r; lia).
    destruct (Z.ltb_spec (reach (e - 1) i) N); [lia|].
    apply andb_false_r. }
  rewrite Hsplit, filter_app, Hhigh, app_nil_r. unfold clearBitsBelow.
  split.
  - apply Nat.add_le_mono_l. apply filter_length_le.
    intros i _ Hf. unfold f in Hf. apply andb_prop in Hf. tauto.
  - intros HNw. f_equal. f_equal. apply filter_ext_in.
    intros i Hi. apply in_seq in Hi. unfold f.
    destruct (Z.testbit (e - 1) (Z.of_nat i)) eqn:Hbit; [reflexivity|].
    cbn [negb andb].
    pose proof (reach_below_pow2 (e - 1) w i ltac:(lia) ltac:(lia) Hbit).
    destruct (Z.ltb_spec (reach (e - 1) i) N); [reflexivity|lia].
Qed.

(** The length of the proof.  On [N < 2^63] leaves, for a range inside the
    tree and any width [w] with [N <= 2^w], the proof has at most as many
    entries as [start] has set bits plus [end - 1] has clear bits below
    [w]; when [N = 2^w] it has exactly that many. *)
Theorem proof_length (h : Hash) (leafHashes : list bytes) (s e : Z) (w : nat) :
  Z.of_nat (length leafHashes) < 2 ^ 63 ->
  0 <= s < e -> e <= Z.of_nat (length leafHashes) ->
  Z.of_nat (length leafHashes) <= 2 ^ Z.of_nat w -> (w <= 64)%nat ->
  exists (proof : list bytes) (st : CachedSubtreeHasher),
    BuildRangeProof s e (NewCachedSubtreeHasher leafHashes h)
    = Done (proof, None, st)
    /\ (length proof <= setBitsBelow 64 s + clearBitsBelow w (e - 1))%nat
    /\ (Z.of_nat (length leafHashes) = 2 ^ Z.of_nat w ->
        length proof = (setBitsBelow 64 s + clearBitsBelow w (e - 1))%nat).
Proof. apply proof_length_counts. Qed.

Lemma proof_length_witness :
  exists (proof : list bytes) (st : CachedSubtreeHasher),
    BuildRangeProof 3 5
      (NewCachedSubtreeHasher (map (leafSum idHash) leaves12) idHash)
    = Done (proof, None, st)
    /\ (length proof <= setBitsBelow 64 3 + clearBitsBelow 4 (5 - 1))%nat
    /\ (Z.of_nat (length (map (leafSum idHash) leaves12)) = 2 ^ Z.of_nat 4 ->
        length proof = (setBitsBelow 64 3 + clearBitsBelow 4 (5 - 1))%nat).
Proof.
  apply (proof_length idHash (map (leafSum idHash) leaves12) 3 5 4).
  - vm_compute. reflexivity.
  - lia.
  - vm_compute. discriminate.
  - vm_compute. discriminate.
  - lia.
Defined.

(** ** The largest proof *)

Lemma filter_all {A : Type} (f : A -> bool) (l : list A) :
  (forall x, In x l -> f x = true) -> filter f l = l.
Proof.
  induction l as [|a l IH]; intros Hf; [reflexivity|].
  simpl. rewrite (Hf a) by (left; reflexivity). f_equal.
  apply IH. intros x Hx. apply Hf. right. exact Hx.
Qed.

Lemma filter_length_bound {A : Type} (f : A -> bool) (l : list A) :
  (length (filter f l) <= length l)%nat.
Proof.
  induction l as [|a l IH]; [simpl; lia|].
  simpl. destruct (f a); simpl; lia.
Qed.

Lemma filter_full {A : Type} (f : A -> bool) (l : list A) :
  length (filter f l) = length l -> forall x, In x l -> f x = true.
Proof.
  induction l as [|a l IH]; intros Hlen x Hx; [destruct Hx|].
  simpl in Hlen. pose proof (filter_length_bound f l) as Hb.
  destruct (f a) eqn:Hfa; simpl in Hlen; [|lia].
  destruct Hx as [<-|Hx]; [exact Hfa|]. apply IH; [lia|exact Hx].
Qed.

Lemma filter_split_length {A : Type} (f : A -> bool) (l : list A) :
  (length (filter f l) + length (filter (fun x => negb (f x)) l))%nat
  = length l.
Proof.
  induction l as [|a l IH]; [reflexivity|].
  simpl. destruct (f a); simpl; lia.
Qed.

Lemma set_plus_clear (w : nat) (x : Z) :
  (setBitsBelow w x + clearBitsBelow w x)%nat = w.
Proof.
  unfold setBitsBelow, clearBitsBelow.
  rewrite filter_split_length. apply length_seq.
Qed.

Lemma testbit_above (x : Z) (w n : nat) :
  0 <= x < 2 ^ Z.of_nat w -> (w <= n)%nat -> Z.testbit x (Z.of_nat n) = false.
Proof.
  intros Hx Hn. apply testbit_high; [|lia].
  assert (2 ^ Z.of_nat w <= 2 ^ Z.of_nat n) by (apply Z.pow_le_mono_r; lia).
  lia.
Qed.

Lemma setBits_full (w : nat) (x : Z) :
  0 <= x < 2 ^ Z.of_nat w -> setBitsBelow w x = w -> x = 2 ^ Z.of_nat w - 1.
Proof.
  intros Hx Hfull. unfold setBitsBelow in Hfull.
  rewrite <- (length_seq w 0) in Hfull at 2.
  pose proof (filter_full _ _ Hfull) as Hall.
  rewrite Z.sub_1_r, <- Z.ones_equiv.
  apply Z.bits_inj'. intros n Hn.
  destruct (Z.ltb_spec n (Z.of_nat w)) as [Hlt|Hge].
  - rewrite Z.ones_spec_low by lia.
    specialize (Hall (Z.to_nat n) ltac:(apply in_seq; lia)).
    simpl in Hall. rewrite Z2Nat.id in Hall by lia. exact Hall.
  - rewrite Z.ones_spec_high by lia.
    rewrite <- (Z2Nat.id n) by lia. apply (testbit_above x w); [exact Hx|lia].
Qed.

Lemma clearBits_full (w : nat) (x : Z) :
  0 <= x < 2 ^ Z.of_nat w -> clearBitsBelow w x = w -> x = 0.
Proof.
  intros Hx Hfull. unfold clearBitsBelow in Hfull.
  rewrite <- (length_seq w 0) in Hfull at 2.
  pose proof (filter_full _ _ Hfull) as Hall.
  apply Z.bits_inj'. intros n Hn. rewrite Z.bits_0.
  destruct (Z.ltb_spec n (Z.of_nat w)) as [Hlt|Hge].
  - specialize (Hall (Z.to_nat n) ltac:(apply in_seq; lia)).
    simpl in Hall. rewrite Z2Nat.id in Hall by lia.
    apply negb_true_iff in Hall. exact Hall.
  - rewrite <- (Z2Nat.id n) by lia. apply (testbit_above x w); [exact Hx|lia].
Qed.

Lemma setBits_narrow (w : nat) (x : Z) :
  0 <= x < 2 ^ Z.of_nat w -> (w <= 64)%nat ->
  setBitsBelow 64 x = setBitsBelow w x.
Proof.
  intros Hx Hw. unfold setBitsBelow.
  replace 64%nat with (w + (64 - w))%nat at 1 by lia.
  rewrite seq_app, filter_app, length_app.
  rewrite (filter_none _ (seq (0 + w) (64 - w))); [simpl; lia|].
  intros i Hi. apply in_seq in Hi. apply (testbit_above x w); [exact Hx|lia].
Qed.

Lemma bits_bound (w : nat) (s m : Z) :
  (2 <= w)%nat -> 0 <= s <= m -> m < 2 ^ Z.of_nat w ->
  (setBitsBelow w s + clearBitsBelow w m <= 2 * w - 2)%nat.
Proof.
  intros Hw Hsm Hm.
  destruct (Z.eq_dec s m) as [->|Hne].
  - rewrite set_plus_clear. lia.
  - pose proof (set_plus_clear w s). pose proof (set_plus_clear w m).
    assert (setBitsBelow w s <> w).
    { intros Hfull. apply setBits_full in Hfull; lia. }
    assert (clearBitsBelow w m <> w).
    { intros Hfull. apply clearBits_full in Hfull; lia. }
    lia.
Qed.

Lemma setBits_ones (w : nat) :
  setBitsBelow (Datatypes.S w) (2 ^ Z.of_nat w - 1) = w.
Proof.
  unfold setBitsBelow. rewrite seq_S, filter_app, length_app.
  rewrite Z.sub_1_r, <- Z.ones_equiv.
  rewrite filter_all.
  - cbn [plus filter]. rewrite Z.ones_spec_high by lia.
    rewrite length_seq. simpl. lia.
  - intros i Hi. apply in_seq in Hi. apply Z.ones_spec_low. lia.
Qed.

Lemma clearBits_pow2 (w : nat) :
  clearBitsBelow (Datatypes.S w) (2 ^ Z.of_nat w) = w.
Proof.
  unfold clearBitsBelow. rewrite seq_S, filter_app, length_app.
  rewrite filter_all.
  - cbn [plus filter]. rewrite Z.pow2_bits_true by lia.
    rewrite length_seq. simpl. lia.
  - intros i Hi. apply in_seq in Hi.
    rewrite Z.pow2_bits_false by lia. reflexivity.
Qed.

(** "This is the largest possible proof": on [2^w] leaves with [w >= 2],
    no range inside the tree gets a proof of more than [2w - 2] entries,
    and the two leaves around the midpoint get one of exactly that many. *)
Theorem largest_proof_at_midpoint (h : Hash) (leafHashes : list bytes)
    (w : nat) :
  (2 <= w <= 62)%nat ->
  Z.of_nat (length leafHashes) = 2 ^ Z.of_nat w ->
  (forall s e : Z,
     0 <= s < e -> e <= Z.of_nat (length leafHashes) ->
     exists (proof : list bytes) (st : CachedSubtreeHasher),
       BuildRangeProof s e (NewCachedSubtreeHasher leafHashes h)
       = Done (proof, None, st)
       /\ (length proof <= 2 * w - 2)%nat)
  /\ exists (proof : list bytes) (st : CachedSubtreeHasher),
       BuildRangeProof (Z.of_nat (length leafHashes) / 2 - 1)
                       (Z.of_nat (length leafHashes) / 2 + 1)
                       (NewCachedSubtreeHasher leafHashes h)
       = Done (proof, None, st)
       /\ length proof = (2 * w - 2)%nat.
Proof.
  intros Hw HN.
  assert (H63 : 2 ^ Z.of_nat w < 2 ^ 63) by (apply Z.pow_lt_mono_r; lia).
  assert (Hhalf : 2 ^ Z.of_nat w = 2 * 2 ^ Z.of_nat (w - 1)).
  { rewrite <- Z.pow_succ_r by lia. f_equal. lia. }
  assert (Hp1 : 2 <= 2 ^ Z.of_nat (w - 1)).
  { change 2 with (2 ^ 1) at 1. apply Z.pow_le_mono_r; lia. }
  split.
  - intros s e Hse HeN.
    destruct (proof_length_counts h leafHashes s e w) as (proof & st & Hb & _ & Hlen);
      try lia.
    exists proof, st. split; [exact Hb|].
    rewrite (Hlen HN), (setBits_narrow w s) by lia.
    apply bits_bound; lia.
  - destruct (proof_length_counts h leafHashes
                (Z.of_nat (length leafHashes) / 2 - 1)
                (Z.of_nat (length leafHashes) / 2 + 1) w)
      as (proof & st & Hb & _ & Hlen); rewrite ?HN, ?Hhalf;
      rewrite ?(Z.mul_comm 2), ?Z.div_mul by lia; try lia.
    exists proof, st.
    rewrite HN, Hhalf, (Z.mul_comm 2), Z.div_mul in Hb, Hlen by lia.
    split; [exact Hb|].
    rewrite Hlen by lia.
    rewrite (setBits_narrow w) by lia.
    replace (2 ^ Z.of_nat (w - 1) + 1 - 1) with (2 ^ Z.of_nat (w - 1)) by lia.
    assert (Hs1 : setBitsBelow w (2 ^ Z.of_nat (w - 1) - 1) = (w - 1)%nat).
    { destruct w as [|w']; [lia|].
      replace (Datatypes.S w' - 1)%nat with w' by lia. apply setBits_ones. }
    assert (Hc1 : clearBitsBelow w (2 ^ Z.of_nat (w - 1)) = (w - 1)%nat).
    { destruct w as [|w']; [lia|].
      replace (Datatypes.S w' - 1)%nat with w' by lia. apply clearBits_pow2. }
    rewrite Hs1, Hc1. lia.
Qed.

Lemma largest_proof_at_midpoint_witness :
  exists (proof : list bytes) (st : CachedSubtreeHasher),
    BuildRangeProof
      (Z.of_nat (length [[x00]; [x01]; [x02]; [x03]]) / 2 - 1)
      (Z.of_nat (length [[x00]; [x01]; [x02]; [x03]]) / 2 + 1)
      (NewCachedSubtreeHasher [[x00]; [x01]; [x02]; [x03]] idHash)
    = Done (proof, None, st)
    /\ length proof = (2 * 2 - 2)%nat.
Proof.
  apply (proj2 (largest_proof_at_midpoint idHash
                  [[x00]; [x01]; [x02]; [x03]] 2 ltac:(lia) eq_refl)).
Defined.

(** ** The calls [BuildRangeProof] makes *)

Section Calls.
Context {S : Type} `{SubtreeHasher S}.

Lemma buildPrefix_calls (s : Z) (bits : list Z) :
  forall (sh : S) (log : list call) (acc proof : list bytes)
         (err : option error) (r' : Recorder S),
    buildPrefix bits s (mkRecorder log sh) acc = Done (proof, err, r') ->
    exists calls rest,
      rec_calls r' = log ++ calls
      /\ prefixCallsOver bits s = calls ++ rest
      /\ (err = None -> rest = [])
      /\ buildPrefix bits s sh acc = Done (proof, err, rec_sh r').
Proof.
  unfold prefixCallsOver.
  induction bits as [|i bits IH]; intros sh log acc proof err r';
    cbn [buildPrefix filter].
  - intros Heq. injection Heq as <- <- <-. exists [], [].
    rewrite app_nil_r. repeat split; reflexivity.
  - destruct (Z.land s (shl1 i) =? 0); cbn [negb]; [apply IH|].
    unfold NextSubtreeRoot at 1; cbn [Recorder_SubtreeHasher].
    unfold rec_NextSubtreeRoot. cbn [rec_sh rec_calls].
    destruct (NextSubtreeRoot (shl1 i) sh) as [[[root [e1|]] sh1]|p];
      [| |discriminate].
    + intros Heq. injection Heq as <- <- <-.
      exists [CallNextSubtreeRoot (shl1 i)], (map (fun i => CallNextSubtreeRoot (shl1 i))
                (filter (fun i => negb (Z.land s (shl1 i) =? 0)) bits)).
      repeat split; try reflexivity. discriminate.
    + intros Heq. apply IH in Heq.
      destruct Heq as (calls & rest & Hlog & Hpat & Hrest & Hsame).
      exists (CallNextSubtreeRoot (shl1 i) :: calls), rest.
      rewrite Hlog, <- app_assoc. cbn [map app]. rewrite Hpat.
      repeat split; try reflexivity; assumption.
Qed.

Lemma buildSuffix_calls (m : Z) (bits : list Z) :
  forall (sh : S) (log : list call) (acc proof : list bytes)
         (err : option error) (r' : Recorder S),
    buildSuffix bits m (mkRecorder log sh) acc = Done (proof, err, r') ->
    exists calls rest,
      rec_calls r' = log ++ calls
      /\ suffixCallsOver bits m = calls ++ rest
      /\ buildSuffix bits m sh acc = Done (proof, err, rec_sh r').
Proof.
  unfold suffixCallsOver.
  induction bits as [|i bits IH]; intros sh log acc proof err r';
    cbn [buildSuffix filter].
  - intros Heq. injection Heq as <- <- <-. exists [], [].
    rewrite app_nil_r. repeat split; reflexivity.
  - destruct (Z.land m (shl1 i) =? 0); [|apply IH].
    unfold NextSubtreeRoot at 1; cbn [Recorder_SubtreeHasher].
    unfold rec_NextSubtreeRoot. cbn [rec_sh rec_calls].
    destruct (NextSubtreeRoot (shl1 i) sh) as [[[root [e1|]] sh1]|p];
      [| |discriminate].
    + intros Heq.
      exists [CallNextSubtreeRoot (shl1 i)], (map (fun i => CallNextSubtreeRoot (shl1 i))
                (filter (fun i => Z.land m (shl1 i) =? 0) bits)).
      destruct e1; injection Heq as <- <- <-; repeat split; reflexivity.
    + intros Heq. apply IH in Heq.
      destruct Heq as (calls & rest & Hlog & Hpat & Hsame).
      exists (CallNextSubtreeRoot (shl1 i) :: calls), rest.
      rewrite Hlog, <- app_assoc. cbn [map app]. rewrite Hpat.
      repeat split; try reflexivity; assumption.
Qed.

(** Whatever the cursor, the calls [BuildRangeProof] makes on it are an
    initial part of one fixed list: [NextSubtreeRoot(1 << i)] for the bits
    [i] set in [proofStart], from bit 63 down; then [Skip(proofEnd -
    proofStart)]; then [NextSubtreeRoot(1 << i)] for the bits clear in
    [proofEnd - 1], from bit 0 up.  The list is cut short only by a failing
    call or by [io.EOF]; when no error is returned the calls reach at least
    past [Skip].  Watching the calls changes nothing in the result. *)
Theorem build_call_pattern (s e : Z) (sh : S) (log : list call)
    (proof : list bytes) (err : option error) (r' : Recorder S) :
  BuildRangeProof s e (mkRecorder log sh) = Done (proof, err, r') ->
  (exists calls rest,
     rec_calls r' = log ++ calls
     /\ callPattern s e = calls ++ rest
     /\ (err = None ->
         exists tail,
           calls = prefixCallsOver bitsDown s ++ CallSkip (e - s) :: tail))
  /\ BuildRangeProof s e sh = Done (proof, err, rec_sh r').
Proof.
  unfold BuildRangeProof, callPattern.
  destruct (illegalRange s e); [discriminate|].
  destruct (buildPrefix bitsDown s (mkRecorder log sh) [])
    as [[[p1 e1] r1]|p] eqn:Hpre; [|discriminate].
  apply buildPrefix_calls in Hpre.
  destruct Hpre as (c1 & rest1 & Hlog1 & Hpat1 & Hrest1 & Hsame1).
  rewrite Hsame1. destruct e1 as [e1|].
  - intros Heq. injection Heq as <- <- <-. split; [|reflexivity].
    exists c1, (rest1 ++ CallSkip (e - s) :: suffixCallsOver bitsUp (e - 1)).
    rewrite Hpat1, <- app_assoc. repeat split; try assumption. discriminate.
  - rewrite (Hrest1 eq_refl), app_nil_r in Hpat1.
    unfold Skip at 1; cbn [Recorder_SubtreeHasher].
    unfold rec_Skip. destruct r1 as [log1 sh1]. cbn [rec_sh rec_calls] in *.
    destruct (Skip (e - s) sh1) as [[[e2|] sh2]|p]; [| |discriminate].
    + intros Heq. injection Heq as <- <- <-. split; [|reflexivity].
      exists (c1 ++ [CallSkip (e - s)]), (suffixCallsOver bitsUp (e - 1)).
      cbn [rec_calls]. rewrite Hlog1, Hpat1, <- !app_assoc.
      repeat split; try reflexivity. discriminate.
    + intros Hsuf. apply buildSuffix_calls in Hsuf.
      destruct Hsuf as (c2 & rest2 & Hlog2 & Hpat2 & Hsame2).
      split; [|exact Hsame2].
      exists (c1 ++ CallSkip (e - s) :: c2), rest2.
      rewrite Hlog2, Hlog1, Hpat1, Hpat2, <- !app_assoc. cbn [app].
      repeat split; try reflexivity.
      intros _. exists c2. reflexivity.
Qed.
End Calls.

Lemma build_call_pattern_witness :
  (exists calls rest,
     rec_calls (mkRecorder [CallNextSubtreeRoot 1; CallSkip 1;
                            CallNextSubtreeRoot 2; CallNextSubtreeRoot 4]
                           (NewCachedSubtreeHasher [] idHash))
     = [] ++ calls
     /\ callPattern 1 2 = calls ++ rest
     /\ (@None error = None ->
         exists tail,
           calls = prefixCallsOver bitsDown 1 ++ CallSkip (2 - 1) :: tail))
  /\ BuildRangeProof 1 2
       (NewCachedSubtreeHasher [[x0a]; [x0b]; [x0c]] idHash)
     = Done ([[x0a]; [x0c]], None, NewCachedSubtreeHasher [] idHash).
Proof.
  apply (build_call_pattern 1 2
           (NewCachedSubtreeHasher [[x0a]; [x0b]; [x0c]] idHash) []
           [[x0a]; [x0c]] None).
  vm_compute. reflexivity.
Defined.

Lemma In_prefixCalls (s n : Z) (bits : list Z) :
  In (CallNextSubtreeRoot n) (prefixCallsOver bits s) ->
  exists i, In i bits /\ n = shl1 i.
Proof.
  unfold prefixCallsOver. intros Hin. apply in_map_iff in Hin.
  destruct Hin as (i & Heq & Hi). apply filter_In in Hi.
  exists i. split; [tauto|congruence].
Qed.

Lemma In_suffixCalls (m n : Z) (bits : list Z) :
  In (CallNextSubtreeRoot n) (suffixCallsOver bits m) ->
  exists i, In i bits /\ n = shl1 i.
Proof.
  unfold suffixCallsOver. intros Hin. apply in_map_iff in Hin.
  destruct Hin as (i & Heq & Hi). apply filter_In in Hi.
  exists i. split; [tauto|congruence].
Qed.

Lemma In_bitsUp (i : Z) : In i bitsUp <-> 0 <= i < 64.
Proof.
  unfold bitsUp. rewrite in_map_iff. split.
  - intros (k & <- & Hk). apply in_seq in Hk. lia.
  - intros Hi. exists (Z.to_nat i). split; [lia|]. apply in_seq. lia.
Qed.

Lemma callPattern_eq (s e : Z) :
  callPattern s e
  = prefixCallsOver bitsDown s
    ++ CallSkip (e - s) :: suffixCallsOver bitsUp (e - 1).
Proof. reflexivity. Qed.

Lemma bitsUp_split : bitsUp = up 0 63 ++ [63].
Proof. reflexivity. Qed.

(** The sizes asked for are the powers of two [2^0 .. 2^62], with one
    exception: for any legal range of [int]s the fixed list ends with the
    call at bit 63, whose argument [1 << 63] is the negative number
    [-2^63]. *)
Theorem call_pattern_sizes (s e : Z) :
  0 <= s < e -> e < 2 ^ 63 ->
  (forall n, In (CallNextSubtreeRoot n) (callPattern s e) ->
     (exists i, 0 <= i < 63 /\ n = 2 ^ i) \/ n = - 2 ^ 63)
  /\ exists before,
       callPattern s e = before ++ [CallNextSubtreeRoot (- 2 ^ 63)].
Proof.
  intros Hse He. split.
  - intros n Hin. rewrite callPattern_eq in Hin.
    apply in_app_or in Hin.
    assert (Hi : exists i, 0 <= i < 64 /\ n = shl1 i).
    { destruct Hin as [Hin|Hin].
      - apply In_prefixCalls in Hin. destruct Hin as (i & Hi & ->).
        exists i. split; [|reflexivity].
        apply In_bitsUp. unfold bitsDown in Hi. rewrite <- in_rev in Hi.
        exact Hi.
      - apply in_inv in Hin. destruct Hin as [Hin|Hin]; [discriminate|].
        apply In_suffixCalls in Hin. destruct Hin as (i & Hi & ->).
        exists i. split; [|reflexivity]. apply In_bitsUp. exact Hi. }
    destruct Hi as (i & Hi & ->).
    destruct (Z.eq_dec i 63) as [->|Hne]; [right; exact shl1_63|].
    left. exists i. split; [lia|]. apply shl1_small. lia.
  - rewrite callPattern_eq. unfold suffixCallsOver.
    rewrite bitsUp_split.
    rewrite filter_app, map_app. cbn [filter].
    rewrite land_shl1_testbit by lia.
    rewrite (testbit_high (e - 1) 63) by lia. cbn [negb map].
    rewrite shl1_63.
    exists (prefixCallsOver bitsDown s
            ++ CallSkip (e - s)
            :: map (fun i : Z => CallNextSubtreeRoot (shl1 i))
                 (filter (fun i : Z => Z.land (e - 1) (shl1 i) =? 0)
                         (up 0 63))).
    rewrite <- app_assoc. reflexivity.
Qed.

Lemma call_pattern_sizes_witness :
  (forall n, In (CallNextSubtreeRoot n) (callPattern 3 5) ->
     (exists i, 0 <= i < 63 /\ n = 2 ^ i) \/ n = - 2 ^ 63)
  /\ exists before,
       callPattern 3 5 = before ++ [CallNextSubtreeRoot (- 2 ^ 63)].
Proof.
  apply (call_pattern_sizes 3 5); lia.
Defined.

(** ** The decorator with precomputed roots *)

Section BlockRoots.
Variable h : Hash.

Lemma merkleRoot_pair (k : nat) (B1 B2 : list bytes) :
  length B1 = (2 ^ k)%nat -> length B2 = (2 ^ k)%nat ->
  merkleRoot h (B1 ++ B2)
  = Some (nodeSum h (orNil (merkleRoot h B1)) (orNil (merkleRoot h B2))).
Proof.
  intros H1 H2. unfold merkleRoot at 1.
  rewrite pushLeafHashes_app.
  rewrite (push_complete h k B1 New H1 I).
  cbn [joinAllSubTrees New].
  rewrite (push_complete h k B2) by (try exact H2; simpl; lia).
  cbn [joinAllSubTrees height]. rewrite Z.eqb_refl. reflexivity.
Qed.

Lemma length_concat_uniform (j : nat) (blocks : list (list bytes)) :
  Forall (fun b => length b = j) blocks ->
  length (concat blocks) = (length blocks * j)%nat.
Proof.
  induction 1 as [|b blocks Hb _ IH]; [reflexivity|].
  simpl. rewrite length_app, Hb, IH. reflexivity.
Qed.

(** The root over the roots of [2^k] blocks of [2^j] leaves each is the
    root over all their leaves. *)
Lemma merkleRoot_of_block_roots (j k : nat) :
  forall blocks : list (list bytes),
    length blocks = (2 ^ k)%nat ->
    Forall (fun b => length b = (2 ^ j)%nat) blocks ->
    merkleRoot h (map (fun b => orNil (merkleRoot h b)) blocks)
    = merkleRoot h (concat blocks).
Proof.
  induction k as [|k IH]; intros blocks Hlen Hall.
  - destruct blocks as [|b [|b' blocks]]; try discriminate.
    cbn [map concat]. rewrite app_nil_r.
    destruct (merkleRoot_nonempty h b) as (r & Hr).
    { inversion Hall as [|? ? Hb _]; subst.
      assert (0 < 2 ^ j)%nat by (apply Nat.neq_0_lt_0, Nat.pow_nonzero; lia).
      destruct b; [simpl in Hb; lia|discriminate]. }
    rewrite Hr. reflexivity.
  - assert (Hpos : (0 < 2 ^ k)%nat)
      by (apply Nat.neq_0_lt_0, Nat.pow_nonzero; lia).
    assert (H1 : length (firstn (2 ^ k) blocks) = (2 ^ k)%nat)
      by (rewrite length_firstn, Hlen; simpl; lia).
    assert (H2 : length (skipn (2 ^ k) blocks) = (2 ^ k)%nat)
      by (rewrite length_skipn, Hlen; simpl; lia).
    pose proof Hall as Hall'.
    rewrite <- (firstn_skipn (2 ^ k) blocks) in Hall'.
    apply Forall_app in Hall'. destruct Hall' as [Hall1 Hall2].
    rewrite <- (firstn_skipn (2 ^ k) blocks).
    rewrite map_app, concat_app.
    rewrite (merkleRoot_pair k) by (rewrite length_map; assumption).
    rewrite (merkleRoot_pair (k + j))
      by (rewrite length_concat_uniform with (j := (2 ^ j)%nat),
            ?H1, ?H2, ?Nat.pow_add_r by assumption; reflexivity).
    rewrite (IH _ H1 Hall1), (IH _ H2 Hall2). reflexivity.
Qed.

Lemma pushRoots_as_leaves (roots : list bytes) : forall t : Tree,
  top_ge 0 t -> pushRoots h roots t = pushLeafHashes h roots t.
Proof.
  unfold pushRoots, pushLeafHashes.
  induction roots as [|r roots IH]; intros t Ht; [reflexivity|].
  cbn [fold_left]. rewrite PushSubTree_ok by exact Ht. cbn [fst].
  apply IH. apply top_ge_joinAll. simpl. lia.
Qed.
End BlockRoots.

(** When the next [2^k] precomputed roots are the roots of the next [2^k]
    blocks of [2^j] leaves, the decorator answers
    [NextSubtreeRoot(2^(j+k))] from those roots alone with the root the
    base cursor would compute from the leaves, uses the roots up, and
    leaves the base cursor where the base cursor's own call would leave
    it. *)
Theorem precalc_next_on_whole_blocks (h : Hash) (j k : nat)
    (blocks : list (list bytes)) (more rest : list bytes) :
  (j + k < 63)%nat ->
  length blocks = (2 ^ k)%nat ->
  Forall (fun b => length b = (2 ^ j)%nat) blocks ->
  exists (root : bytes) (st : CachedSubtreeHasher),
    NextSubtreeRoot (2 ^ Z.of_nat (j + k))
                    (NewCachedSubtreeHasher (concat blocks ++ rest) h)
    = Done (root, None, st)
    /\ NextSubtreeRoot (2 ^ Z.of_nat (j + k))
         (newPrecalcSubtreeHasher
            (map (fun b => orNil (merkleRoot h b)) blocks ++ more)
            (2 ^ Z.of_nat j) h
            (NewCachedSubtreeHasher (concat blocks ++ rest) h))
       = Done (root, None,
               newPrecalcSubtreeHasher more (2 ^ Z.of_nat j) h st).
Proof.
  intros Hjk Hlen Hall.
  assert (Hpj : 0 < 2 ^ Z.of_nat j) by (apply Z.pow_pos_nonneg; lia).
  assert (Hpk : 0 < 2 ^ Z.of_nat k) by (apply Z.pow_pos_nonneg; lia).
  assert (Hn : 2 ^ Z.of_nat (j + k) = 2 ^ Z.of_nat k * 2 ^ Z.of_nat j).
  { rewrite Nat2Z.inj_add, Z.pow_add_r by lia. lia. }
  assert (Hk63 : 2 ^ Z.of_nat k < 2 ^ 63) by (apply Z.pow_lt_mono_r; lia).
  assert (Hcat : length (concat blocks) = Z.to_nat (2 ^ Z.of_nat (j + k))).
  { rewrite (length_concat_uniform (2 ^ j) blocks Hall), Hlen.
    rewrite pow2_to_nat, Nat.pow_add_r. lia. }
  assert (Hne : concat blocks ++ rest <> []).
  { intros Hnil. apply (f_equal (@length bytes)) in Hnil.
    rewrite length_app, Hcat in Hnil. simpl in Hnil.
    assert (0 < 2 ^ Z.of_nat (j + k)) by (apply Z.pow_pos_nonneg; lia). lia. }
  exists (orNil (merkleRoot h (concat blocks))),
         (NewCachedSubtreeHasher rest h).
  split.
  - rewrite cached_next_hashes by exact Hne.
    rewrite <- Hcat, firstn_app, Nat.sub_diag, firstn_all, firstn_O, app_nil_r.
    rewrite skipn_app, Nat.sub_diag, skipn_all. reflexivity.
  - unfold NextSubtreeRoot at 1; cbn [precalc_SubtreeHasher].
    unfold precalc_NextSubtreeRoot, newPrecalcSubtreeHasher.
    cbn [p_precalc p_subtreeSize p_h p_sh].
    destruct (Z.eqb_spec (2 ^ Z.of_nat j) 0); [lia|].
    rewrite Hn, Z.rem_mul, Z.quot_mul by lia.
    rewrite wrap64_small by lia.
    rewrite length_app, length_map, Hlen, Nat2Z.inj_add, pow2_nat.
    destruct (Z.geb_spec (2 ^ Z.of_nat k + Z.of_nat (length more))
                         (2 ^ Z.of_nat k)); [|lia].
    cbn [Z.eqb andb].
    destruct (Z.ltb_spec (2 ^ Z.of_nat k) 0); [lia|].
    rewrite pow2_to_nat.
    replace (2 ^ k)%nat
      with (length (map (fun b => orNil (merkleRoot h b)) blocks))
      by (rewrite length_map; exact Hlen).
    rewrite firstn_app, Nat.sub_diag, firstn_all, firstn_O, app_nil_r.
    rewrite skipn_app, Nat.sub_diag, skipn_all. cbn [app].
    rewrite pushRoots_as_leaves by exact I.
    fold (merkleRoot h (map (fun b => orNil (merkleRoot h b)) blocks)).
    rewrite (merkleRoot_of_block_roots h j k blocks Hlen Hall).
    rewrite <- Hn.
    unfold Skip; cbn [CachedSubtreeHasher_SubtreeHasher].
    unfold csh_Skip, NewCachedSubtreeHasher. cbn [csh_leafHashes csh_h].
    rewrite length_app, Hcat.
    assert (0 < 2 ^ Z.of_nat (j + k)) by (apply Z.pow_pos_nonneg; lia).
    destruct (Z.gtb_spec (2 ^ Z.of_nat (j + k))
                (Z.of_nat (Z.to_nat (2 ^ Z.of_nat (j + k)) + length rest)));
      [lia|].
    destruct (Z.ltb_spec (2 ^ Z.of_nat (j + k)) 0); [lia|].
    rewrite <- Hcat, skipn_app, Nat.sub_diag, skipn_all. reflexivity.
Qed.

Lemma precalc_next_on_whole_blocks_witness :
  exists (root : bytes) (st : CachedSubtreeHasher),
    NextSubtreeRoot (2 ^ Z.of_nat (1 + 1))
                    (NewCachedSubtreeHasher
                       (concat [[[x01]; [x02]]; [[x03]; [x04]]] ++ [[x05]])
                       idHash)
    = Done (root, None, st)
    /\ NextSubtreeRoot (2 ^ Z.of_nat (1 + 1))
         (newPrecalcSubtreeHasher
            (map (fun b => orNil (merkleRoot idHash b))
                 [[[x01]; [x02]]; [[x03]; [x04]]] ++ [[x0f]])
            (2 ^ Z.of_nat 1) idHash
            (NewCachedSubtreeHasher
               (concat [[[x01]; [x02]]; [[x03]; [x04]]] ++ [[x05]]) idHash))
       = Done (root, None,
               newPrecalcSubtreeHasher [[x0f]] (2 ^ Z.of_nat 1) idHash st).
Proof.
  apply (precalc_next_on_whole_blocks idHash 1 1
           [[[x01]; [x02]]; [[x03]; [x04]]] [[x0f]] [[x05]]).
  - lia.
  - reflexivity.
  - repeat constructor.
Defined.

(** ** A changed proof is not accepted *)

Section Tamper.
Variable h : Hash.
Hypothesis h_free : collisionFree h.
Hypothesis h_regular : lengthRegular h.

Lemma sameShape_eq (x y : subTree) :
  height x = height y -> sum x = sum y -> x = y.
Proof. destruct x, y; simpl; intros -> ->; reflexivity. Qed.

Lemma joinSubTrees_shape (a a' b b' : subTree) :
  sameShape a a' -> sameShape b b' ->
  sameShape (joinSubTrees h a b) (joinSubTrees h a' b').
Proof.
  intros [Ha1 Ha2] [Hb1 Hb2]. split; simpl; [lia|].
  apply h_regular; assumption.
Qed.

Lemma joinAll_shape (stk stk' : Tree) :
  Forall2 sameShape stk stk' ->
  forall x x', sameShape x x' ->
    Forall2 sameShape (joinAllSubTrees h x stk) (joinAllSubTrees h x' stk').
Proof.
  induction 1 as [|nxt nxt' rest rest' Hn Hrest IH]; intros x x' Hx; simpl.
  - constructor; [exact Hx|constructor].
  - destruct Hx as [Hx1 Hx2]. destruct Hn as [Hn1 Hn2].
    rewrite <- Hx1, <- Hn1.
    destruct (height x =? height nxt).
    + apply IH. apply joinSubTrees_shape; split; assumption.
    + constructor; [split; assumption|].
      constructor; [split; assumption|assumption].
Qed.

Lemma joinAll_inj (stk stk' : Tree) :
  Forall2 sameShape stk stk' ->
  forall x x', sameShape x x' ->
    joinAllSubTrees h x stk = joinAllSubTrees h x' stk' ->
    x = x' /\ stk = stk'.
Proof.
  induction 1 as [|nxt nxt' rest rest' Hn Hrest IH]; intros x x' Hx; simpl.
  - intros Heq. injection Heq as ->. split; reflexivity.
  - destruct Hx as [Hx1 Hx2]. destruct Hn as [Hn1 Hn2].
    rewrite <- Hx1, <- Hn1.
    destruct (height x =? height nxt).
    + intros Heq. apply IH in Heq.
      2:{ apply joinSubTrees_shape; split; assumption. }
      destruct Heq as [Hj ->].
      unfold joinSubTrees in Hj. injection Hj as _ Hsum.
      apply h_free in Hsum; [|exact Hn2]. destruct Hsum as [Hs1 Hs2].
      rewrite (sameShape_eq x x' Hx1 Hs2), (sameShape_eq nxt nxt' Hn1 Hs1).
      split; reflexivity.
    + intros Heq. injection Heq as -> -> ->. split; reflexivity.
Qed.

Lemma PushSubTree_shape (i : Z) (p p' : bytes) (t t' : Tree) :
  Forall2 sameShape t t' -> sameLength p p' ->
  match PushSubTree h i p t, PushSubTree h i p' t' with
  | (u, None), (u', None) =>
      Forall2 sameShape u u' /\ (u = u' -> p = p' /\ t = t')
  | (_, Some _), (_, Some _) => True
  | _, _ => False
  end.
Proof.
  intros Ht Hp. unfold PushSubTree.
  destruct Ht as [|top top' rest rest' Htop Hrest].
  - split; [constructor; [split; [reflexivity|exact Hp]|constructor]|].
    intros Heq. injection Heq as ->. split; reflexivity.
  - destruct Htop as [Ht1 Ht2]. rewrite <- Ht1.
    destruct (i >? height top); [exact I|].
    assert (Hstk : Forall2 sameShape (top :: rest) (top' :: rest'))
      by (constructor; [split; assumption|assumption]).
    assert (Hx : sameShape {| height := i; sum := p |}
                           {| height := i; sum := p' |})
      by (split; [reflexivity|exact Hp]).
    split; [apply joinAll_shape; assumption|].
    intros Heq. apply (joinAll_inj _ _ Hstk _ _ Hx) in Heq.
    destruct Heq as [Heq ->]. injection Heq as ->. split; reflexivity.
Qed.

Lemma verifyPrefix_shape (s : Z) (bits : list Z) :
  forall (proof proof' : list bytes) (t t' : Tree),
    Forall2 sameLength proof proof' -> Forall2 sameShape t t' ->
    match verifyPrefix h bits s proof t, verifyPrefix h bits s proof' t' with
    | Done (u, r), Done (u', r') =>
        Forall2 sameShape u u' /\ Forall2 sameLength r r'
        /\ (u = u' -> r = r' -> proof = proof' /\ t = t')
    | Abort _, Abort _ => True
    | _, _ => False
    end.
Proof.
  induction bits as [|i bits IH]; intros proof proof' t t' Hp Ht.
  - cbn [verifyPrefix].
    split; [exact Ht|]. split; [exact Hp|].
    intros Hu Hr. split; assumption.
  - destruct Hp as [|p0 p0' ps ps' Hp0 Hps]; cbn [verifyPrefix].
    + split; [exact Ht|]. split; [constructor|].
      intros Hu _. split; [reflexivity|exact Hu].
    + destruct (Z.land s (shl1 i) =? 0).
      * apply IH; [constructor; assumption|exact Ht].
      * pose proof (PushSubTree_shape i p0 p0' t t' Ht Hp0) as Hpush.
        destruct (PushSubTree h i p0 t) as [u [e1|]];
          destruct (PushSubTree h i p0' t') as [u' [e1'|]];
          try exact Hpush; try (exfalso; exact Hpush).
        destruct Hpush as [Hu Hinj].
        specialize (IH ps ps' u u' Hps Hu).
        destruct (verifyPrefix h bits s ps u) as [[v r]|];
          destruct (verifyPrefix h bits s ps' u') as [[v' r']|];
          try exact IH; try (exfalso; exact IH).
        destruct IH as (Hv & Hr & Hback).
        split; [exact Hv|]. split; [exact Hr|].
        intros Ev Er. destruct (Hback Ev Er) as [Eps Eu].
        destruct (Hinj Eu) as [Ep0 Et].
        split; [congruence|exact Et].
Qed.

Lemma verifyLeaves_shape {L : Type} `{LeafHasher L} (fuel : nat) :
  forall (lh : L) (t t' : Tree),
    Forall2 sameShape t t' ->
    match verifyLeaves h fuel lh t, verifyLeaves h fuel lh t' with
    | Some (Done (u, e)), Some (Done (u', e')) =>
        e = e' /\ Forall2 sameShape u u' /\ (u = u' -> t = t')
    | Some (Abort _), Some (Abort _) => True
    | None, None => True
    | _, _ => False
    end.
Proof.
  induction fuel as [|fuel IH]; intros lh t t' Ht; cbn [verifyLeaves];
    [exact I|].
  destruct (NextLeafHash lh) as [[x [e|]] lh'].
  - destruct e; (split; [reflexivity|]; split; [exact Ht|]; intros E; exact E).
  - pose proof (PushSubTree_shape 0 x x t t' Ht eq_refl) as Hpush.
    destruct (PushSubTree h 0 x t) as [u [e1|]];
      destruct (PushSubTree h 0 x t') as [u' [e1'|]];
      try exact Hpush; try (exfalso; exact Hpush).
    destruct Hpush as [Hu Hinj].
    specialize (IH lh' u u' Hu).
    destruct (verifyLeaves h fuel lh' u) as [[[v e]|]|];
      destruct (verifyLeaves h fuel lh' u') as [[[v' e']|]|];
      try exact IH; try (exfalso; exact IH).
    destruct IH as (He & Hv & Hback).
    split; [exact He|]. split; [exact Hv|].
    intros Heq. apply Hinj, Hback, Heq.
Qed.

Lemma verifySuffix_shape (m : Z) (bits : list Z) :
  forall (proof proof' : list bytes) (t t' : Tree),
    Forall2 sameLength proof proof' -> Forall2 sameShape t t' ->
    match verifySuffix h bits m proof t, verifySuffix h bits m proof' t' with
    | (u, None), (u', None) =>
        Forall2 sameShape u u'
        /\ (u = u' ->
            (length proof
             <= length (filter (fun i => (Z.land m (shl1 i) =? 0)%Z) bits))%nat ->
            proof = proof' /\ t = t')
    | (_, Some _), (_, Some _) => True
    | _, _ => False
    end.
Proof.
  induction bits as [|i bits IH]; intros proof proof' t t' Hp Ht.
  - cbn [verifySuffix filter length]. split; [exact Ht|].
    intros Hu Hlen. destruct Hp; cbn [length] in Hlen; [|lia].
    split; [reflexivity|exact Hu].
  - destruct Hp as [|p0 p0' ps ps' Hp0 Hps]; cbn [verifySuffix].
    + split; [exact Ht|]. intros Hu _. split; [reflexivity|exact Hu].
    + cbn [filter]. destruct (Z.land m (shl1 i) =? 0).
      * pose proof (PushSubTree_shape i p0 p0' t t' Ht Hp0) as Hpush.
        destruct (PushSubTree h i p0 t) as [u [e1|]];
          destruct (PushSubTree h i p0' t') as [u' [e1'|]];
          try exact Hpush; try (exfalso; exact Hpush).
        destruct Hpush as [Hu Hinj].
        specialize (IH ps ps' u u' Hps Hu).
        destruct (verifySuffix h bits m ps u) as [v [e|]];
          destruct (verifySuffix h bits m ps' u') as [v' [e'|]];
          try exact IH; try (exfalso; exact IH).
        destruct IH as (Hv & Hback). split; [exact Hv|].
        intros Heq Hlen. cbn [length] in Hlen.
        destruct (Hback Heq ltac:(lia)) as [Eps Eu].
        destruct (Hinj Eu) as [Ep0 Et]. split; [congruence|exact Et].
      * apply (IH (p0 :: ps) (p0' :: ps') t t');
          [constructor; assumption|exact Ht].
Qed.

Lemma Root_inj (t t' : Tree) :
  Forall2 sameShape t t' -> t <> [] -> Root h t = Root h t' -> t = t'.
Proof.
  intros Ht Hne. destruct Ht as [|top top' rest rest' Htop Hrest];
    [congruence|].
  cbn [Root]. intros Heq. injection Heq as Heq.
  destruct Htop as [Ht1 Ht2].
  assert (Hfold : forall acc acc',
             fold_left (fun a e => nodeSum h (sum e) a) rest acc
             = fold_left (fun a e => nodeSum h (sum e) a) rest' acc' ->
             rest = rest' /\ acc = acc').
  { clear Heq Hne. induction Hrest as [|e e' tl tl' He _ IH];
      intros acc acc' Heq; cbn [fold_left] in Heq.
    - split; [reflexivity|exact Heq].
    - destruct (IH _ _ Heq) as [Etl Hn].
      destruct He as [He1 He2].
      destruct (h_free _ _ _ _ He2 Hn) as [Hs Eacc].
      rewrite (sameShape_eq e e' He1 Hs), Etl, Eacc. split; reflexivity. }
  destruct (Hfold _ _ Heq) as [Erest Hs].
  rewrite (sameShape_eq top top' Ht1 Hs), Erest. reflexivity.
Qed.

Lemma joinAll_nonempty (t : Tree) : forall x, joinAllSubTrees h x t <> [].
Proof.
  induction t as [|nxt t IH]; intros x; simpl; [discriminate|].
  destruct (height x =? height nxt); [apply IH|discriminate].
Qed.

Lemma pushLeafHashes_nonempty (xs : list bytes) : forall t : Tree,
  xs <> [] -> pushLeafHashes h xs t <> [].
Proof.
  assert (Hgen : forall ys t, t <> [] -> pushLeafHashes h ys t <> []).
  { induction ys as [|y ys IH]; intros t Ht; [exact Ht|].
    cbn [pushLeafHashes fold_left]. apply IH, joinAll_nonempty. }
  intros t Hxs. destruct xs as [|x xs]; [congruence|].
  cbn [pushLeafHashes fold_left]. apply Hgen, joinAll_nonempty.
Qed.

Lemma verifySuffix_nonempty (m : Z) (bits : list Z) :
  forall (proof : list bytes) (t : Tree),
    t <> [] -> fst (verifySuffix h bits m proof t) <> [].
Proof.
  induction bits as [|i bits IH]; intros proof t Ht.
  - destruct proof; exact Ht.
  - destruct proof as [|p0 ps]; [exact Ht|]. cbn [verifySuffix].
    destruct (Z.land m (shl1 i) =? 0); [|apply IH, Ht].
    destruct (PushSubTree h i p0 t) as [u [e1|]] eqn:Hpush; [exact Ht|].
    apply IH. unfold PushSubTree in Hpush.
    destruct t as [|top rest]; [congruence|].
    destruct (i >? height top); [discriminate|].
    injection Hpush as <-.
    apply (joinAll_nonempty (top :: rest) {| height := i; sum := p0 |}).
Qed.

Lemma sameShape_refl (t : Tree) : Forall2 sameShape t t.
Proof. induction t; constructor; [split; reflexivity|assumption]. Qed.

Lemma length_suffixHashes_clear (m : Z) (Hm : 0 <= m < 2 ^ 63) (n : nat) :
  forall (a : nat) (R : list bytes),
    (a + n <= 64)%nat ->
    (length (suffixHashes h a n m R)
     <= length (filter (fun i => (Z.land m (shl1 i) =? 0)%Z) (up a n)))%nat.
Proof.
  induction n as [|n IH]; intros a R Han; [simpl; lia|].
  unfold up. cbn [suffixHashes seq map filter]. fold (up (Datatypes.S a) n).
  rewrite land_shl1_testbit by lia.
  destruct (Z.testbit m (Z.of_nat a)); cbn [negb].
  - apply IH. lia.
  - destruct R as [|x R']; cbn [length]; [lia|].
    specialize (IH (Datatypes.S a) (skipn (2 ^ a) (x :: R')) ltac:(lia)). lia.
Qed.

Lemma tampered_proof_rejected (leafHashes : list bytes) (s e : Z)
    (fuel : nat) (proof' : list bytes) :
  Z.of_nat (length leafHashes) < 2 ^ 63 ->
  0 <= s < e -> e <= Z.of_nat (length leafHashes) ->
  (Z.to_nat (e - s) < fuel)%nat ->
  Forall2 sameLength (rangeProof h leafHashes s e) proof' ->
  VerifyRangeProof h fuel
    (NewCachedLeafHasher
       (firstn (Z.to_nat (e - s)) (skipn (Z.to_nat s) leafHashes)))
    s e proof' (orNil (merkleRoot h leafHashes))
  = Some (Done (true, None)) ->
  proof' = rangeProof h leafHashes s e.
Proof.
  intros HN Hse HeN Hfuel Hsame Hacc.
  pose proof (VerifyRangeProof_spec h
                (NewCachedLeafHasher
                   (firstn (Z.to_nat (e - s)) (skipn (Z.to_nat s) leafHashes)))
                fuel leafHashes s e (cached_drains _) Hfuel HN Hse HeN) as Hhon.
  assert (Hrest : exists t1,
             verifyPrefix h bitsDown s (rangeProof h leafHashes s e) New
             = Done (t1, suffixHashes h 0 64 (e - 1)
                           (skipn (Z.to_nat e) leafHashes))).
  { assert (Hs : 0 <= s < 2 ^ 63) by lia.
    eexists. unfold rangeProof. rewrite bitsDown_down.
    change New with (pushLeafHashes h [] New) at 1.
    apply (verifyPrefix_spec h s Hs 64 ltac:(lia) [] leafHashes _ 0%nat);
      [reflexivity|].
    rewrite Z.mod_small by (simpl; lia). lia. }
  destruct Hrest as (t1 & Hpre).
  pose proof (length_suffixHashes_clear (e - 1) ltac:(lia) 64 0
                (skipn (Z.to_nat e) leafHashes) ltac:(lia)) as Hcount.
  remember (rangeProof h leafHashes s e) as proof eqn:HP.
  remember (suffixHashes h 0 64 (e - 1) (skipn (Z.to_nat e) leafHashes))
    as suffix eqn:HS.
  remember (orNil (merkleRoot h leafHashes)) as root eqn:HR.
  remember (NewCachedLeafHasher
              (firstn (Z.to_nat (e - s)) (skipn (Z.to_nat s) leafHashes)))
    as lh eqn:Hlh.
  assert (Hdrain : drains lh (firstn (Z.to_nat (e - s))
                                (skipn (Z.to_nat s) leafHashes)) None)
    by (rewrite Hlh; apply cached_drains).
  assert (Hleaf : firstn (Z.to_nat (e - s)) (skipn (Z.to_nat s) leafHashes)
                  <> []).
  { intros Hnil. apply (f_equal (@length bytes)) in Hnil.
    rewrite length_firstn, length_skipn in Hnil. simpl in Hnil. lia. }
  clear HP HS HR Hlh.
  unfold VerifyRangeProof in Hhon, Hacc.
  rewrite (proj2 (illegalRange_false s e)) in Hhon, Hacc by exact Hse.
  rewrite Hpre in Hhon.
  pose proof (verifyPrefix_shape s bitsDown proof proof' New New Hsame
                (sameShape_refl New)) as Hsim1.
  rewrite Hpre in Hsim1.
  destruct (verifyPrefix h bitsDown s proof' New) as [[t1' r1']|];
    [|destruct Hsim1].
  destruct Hsim1 as (Ht1 & Hr1 & Hback1).
  assert (Htop1 : top_ge 0 t1).
  { destruct (verifyPrefix_total h s 64 proof New I) as (u & r & Hu & Htu).
    rewrite <- bitsDown_down, Hpre in Hu. congruence. }
  rewrite (verifyLeaves_drains h lh _ None Hdrain fuel t1 Htop1)
    in Hhon by (rewrite length_firstn; lia).
  pose proof (verifyLeaves_shape fuel lh t1 t1' Ht1) as Hsim2.
  rewrite (verifyLeaves_drains h lh _ None Hdrain fuel t1 Htop1)
    in Hsim2 by (rewrite length_firstn; lia).
  destruct (verifyLeaves h fuel lh t1') as [[[t2' e2']|]|];
    try (destruct Hsim2; fail).
  destruct Hsim2 as (<- & Ht2 & Hback2).
  set (t2 := pushLeafHashes h (firstn (Z.to_nat (e - s))
                                 (skipn (Z.to_nat s) leafHashes)) t1) in *.
  pose proof (verifySuffix_shape (e - 1) bitsUp suffix r1' t2 t2' Hr1 Ht2)
    as Hsim3.
  destruct (verifySuffix h bitsUp (e - 1) suffix t2) as [t3 [e3|]] eqn:Hsuf3;
    [discriminate|].
  destruct (verifySuffix h bitsUp (e - 1) r1' t2') as [t3' [e3'|]];
    [destruct Hsim3|].
  destruct Hsim3 as (Ht3 & Hback3).
  apply verified_true in Hhon. apply verified_true in Hacc.
  apply bytes_eqb_eq in Hhon. apply bytes_eqb_eq in Hacc.
  assert (Hne2 : t2 <> []) by (apply pushLeafHashes_nonempty; exact Hleaf).
  pose proof (verifySuffix_nonempty (e - 1) bitsUp suffix t2 Hne2) as Hne3.
  rewrite Hsuf3 in Hne3. cbn [fst] in Hne3.
  assert (Hroot : Root h t3 = Root h t3').
  { destruct Ht3 as [|x x' u u' Hx Hu]; [congruence|].
    cbn [Root orNil] in *. congruence. }
  pose proof (Root_inj t3 t3' Ht3 Hne3 Hroot) as H3.
  rewrite bitsUp_up in Hback3.
  destruct (Hback3 H3 Hcount) as [Hr Ht2eq].
  pose proof (Hback2 Ht2eq) as Ht1eq.
  destruct (Hback1 Ht1eq Hr) as [Hproof _].
  symmetry. exact Hproof.
Qed.
End Tamper.

Lemma idHash_collisionFree : collisionFree idHash.
Proof.
  intros a a' b b' Hlen Heq. unfold nodeSum, idHash in Heq.
  injection Heq as Heq.
  revert a' Hlen Heq. induction a as [|x a IH]; intros [|x' a'] Hlen Heq;
    simpl in Hlen; try discriminate.
  - split; [reflexivity|exact Heq].
  - simpl in Heq. injection Heq as -> Heq.
    destruct (IH a' ltac:(lia) Heq) as [-> ->]. split; reflexivity.
Qed.

Lemma idHash_lengthRegular : lengthRegular idHash.
Proof.
  intros a a' b b' Ha Hb. unfold nodeSum, idHash. simpl.
  rewrite !length_app. lia.
Qed.



(** ** [BuildRangeProof] over the decorator *)

Lemma firstn_concat_uniform {A : Type} (m : nat) (blocks : list (list A)) :
  Forall (fun b => length b = m) blocks ->
  forall n : nat, firstn (n * m) (concat blocks) = concat (firstn n blocks).
Proof.
  induction 1 as [|b blocks Hb _ IH]; intros n.
  - rewrite !firstn_nil. reflexivity.
  - destruct n as [|n]; [reflexivity|].
    cbn [concat firstn]. simpl Nat.mul.
    rewrite firstn_app, (firstn_all2 b) by lia.
    replace (m + n * m - length b)%nat with (n * m)%nat by lia.
    rewrite IH. reflexivity.
Qed.

Lemma skipn_concat_uniform {A : Type} (m : nat) (blocks : list (list A)) :
  Forall (fun b => length b = m) blocks ->
  forall n : nat, skipn (n * m) (concat blocks) = concat (skipn n blocks).
Proof.
  induction 1 as [|b blocks Hb _ IH]; intros n.
  - rewrite !skipn_nil. reflexivity.
  - destruct n as [|n]; [reflexivity|].
    cbn [concat skipn]. simpl Nat.mul.
    rewrite skipn_app, (skipn_all2 b) by lia.
    replace (m + n * m - length b)%nat with (n * m)%nat by lia.
    rewrite IH. reflexivity.
Qed.

Lemma Forall_skipn_blocks {A : Type} (P : A -> Prop) (l : list A) (n : nat) :
  Forall P l -> Forall P (skipn n l).
Proof.
  intros Hall. rewrite <- (firstn_skipn n l) in Hall.
  apply Forall_app in Hall. apply Hall.
Qed.

Lemma Forall_firstn_blocks {A : Type} (P : A -> Prop) (l : list A) (n : nat) :
  Forall P l -> Forall P (firstn n l).
Proof.
  intros Hall. rewrite <- (firstn_skipn n l) in Hall.
  apply Forall_app in Hall. apply Hall.
Qed.

Section PrecalcBuild.
Context {S : Type} `{SubtreeHasher S}.
Variable h : Hash.
Variable repr : S -> list bytes -> Prop.
Hypothesis faithful : FaithfulHasher h repr.

(** A size that is no multiple of the block size, or that asks for more
    roots than are left, goes to the base cursor; the roots stay. *)
Lemma precalc_next_delegates (j k : nat) (pc : list bytes) (st : S) :
  (j < 63)%nat -> (k < 63)%nat ->
  ((k < j)%nat \/ Z.of_nat (length pc) < 2 ^ (Z.of_nat k - Z.of_nat j)) ->
  NextSubtreeRoot (2 ^ Z.of_nat k)
    (newPrecalcSubtreeHasher pc (2 ^ Z.of_nat j) h st)
  = match NextSubtreeRoot (2 ^ Z.of_nat k) st with
    | Abort q => Abort q
    | Done (root, err, st') =>
        Done (root, err, newPrecalcSubtreeHasher pc (2 ^ Z.of_nat j) h st')
    end.
Proof.
  intros Hj Hk Hcase.
  assert (Hpj : 0 < 2 ^ Z.of_nat j) by (apply Z.pow_pos_nonneg; lia).
  assert (Hpk : 0 < 2 ^ Z.of_nat k) by (apply Z.pow_pos_nonneg; lia).
  unfold NextSubtreeRoot at 1; cbn [precalc_SubtreeHasher].
  unfold precalc_NextSubtreeRoot, newPrecalcSubtreeHasher.
  cbn [p_precalc p_subtreeSize p_h p_sh].
  destruct (Z.eqb_spec (2 ^ Z.of_nat j) 0); [lia|].
  destruct (le_lt_dec j k) as [Hle|Hlt].
  - destruct Hcase as [Hlt|Hlen]; [lia|].
    assert (Hn : 2 ^ Z.of_nat k
                 = 2 ^ (Z.of_nat k - Z.of_nat j) * 2 ^ Z.of_nat j).
    { rewrite <- Z.pow_add_r by lia. f_equal. lia. }
    assert (Hq : 0 < 2 ^ (Z.of_nat k - Z.of_nat j))
      by (apply Z.pow_pos_nonneg; lia).
    assert (Hq63 : 2 ^ (Z.of_nat k - Z.of_nat j) < 2 ^ 63)
      by (apply Z.pow_lt_mono_r; lia).
    rewrite Hn at 1 2. rewrite Z.rem_mul, Z.quot_mul by lia.
    rewrite wrap64_small by lia.
    destruct (Z.geb_spec (Z.of_nat (length pc))
                         (2 ^ (Z.of_nat k - Z.of_nat j))); [lia|].
    cbn [Z.eqb andb]. reflexivity.
  - assert (Hlt2 : 2 ^ Z.of_nat k < 2 ^ Z.of_nat j)
      by (apply Z.pow_lt_mono_r; lia).
    rewrite Z.rem_small by lia.
    destruct (Z.eqb_spec (2 ^ Z.of_nat k) 0); [lia|].
    cbn [andb]. reflexivity.
Qed.

(** Below the block size every call of the first loop goes to the base. *)
Lemma precalc_prefix_low (j : nat) (Hj : (j < 63)%nat)
    (s : Z) (Hs : 0 <= s < 2 ^ 63) (k : nat) :
  (k <= j)%nat ->
  forall (st : S) (R acc pc : list bytes),
    repr st R ->
    s mod 2 ^ Z.of_nat k <= Z.of_nat (length R) ->
    exists st',
      buildPrefix (down k) s
        (newPrecalcSubtreeHasher pc (2 ^ Z.of_nat j) h st) acc
      = Done (acc ++ prefixHashes h k s R, None,
              newPrecalcSubtreeHasher pc (2 ^ Z.of_nat j) h st')
      /\ repr st' (skipn (Z.to_nat (s mod 2 ^ Z.of_nat k)) R).
Proof.
  induction k as [|k IH]; intros Hk st R acc pc Hrepr Hlen.
  - exists st. simpl. rewrite app_nil_r, Z.mod_1_r.
    split; [reflexivity|exact Hrepr].
  - rewrite down_S. cbn [buildPrefix prefixHashes].
    rewrite land_shl1_testbit by lia.
    rewrite mod_pow2_succ in Hlen |- *.
    pose proof (mod_pow2_bounds s k) as Hb.
    destruct (Z.testbit s (Z.of_nat k)) eqn:Hbit; cbn [negb].
    + rewrite shl1_small by lia.
      assert (Hp : 0 < 2 ^ Z.of_nat k) by (apply Z.pow_pos_nonneg; lia).
      rewrite precalc_next_delegates by (try lia; left; lia).
      destruct (faithful_next h repr faithful (2 ^ Z.of_nat k) st R Hrepr)
        as (st1 & Hnext & Hrepr1).
      { destruct R; [simpl in Hlen; lia|discriminate]. }
      { exact Hp. }
      rewrite Hnext. rewrite pow2_to_nat in *.
      destruct (IH ltac:(lia) st1 (skipn (2 ^ k) R)
                  (acc ++ [orNil (merkleRoot h (firstn (2 ^ k) R))]) pc
                  Hrepr1)
        as (st' & Hbuild & Hrepr').
      { rewrite length_skipn, Nat2Z.inj_sub, pow2_nat; [lia|].
        apply Nat2Z.inj_le. rewrite pow2_nat. lia. }
      exists st'. rewrite Hbuild, <- app_assoc. split; [reflexivity|].
      rewrite skipn_skipn_add in Hrepr'.
      replace (Z.to_nat (2 ^ Z.of_nat k + s mod 2 ^ Z.of_nat k))
        with (2 ^ k + Z.to_nat (s mod 2 ^ Z.of_nat k))%nat
        by (rewrite Z2Nat.inj_add, pow2_to_nat; lia).
      exact Hrepr'.
    + rewrite Z.add_0_l in *. apply IH; [lia|exact Hrepr|exact Hlen].
Qed.

(** A whole number of blocks, a power of two of them, is answered from the
    roots; the base cursor skips the leaves. *)
Lemma precalc_next_blocks (j k : nat) (blocks : list (list bytes))
    (more rest : list bytes) (st : S) :
  (j + k < 63)%nat ->
  length blocks = (2 ^ k)%nat ->
  Forall (fun b => length b = (2 ^ j)%nat) blocks ->
  repr st (concat blocks ++ rest) ->
  exists st',
    NextSubtreeRoot (2 ^ Z.of_nat (j + k))
      (newPrecalcSubtreeHasher (blockRoots h blocks ++ more)
                               (2 ^ Z.of_nat j) h st)
    = Done (orNil (merkleRoot h (concat blocks)), None,
            newPrecalcSubtreeHasher more (2 ^ Z.of_nat j) h st')
    /\ repr st' rest.
Proof.
  intros Hjk Hlen Hall Hrepr.
  assert (Hpj : 0 < 2 ^ Z.of_nat j) by (apply Z.pow_pos_nonneg; lia).
  assert (Hpk : 0 < 2 ^ Z.of_nat k) by (apply Z.pow_pos_nonneg; lia).
  assert (Hpn : 0 < 2 ^ Z.of_nat (j + k)) by (apply Z.pow_pos_nonneg; lia).
  assert (Hn : 2 ^ Z.of_nat (j + k) = 2 ^ Z.of_nat k * 2 ^ Z.of_nat j).
  { rewrite Nat2Z.inj_add, Z.pow_add_r by lia. lia. }
  assert (Hk63 : 2 ^ Z.of_nat k < 2 ^ 63) by (apply Z.pow_lt_mono_r; lia).
  assert (Hcat : length (concat blocks) = Z.to_nat (2 ^ Z.of_nat (j + k))).
  { rewrite (length_concat_uniform (2 ^ j) blocks Hall), Hlen.
    rewrite pow2_to_nat, Nat.pow_add_r. lia. }
  destruct (faithful_skip h repr faithful (2 ^ Z.of_nat (j + k)) st
              (concat blocks ++ rest) Hrepr) as (st' & Hskip & Hrepr').
  { rewrite length_app, Hcat. lia. }
  exists st'. split.
  - unfold NextSubtreeRoot at 1; cbn [precalc_SubtreeHasher].
    unfold precalc_NextSubtreeRoot, newPrecalcSubtreeHasher.
    cbn [p_precalc p_subtreeSize p_h p_sh].
    destruct (Z.eqb_spec (2 ^ Z.of_nat j) 0); [lia|].
    rewrite Hskip.
    rewrite Hn, Z.rem_mul, Z.quot_mul by lia.
    rewrite wrap64_small by lia.
    unfold blockRoots.
    rewrite length_app, length_map, Hlen, Nat2Z.inj_add, pow2_nat.
    destruct (Z.geb_spec (2 ^ Z.of_nat k + Z.of_nat (length more))
                         (2 ^ Z.of_nat k)); [|lia].
    cbn [Z.eqb andb].
    destruct (Z.ltb_spec (2 ^ Z.of_nat k) 0); [lia|].
    rewrite pow2_to_nat.
    replace (2 ^ k)%nat
      with (length (map (fun b => orNil (merkleRoot h b)) blocks))
      by (rewrite length_map; exact Hlen).
    rewrite firstn_app, Nat.sub_diag, firstn_all, firstn_O, app_nil_r.
    rewrite skipn_app, Nat.sub_diag, skipn_all. cbn [app].
    rewrite pushRoots_as_leaves by exact I.
    fold (merkleRoot h (map (fun b => orNil (merkleRoot h b)) blocks)).
    rewrite (merkleRoot_of_block_roots h j k blocks Hlen Hall).
    reflexivity.
  - rewrite <- Hcat, skipn_app, Nat.sub_diag, skipn_all in Hrepr'.
    exact Hrepr'.
Qed.

(** From the block size up, every call of the first loop is answered from
    the roots, which stay in step with the base cursor. *)
Lemma precalc_prefix_high (j : nat) (Hj : (j < 63)%nat)
    (s : Z) (Hs : 0 <= s < 2 ^ 63) (d : nat) :
  (j + d <= 64)%nat ->
  forall (st : S) (blocks : list (list bytes)) (acc : list bytes),
    Forall (fun b => length b = (2 ^ j)%nat) blocks ->
    repr st (concat blocks) ->
    s mod 2 ^ Z.of_nat (j + d) <= Z.of_nat (length (concat blocks)) ->
    exists st',
      buildPrefix (down (j + d)) s
        (newPrecalcSubtreeHasher (blockRoots h blocks) (2 ^ Z.of_nat j) h st)
        acc
      = Done (acc ++ prefixHashes h (j + d) s (concat blocks), None,
              newPrecalcSubtreeHasher
                (blockRoots h
                   (skipn (Z.to_nat (s mod 2 ^ Z.of_nat (j + d)
                                     / 2 ^ Z.of_nat j)) blocks))
                (2 ^ Z.of_nat j) h st')
      /\ repr st' (skipn (Z.to_nat (s mod 2 ^ Z.of_nat (j + d)))
                         (concat blocks)).
Proof.
  assert (Hpj : 0 < 2 ^ Z.of_nat j) by (apply Z.pow_pos_nonneg; lia).
  induction d as [|d IH]; intros Hd st blocks acc Hall Hrepr Hlen.
  - rewrite Nat.add_0_r in *.
    pose proof (mod_pow2_bounds s j) as Hb.
    rewrite Z.div_small by lia. cbn [Z.to_nat skipn].
    apply precalc_prefix_low; [exact Hj|exact Hs|lia|exact Hrepr|exact Hlen].
  - rewrite Nat.add_succ_r in *.
    rewrite down_S. cbn [buildPrefix prefixHashes].
    rewrite land_shl1_testbit by lia.
    rewrite mod_pow2_succ in Hlen |- *.
    pose proof (mod_pow2_bounds s (j + d)) as Hb.
    destruct (Z.testbit s (Z.of_nat (j + d))) eqn:Hbit; cbn [negb].
    + pose proof (testbit_true_lt_63 s (j + d) Hs Hbit) as Hk63.
      rewrite shl1_small by lia.
      assert (Hp : 0 < 2 ^ Z.of_nat (j + d)) by (apply Z.pow_pos_nonneg; lia).
      assert (Hpd : 0 < 2 ^ Z.of_nat d) by (apply Z.pow_pos_nonneg; lia).
      assert (Hn : 2 ^ Z.of_nat (j + d) = 2 ^ Z.of_nat d * 2 ^ Z.of_nat j).
      { rewrite Nat2Z.inj_add, Z.pow_add_r by lia. lia. }
      assert (Hnn : (2 ^ (j + d) = 2 ^ d * 2 ^ j)%nat)
        by (rewrite Nat.pow_add_r; lia).
      assert (HlenB : (2 ^ d <= length blocks)%nat).
      { rewrite (length_concat_uniform (2 ^ j) blocks Hall) in Hlen.
        rewrite Nat2Z.inj_mul, pow2_nat in Hlen.
        apply Nat2Z.inj_le. rewrite pow2_nat. nia. }
      destruct (precalc_next_blocks j d (firstn (2 ^ d) blocks)
                  (blockRoots h (skipn (2 ^ d) blocks))
                  (concat (skipn (2 ^ d) blocks)) st)
        as (st1 & Hnext & Hrepr1).
      { lia. }
      { rewrite length_firstn. lia. }
      { apply Forall_firstn_blocks. exact Hall. }
      { rewrite <- concat_app, firstn_skipn. exact Hrepr. }
      unfold blockRoots in Hnext at 1 2.
      rewrite <- map_app, firstn_skipn in Hnext.
      fold (blockRoots h blocks) in Hnext.
      fold (blockRoots h (skipn (2 ^ d) blocks)) in Hnext.
      rewrite Hnext.
      rewrite Hnn.
      rewrite (firstn_concat_uniform (2 ^ j) blocks Hall).
      rewrite (skipn_concat_uniform (2 ^ j) blocks Hall).
      destruct (IH ltac:(lia) st1 (skipn (2 ^ d) blocks)
                  (acc ++ [orNil (merkleRoot h (concat (firstn (2 ^ d) blocks)))])
                  (Forall_skipn_blocks _ _ _ Hall) Hrepr1)
        as (st' & Hbuild & Hrepr').
      { rewrite (length_concat_uniform (2 ^ j) _
                   (Forall_skipn_blocks _ _ (2 ^ d)%nat Hall)).
        rewrite (length_concat_uniform (2 ^ j) blocks Hall) in Hlen.
        rewrite length_skipn.
        rewrite Nat2Z.inj_mul, pow2_nat in Hlen |- *.
        rewrite Nat2Z.inj_sub by lia. rewrite pow2_nat. nia. }
      exists st'. rewrite Hbuild, <- app_assoc. split.
      * rewrite skipn_skipn_add.
        replace (Z.to_nat ((2 ^ Z.of_nat (j + d) + s mod 2 ^ Z.of_nat (j + d))
                           / 2 ^ Z.of_nat j))
          with (2 ^ d + Z.to_nat (s mod 2 ^ Z.of_nat (j + d) / 2 ^ Z.of_nat j))%nat.
        { reflexivity. }
        assert (Hq0 : 0 <= s mod 2 ^ Z.of_nat (j + d) / 2 ^ Z.of_nat j)
          by (apply Z.div_pos; lia).
        replace (2 ^ Z.of_nat (j + d) + s mod 2 ^ Z.of_nat (j + d))
          with (2 ^ Z.of_nat d * 2 ^ Z.of_nat j + s mod 2 ^ Z.of_nat (j + d))
          by lia.
        rewrite Z.div_add_l by lia.
        rewrite Z2Nat.inj_add by lia. rewrite pow2_to_nat. reflexivity.
      * rewrite <- (skipn_concat_uniform (2 ^ j) blocks Hall) in Hrepr'.
        rewrite skipn_skipn_add in Hrepr'.
        replace (Z.to_nat (2 ^ Z.of_nat (j + d) + s mod 2 ^ Z.of_nat (j + d)))
          with (2 ^ d * 2 ^ j + Z.to_nat (s mod 2 ^ Z.of_nat (j + d)))%nat.
        { exact Hrepr'. }
        rewrite Z2Nat.inj_add, pow2_to_nat by lia. lia.
    + rewrite Z.add_0_l in *.
      apply IH; [lia|exact Hall|exact Hrepr|exact Hlen].
Qed.

(** [Skip] over all that is left drops every root that is left. *)
Lemma precalc_skip_rest (j : nat) (Hj : (j < 63)%nat) (pc R : list bytes)
    (st : S) (n : Z) :
  repr st R -> Z.of_nat (length R) = n -> 0 < n < 2 ^ 63 ->
  (Z.of_nat (length pc) - 1) * 2 ^ Z.of_nat j < n ->
  n <= Z.of_nat (length pc) * 2 ^ Z.of_nat j ->
  exists st',
    Skip n (newPrecalcSubtreeHasher pc (2 ^ Z.of_nat j) h st)
    = Done (None, newPrecalcSubtreeHasher [] (2 ^ Z.of_nat j) h st')
    /\ repr st' [].
Proof.
  intros Hrepr HR Hn Hlo Hhi.
  assert (Hpj : 0 < 2 ^ Z.of_nat j) by (apply Z.pow_pos_nonneg; lia).
  destruct (faithful_skip h repr faithful n st R Hrepr) as (st' & Hskip & Hrepr');
    [lia|].
  rewrite skipn_all2 in Hrepr' by lia.
  exists st'. split; [|exact Hrepr'].
  unfold Skip at 1; cbn [precalc_SubtreeHasher].
  unfold precalc_Skip, newPrecalcSubtreeHasher.
  cbn [p_precalc p_subtreeSize p_h p_sh].
  destruct (Z.eqb_spec (2 ^ Z.of_nat j) 0); [lia|].
  rewrite Hskip.
  rewrite Z.quot_div_nonneg, Z.rem_mod_nonneg by lia.
  pose proof (Z.div_mod n (2 ^ Z.of_nat j) ltac:(lia)) as Hdm.
  pose proof (Z.mod_pos_bound n (2 ^ Z.of_nat j) Hpj) as Hmb.
  assert (Hq0 : 0 <= n / 2 ^ Z.of_nat j) by (apply Z.div_pos; lia).
  assert (Hqn : n / 2 ^ Z.of_nat j <= n).
  { apply Z.div_le_upper_bound; [lia|]. nia. }
  rewrite (wrap64_small (n / 2 ^ Z.of_nat j)) by lia.
  assert (Hcount : (if n mod 2 ^ Z.of_nat j =? 0
                    then n / 2 ^ Z.of_nat j
                    else wrap64 (n / 2 ^ Z.of_nat j + 1))
                   = Z.of_nat (length pc)).
  { destruct (Z.eqb_spec (n mod 2 ^ Z.of_nat j) 0) as [Hz|Hnz].
    - nia.
    - assert (Hq1 : n / 2 ^ Z.of_nat j + 1 = Z.of_nat (length pc)) by nia.
      rewrite wrap64_small by lia. exact Hq1. }
  rewrite Hcount.
  destruct (Z.ltb_spec (Z.of_nat (length pc)) 0); [lia|].
  destruct (Z.gtb_spec (Z.of_nat (length pc)) (Z.of_nat (length pc))); [lia|].
  cbn [orb]. rewrite Nat2Z.id, skipn_all. reflexivity.
Qed.

(** At the end of the leaves, with no root left, the second loop stops at
    its first call: the base cursor answers [io.EOF]. *)
Lemma precalc_suffix_at_end (j : nat) (Hj : (j < 63)%nat)
    (m : Z) (Hm : 0 <= m < 2 ^ 63) (n : nat) :
  forall (a : nat) (st : S) (acc : list bytes),
    (a + n <= 64)%nat -> repr st [] -> reach m a < 2 ^ 63 ->
    exists st',
      buildSuffix (up a n) m
        (newPrecalcSubtreeHasher [] (2 ^ Z.of_nat j) h st) acc
      = Done (acc, None, newPrecalcSubtreeHasher [] (2 ^ Z.of_nat j) h st').
Proof.
  induction n as [|n IH]; intros a st acc Han Hrepr Hreach.
  - exists st. reflexivity.
  - unfold up. cbn [seq map buildSuffix]. fold (up (Datatypes.S a) n).
    rewrite land_shl1_testbit by lia.
    destruct (Z.testbit m (Z.of_nat a)) eqn:Hbit; cbn [negb].
    + apply IH; [lia|exact Hrepr|].
      rewrite reach_succ, Hbit, Z.add_0_r. exact Hreach.
    + pose proof (reach_ge m a (proj1 Hm)) as Hge.
      assert (Ha63 : (a < 63)%nat).
      { destruct (le_lt_dec 63 a) as [Hle|]; [|assumption].
        assert (2 ^ 63 <= 2 ^ Z.of_nat a) by (apply Z.pow_le_mono_r; lia).
        lia. }
      rewrite shl1_small by lia.
      rewrite precalc_next_delegates; [|exact Hj|exact Ha63|].
      2:{ destruct (le_lt_dec j a); [right|left; assumption].
          cbn [length]. apply Z.pow_pos_nonneg; lia. }
      destruct (faithful_eof h repr faithful (2 ^ Z.of_nat a) st Hrepr)
        as (st1 & Hnext & _).
      rewrite Hnext. exists st1. reflexivity.
Qed.

(** For a range that runs to the end of the tree, the decorator fed with
    the roots of all the blocks of [2^j] leaves gives the proof the base
    cursor gives. *)
Lemma precalc_build_spec (j : nat) (blocks : list (list bytes)) (s : Z)
    (st : S) :
  Forall (fun b => length b = (2 ^ j)%nat) blocks ->
  Z.of_nat (length (concat blocks)) < 2 ^ 63 ->
  repr st (concat blocks) ->
  0 <= s < Z.of_nat (length (concat blocks)) ->
  exists p',
    BuildRangeProof s (Z.of_nat (length (concat blocks)))
      (newPrecalcSubtreeHasher (blockRoots h blocks) (2 ^ Z.of_nat j) h st)
    = Done (rangeProof h (concat blocks) s (Z.of_nat (length (concat blocks))),
            None, p')
    /\ p_precalc p' = [].
Proof.
  intros Hall HN Hrepr Hs.
  assert (HNb : length (concat blocks) = (length blocks * 2 ^ j)%nat)
    by (apply length_concat_uniform; exact Hall).
  assert (Hj : (j < 63)%nat).
  { destruct (le_lt_dec 63 j) as [Hle|]; [|assumption].
    assert (2 ^ 63 <= 2 ^ Z.of_nat j) by (apply Z.pow_le_mono_r; lia).
    rewrite HNb, Nat2Z.inj_mul, pow2_nat in HN, Hs.
    assert (Hb1 : 0 < Z.of_nat (length blocks))
      by (destruct (length blocks); [simpl in Hs; lia|lia]).
    nia. }
  assert (Hpj : 0 < 2 ^ Z.of_nat j) by (apply Z.pow_pos_nonneg; lia).
  unfold BuildRangeProof.
  rewrite (proj2 (illegalRange_false s _)) by lia.
  rewrite bitsDown_down, bitsUp_up.
  assert (Hs63 : 0 <= s < 2 ^ 63) by lia.
  assert (Hmod : s mod 2 ^ Z.of_nat 64 = s) by (apply Z.mod_small; simpl; lia).
  destruct (precalc_prefix_high j Hj s Hs63 (64 - j) ltac:(lia) st blocks []
              Hall Hrepr) as (st1 & Hpre & Hrepr1).
  { replace (j + (64 - j))%nat with 64%nat by lia. rewrite Hmod. lia. }
  replace (j + (64 - j))%nat with 64%nat in Hpre, Hrepr1 by lia.
  rewrite Hmod in Hpre, Hrepr1.
  rewrite Hpre. cbn [app].
  pose proof (Z.div_mod s (2 ^ Z.of_nat j) ltac:(lia)) as Hdm.
  pose proof (Z.mod_pos_bound s (2 ^ Z.of_nat j) Hpj) as Hmb.
  assert (Ha0 : 0 <= s / 2 ^ Z.of_nat j) by (apply Z.div_pos; lia).
  assert (Hpc : Z.of_nat (length (blockRoots h
                  (skipn (Z.to_nat (s / 2 ^ Z.of_nat j)) blocks)))
                = Z.of_nat (length blocks) - s / 2 ^ Z.of_nat j).
  { unfold blockRoots. rewrite length_map, length_skipn.
    rewrite HNb, Nat2Z.inj_mul, pow2_nat in Hs. nia. }
  destruct (precalc_skip_rest j Hj
              (blockRoots h (skipn (Z.to_nat (s / 2 ^ Z.of_nat j)) blocks))
              (skipn (Z.to_nat s) (concat blocks)) st1
              (Z.of_nat (length (concat blocks)) - s) Hrepr1)
    as (st2 & Hskip & Hrepr2).
  { rewrite length_skipn. lia. }
  { lia. }
  { rewrite Hpc. rewrite HNb, Nat2Z.inj_mul, pow2_nat. nia. }
  { rewrite Hpc. rewrite HNb, Nat2Z.inj_mul, pow2_nat. nia. }
  rewrite Hskip.
  destruct (precalc_suffix_at_end j Hj (Z.of_nat (length (concat blocks)) - 1)
              ltac:(lia) 64 0 st2 (prefixHashes h 64 s (concat blocks))
              ltac:(lia) Hrepr2) as (st3 & Hsuf).
  { rewrite reach_0. lia. }
  rewrite Hsuf.
  exists (newPrecalcSubtreeHasher [] (2 ^ Z.of_nat j) h st3).
  split; [|reflexivity].
  unfold rangeProof.
  rewrite Nat2Z.id, skipn_all, suffixHashes_nil, app_nil_r. reflexivity.
Qed.
End PrecalcBuild.

(** The test of the decorator, for every block size and every start: on a
    tree cut into blocks of [2^j] leaves, with the root of every block
    precomputed, [BuildRangeProof] for a range that runs to the last leaf
    returns over the decorator the proof it returns over the base cursor
    alone, with no error, and the decorator has used up all its roots.  The
    base cursor is any faithful one: the cache-backed cursor, or the
    stream-backed cursor over whole leaves. *)
Theorem precalc_build_to_the_end {S : Type} `{SubtreeHasher S} (h : Hash)
    (repr : S -> list bytes -> Prop) (j : nat)
    (blocks : list (list bytes)) (s : Z) (st : S) :
  FaithfulHasher h repr ->
  Forall (fun b => length b = (2 ^ j)%nat) blocks ->
  Z.of_nat (length (concat blocks)) < 2 ^ 63 ->
  repr st (concat blocks) ->
  0 <= s < Z.of_nat (length (concat blocks)) ->
  exists (proof : list bytes) (st' : S) (p' : precalcSubtreeHasher S),
    BuildRangeProof s (Z.of_nat (length (concat blocks))) st
    = Done (proof, None, st')
    /\ BuildRangeProof s (Z.of_nat (length (concat blocks)))
         (newPrecalcSubtreeHasher (blockRoots h blocks) (2 ^ Z.of_nat j) h st)
       = Done (proof, None, p')
    /\ p_precalc p' = [].
Proof.
  intros faithful Hall HN Hrepr Hs.
  destruct (BuildRangeProof_spec h repr faithful st (concat blocks) s
              (Z.of_nat (length (concat blocks))) Hrepr HN)
    as (st' & Hbase); [lia|lia|].
  destruct (precalc_build_spec h repr faithful j blocks s st Hall HN Hrepr Hs)
    as (p' & Hdec & Hpc).
  exists (rangeProof h (concat blocks) s (Z.of_nat (length (concat blocks)))),
         st', p'.
  split; [exact Hbase|]. split; [exact Hdec|exact Hpc].
Qed.

Lemma precalc_build_to_the_end_witness :
  exists (proof : list bytes) (st' : CachedSubtreeHasher)
         (p' : precalcSubtreeHasher CachedSubtreeHasher),
    BuildRangeProof 1
      (Z.of_nat (length (concat [[[x01]; [x02]]; [[x03]; [x04]]])))
      (NewCachedSubtreeHasher (concat [[[x01]; [x02]]; [[x03]; [x04]]]) idHash)
    = Done (proof, None, st')
    /\ BuildRangeProof 1
         (Z.of_nat (length (concat [[[x01]; [x02]]; [[x03]; [x04]]])))
         (newPrecalcSubtreeHasher
            (blockRoots idHash [[[x01]; [x02]]; [[x03]; [x04]]])
            (2 ^ Z.of_nat 1) idHash
            (NewCachedSubtreeHasher
               (concat [[[x01]; [x02]]; [[x03]; [x04]]]) idHash))
       = Done (proof, None, p')
    /\ p_precalc p' = [].
Proof.
  apply (precalc_build_to_the_end idHash (cached_repr idHash) 1
           [[[x01]; [x02]]; [[x03]; [x04]]] 1
           (NewCachedSubtreeHasher
              (concat [[[x01]; [x02]]; [[x03]; [x04]]]) idHash)).
  - exact (cached_faithful idHash).
  - repeat constructor.
  - vm_compute. reflexivity.
  - reflexivity.
  - vm_compute. split; [discriminate|reflexivity].
Defined.

(** ** [BuildRangeProof] over a stream of any length *)

Section ReaderAnyStream.
Variable h : Hash.
Variable ls : nat.

Lemma merkleRoot_nil : merkleRoot h [] = None.
Proof. reflexivity. Qed.

Lemma reader_buildPrefix (Hls : (0 < ls)%nat) (s : Z) (Hs : 0 <= s < 2 ^ 63)
    (k : nat) :
  (k <= 64)%nat ->
  forall (r : bytes) (acc : list bytes),
    s mod 2 ^ Z.of_nat k <= Z.of_nat (length (leavesOf ls r)) ->
    buildPrefix (down k) s (NewReaderSubtreeHasher r ls h) acc
    = Done (acc ++ prefixHashes h k s (map (leafSum h) (leavesOf ls r)), None,
            NewReaderSubtreeHasher
              (skipn (Z.to_nat (s mod 2 ^ Z.of_nat k) * ls) r) ls h).
Proof.
  induction k as [|k IH]; intros Hk r acc Hlen.
  - rewrite Z.mod_1_r. simpl. rewrite app_nil_r. reflexivity.
  - rewrite down_S. cbn [buildPrefix prefixHashes].
    rewrite land_shl1_testbit by lia.
    rewrite mod_pow2_succ in Hlen |- *.
    pose proof (mod_pow2_bounds s k) as Hb.
    destruct (Z.testbit s (Z.of_nat k)) eqn:Hbit; cbn [negb].
    + pose proof (testbit_true_lt_63 s k Hs Hbit) as Hk63.
      rewrite shl1_small by lia.
      assert (Hp : 0 < 2 ^ Z.of_nat k) by (apply Z.pow_pos_nonneg; lia).
      rewrite (reader_next_stream h ls Hls), pow2_to_nat.
      assert (Hp2 : (2 ^ k <= length (leavesOf ls r))%nat).
      { apply Nat2Z.inj_le. rewrite pow2_nat. lia. }
      destruct (merkleRoot_nonempty h
                  (map (leafSum h) (firstn (2 ^ k) (leavesOf ls r))))
        as (x & Hx).
      { intros Hnil. apply (f_equal (@length bytes)) in Hnil.
        rewrite length_map, length_firstn in Hnil. simpl in Hnil.
        assert (0 < 2 ^ k)%nat by (apply Nat.neq_0_lt_0, Nat.pow_nonzero; lia).
        lia. }
      rewrite Hx.
      rewrite IH; [|lia|].
      2:{ rewrite (leavesOf_skipn ls Hls), length_skipn.
          rewrite Nat2Z.inj_sub, pow2_nat by lia. lia. }
      rewrite (leavesOf_skipn ls Hls), firstn_map, skipn_map, Hx.
      cbn [orNil]. rewrite <- app_assoc. cbn [app].
      rewrite skipn_skipn_add.
      replace (Z.to_nat (2 ^ Z.of_nat k + s mod 2 ^ Z.of_nat k) * ls)%nat
        with (2 ^ k * ls + Z.to_nat (s mod 2 ^ Z.of_nat k) * ls)%nat.
      { reflexivity. }
      rewrite Z2Nat.inj_add, pow2_to_nat by lia. lia.
    + rewrite Z.add_0_l in *. apply IH; [lia|exact Hlen].
Qed.

Lemma reader_buildSuffix (Hls : (0 < ls)%nat) (m : Z) (Hm : 0 <= m < 2 ^ 63)
    (n : nat) :
  forall (a : nat) (r : bytes) (acc : list bytes),
    (a + n <= 64)%nat ->
    (leavesOf ls r = []
     \/ reach m a + Z.of_nat (length (leavesOf ls r)) < 2 ^ 63) ->
    exists r' : bytes,
      buildSuffix (up a n) m (NewReaderSubtreeHasher r ls h) acc
      = Done (acc ++ suffixHashes h a n m (map (leafSum h) (leavesOf ls r)),
              None, NewReaderSubtreeHasher r' ls h).
Proof.
  induction n as [|n IH]; intros a r acc Han Hinv.
  - exists r. simpl. rewrite app_nil_r. reflexivity.
  - unfold up. cbn [seq map buildSuffix suffixHashes].
    fold (up (Datatypes.S a) n).
    rewrite land_shl1_testbit by lia.
    destruct (Z.testbit m (Z.of_nat a)) eqn:Hbit; cbn [negb].
    + apply IH; [lia|].
      rewrite reach_succ, Hbit, Z.add_0_r. exact Hinv.
    + rewrite (reader_next_stream h ls Hls).
      destruct (leavesOf ls r) as [|x R'] eqn:HL.
      * rewrite firstn_nil. cbn [map]. rewrite merkleRoot_nil.
        eexists. rewrite app_nil_r. reflexivity.
      * destruct Hinv as [Hnil|Hinv]; [discriminate|].
        pose proof (reach_ge m a (proj1 Hm)) as Hge.
        assert (Ha63 : (a < 63)%nat).
        { destruct (le_lt_dec 63 a) as [Hle|]; [|assumption].
          assert (2 ^ 63 <= 2 ^ Z.of_nat a) by (apply Z.pow_le_mono_r; lia).
          lia. }
        rewrite shl1_small by lia. rewrite pow2_to_nat.
        assert (Hpa : (0 < 2 ^ a)%nat)
          by (apply Nat.neq_0_lt_0, Nat.pow_nonzero; lia).
        destruct (merkleRoot_nonempty h
                    (map (leafSum h) (firstn (2 ^ a) (x :: R'))))
          as (y & Hy).
        { destruct (2 ^ a)%nat; [lia|discriminate]. }
        rewrite Hy.
        destruct (IH (Datatypes.S a) (skipn (2 ^ a * ls) r) (acc ++ [y])
                    ltac:(lia)) as (r' & Hbuild).
        { rewrite (leavesOf_skipn ls Hls), HL.
          destruct (skipn (2 ^ a) (x :: R')) eqn:Hsk; [left; reflexivity|right].
          rewrite <- Hsk, reach_succ, Hbit.
          assert ((2 ^ a < length (x :: R'))%nat).
          { destruct (le_lt_dec (length (x :: R')) (2 ^ a)) as [Hle|];
              [|assumption].
            rewrite skipn_all2 in Hsk by exact Hle. discriminate. }
          rewrite length_skipn, Nat2Z.inj_sub, pow2_nat by lia. lia. }
        exists r'. rewrite Hbuild.
        rewrite (leavesOf_skipn ls Hls), HL.
        rewrite <- firstn_map, <- skipn_map in *.
        cbn [map] in *. rewrite Hy. cbn [orNil].
        rewrite <- app_assoc. reflexivity.
Qed.
End ReaderAnyStream.

Lemma reader_build_stream (h : Hash) (leafSize : nat) (r : bytes)
    (s e : Z) :
  (0 < leafSize)%nat ->
  Z.of_nat (length r) <= maxInt ->
  0 <= s < e ->
  Z.of_nat leafSize * s <= Z.of_nat (length r) ->
  Z.of_nat leafSize * (e - s) <= maxInt ->
  exists st' : ReaderSubtreeHasher,
    BuildRangeProof s e (NewReaderSubtreeHasher r leafSize h)
    = if Z.of_nat leafSize * e <=? Z.of_nat (length r)
      then Done (rangeProof h (map (leafSum h) (leavesOf leafSize r)) s e,
                 None, st')
      else Done ([], Some ErrUnexpectedEOF, st').
Proof.
  intros Hls Hmax Hse Hs Hfit. unfold maxInt in *.
  pose proof (length_leavesOf leafSize r) as HNle.
  pose proof (length_le_leaves leafSize Hls r) as HNge.
  assert (HsN : s <= Z.of_nat (length (leavesOf leafSize r))) by nia.
  unfold BuildRangeProof.
  rewrite (proj2 (illegalRange_false s e)) by lia.
  rewrite bitsDown_down, bitsUp_up.
  assert (Hs63 : 0 <= s < 2 ^ 63) by lia.
  assert (Hmod : s mod 2 ^ Z.of_nat 64 = s) by (apply Z.mod_small; simpl; lia).
  rewrite (reader_buildPrefix h leafSize Hls s Hs63 64 ltac:(lia) r [])
    by (rewrite Hmod; exact HsN).
  rewrite Hmod. cbn [app].
  rewrite rsh_Skip_bytes by (unfold maxInt; nia).
  rewrite length_skipn.
  assert (Hcmp : (Z.of_nat leafSize * (e - s)
                  <=? Z.of_nat (length r - Z.to_nat s * leafSize))
                 = (Z.of_nat leafSize * e <=? Z.of_nat (length r))).
  { assert (Hsl : Z.of_nat (Z.to_nat s * leafSize) = Z.of_nat leafSize * s)
      by (rewrite Nat2Z.inj_mul, Z2Nat.id by lia; lia).
    rewrite Nat2Z.inj_sub by (apply Nat2Z.inj_le; rewrite Hsl; lia).
    rewrite Hsl.
    destruct (Z.leb_spec (Z.of_nat leafSize * e) (Z.of_nat (length r)));
      [apply Z.leb_le|apply Z.leb_gt]; lia. }
  rewrite Hcmp.
  destruct (Z.leb_spec (Z.of_nat leafSize * e) (Z.of_nat (length r)))
    as [Hin|Hout].
  - rewrite skipn_skipn_add.
    assert (HeN : e <= Z.of_nat (length (leavesOf leafSize r))) by nia.
    replace (Z.to_nat s * leafSize
             + Z.to_nat (Z.of_nat leafSize * (e - s)))%nat
      with (Z.to_nat e * leafSize)%nat by nia.
    destruct (reader_buildSuffix h leafSize Hls (e - 1) ltac:(lia) 64 0
                (skipn (Z.to_nat e * leafSize) r)
                (prefixHashes h 64 s (map (leafSum h) (leavesOf leafSize r)))
                ltac:(lia)) as (r' & Hsuf).
    { right. rewrite reach_0, (leavesOf_skipn leafSize Hls), length_skipn.
      lia. }
    exists (NewReaderSubtreeHasher r' leafSize h). rewrite Hsuf.
    rewrite (leavesOf_skipn leafSize Hls), <- skipn_map.
    unfold rangeProof. reflexivity.
  - eexists. reflexivity.
Qed.

(** [BuildRangeProof] over the stream-backed cursor, for a stream of any
    length, its last leaf short or not: a range that starts within the
    stream gets the proof of the stream's leaf hashes exactly when its end,
    counted in bytes as [leafSize * proofEnd], lies within the stream;
    otherwise, also when the range only reaches into a short last leaf,
    the result is a nil proof and [io.ErrUnexpectedEOF]. *)
Theorem reader_build_counts_bytes (h : Hash) (leafSize : nat) (r : bytes)
    (s e : Z) :
  (0 < leafSize)%nat ->
  Z.of_nat (length r) <= maxInt ->
  0 <= s < e ->
  Z.of_nat leafSize * s <= Z.of_nat (length r) ->
  Z.of_nat leafSize * (e - s) <= maxInt ->
  exists st' : ReaderSubtreeHasher,
    BuildRangeProof s e (NewReaderSubtreeHasher r leafSize h)
    = if Z.of_nat leafSize * e <=? Z.of_nat (length r)
      then Done (rangeProof h (map (leafSum h) (leavesOf leafSize r)) s e,
                 None, st')
      else Done ([], Some ErrUnexpectedEOF, st').
Proof. exact (reader_build_stream h leafSize r s e). Qed.

Lemma reader_build_counts_bytes_witness :
  exists st' : ReaderSubtreeHasher,
    BuildRangeProof 1 3
      (NewReaderSubtreeHasher [x01; x02; x03; x04; x05] 2 idHash)
    = if Z.of_nat 2 * 3 <=? Z.of_nat (length [x01; x02; x03; x04; x05])
      then Done (rangeProof idHash
                   (map (leafSum idHash)
                        (leavesOf 2 [x01; x02; x03; x04; x05])) 1 3,
                 None, st')
      else Done ([], Some ErrUnexpectedEOF, st').
Proof.
  apply (reader_build_counts_bytes idHash 2 [x01; x02; x03; x04; x05] 1 3).
  - lia.
  - vm_compute. discriminate.
  - lia.
  - vm_compute. discriminate.
  - vm_compute. discriminate.
Defined.

(** ** Round trip on a stream with a short last leaf *)

Lemma leavesOf_firstn (ls : nat) (Hls : (0 < ls)%nat) (k : nat) :
  forall r : bytes,
    (k * ls <= length r)%nat ->
    leavesOf ls (firstn (k * ls) r) = firstn k (leavesOf ls r).
Proof.
  induction k as [|k IH]; intros r Hlen.
  - cbn [Nat.mul firstn]. apply leavesOf_nil.
  - simpl Nat.mul in *.
    assert (Hr : r <> []) by (destruct r; [simpl in Hlen; lia|discriminate]).
    assert (Hf : firstn (ls + k * ls) r <> []).
    { intros Hnil. apply (f_equal (@length byte)) in Hnil.
      rewrite length_firstn in Hnil. simpl in Hnil. lia. }
    rewrite (leavesOf_cons ls (firstn (ls + k * ls) r)) by assumption.
    rewrite (leavesOf_cons ls r) by assumption.
    cbn [firstn]. rewrite firstn_firstn, Nat.min_l by lia.
    rewrite skipn_firstn_comm.
    replace (ls + k * ls - ls)%nat with (k * ls)%nat by lia.
    rewrite IH by (rewrite length_skipn; lia). reflexivity.
Qed.

(** The round trip on a stream of any length: when the bytes of the range
    lie within the stream, the proof [BuildRangeProof] builds from the
    stream is accepted by [VerifyRangeProof] reading the range's bytes,
    against the root of the whole stream, a short last leaf counting as a
    leaf of the tree. *)
Theorem round_trip_any_stream (h : Hash) (leafSize : nat) (r : bytes)
    (s e : Z) (fuel : nat) :
  (0 < leafSize)%nat ->
  Z.of_nat (length r) <= maxInt ->
  0 <= s < e ->
  Z.of_nat leafSize * e <= Z.of_nat (length r) ->
  (Z.to_nat (e - s) < fuel)%nat ->
  exists (proof : list bytes) (st' : ReaderSubtreeHasher),
    BuildRangeProof s e (NewReaderSubtreeHasher r leafSize h)
    = Done (proof, None, st')
    /\ VerifyRangeProof h fuel
         (NewReaderLeafHasher
            (firstn (Z.to_nat (e - s) * leafSize)
                    (skipn (Z.to_nat s * leafSize) r))
            h leafSize)
         s e proof (bytesRoot r h leafSize)
       = Some (Done (true, None)).
Proof.
  intros Hls Hmax Hse He Hfuel. unfold maxInt in Hmax.
  pose proof (length_leavesOf leafSize r) as HNle.
  pose proof (length_le_leaves leafSize Hls r) as HNge.
  assert (HeN : e <= Z.of_nat (length (leavesOf leafSize r))) by nia.
  destruct (reader_build_stream h leafSize r s e Hls) as (st' & Hb);
    try (unfold maxInt; nia).
  destruct (Z.leb_spec (Z.of_nat leafSize * e) (Z.of_nat (length r)));
    [|lia].
  exists (rangeProof h (map (leafSum h) (leavesOf leafSize r)) s e), st'.
  split; [exact Hb|].
  unfold bytesRoot.
  apply VerifyRangeProof_spec; try assumption;
    try (rewrite length_map; lia).
  rewrite skipn_map, firstn_map.
  rewrite <- (leavesOf_skipn leafSize Hls).
  rewrite <- (leavesOf_firstn leafSize Hls)
    by (rewrite length_skipn; nia).
  apply reader_drains.
Qed.

Lemma round_trip_any_stream_witness :
  exists (proof : list bytes) (st' : ReaderSubtreeHasher),
    BuildRangeProof 1 2
      (NewReaderSubtreeHasher [x01; x02; x03; x04; x05] 2 idHash)
    = Done (proof, None, st')
    /\ VerifyRangeProof idHash 2
         (NewReaderLeafHasher
            (firstn (Z.to_nat (2 - 1) * 2)
                    (skipn (Z.to_nat 1 * 2) [x01; x02; x03; x04; x05]))
            idHash 2)
         1 2 proof (bytesRoot [x01; x02; x03; x04; x05] idHash 2)
       = Some (Done (true, None)).
Proof.
  apply (round_trip_any_stream idHash 2 [x01; x02; x03; x04; x05] 1 2 2).
  - lia.
  - vm_compute. discriminate.
  - lia.
  - vm_compute. discriminate.
  - vm_compute. lia.
Defined.
